(** * Transcript comparison against a reference annotation

    A shallow embedding of [assemblyline/utils/compare_assemblies.py]:
    the per-pair match statistics ([MatchStats]), the best-match selector
    ([MatchStats.choose_best]), the per-locus classifier ([compare_locus])
    and the nearest-neighbour resolver ([find_nearest_transcripts]),
    followed by the properties proved about them. *)

From Stdlib Require Import ZArith Lia Permutation Sorted.
From Stdlib Require QArith.
From stdpp Require Import base option list functions gmap strings fin_maps sets.

Local Open Scope Z_scope.

(** ** Exceptions and fallible results *)

(** The exceptions the modelled code can raise. *)
Inductive exn : Type :=
  | AssertionError
  | ZeroDivisionError
  | KeyError
  | IndexError.

Inductive result (A : Type) : Type :=
  | Ok (a : A)
  | Raise (e : exn).
Arguments Ok {A} a.
Arguments Raise {A} e.

#[global] Instance result_ret : MRet result := fun A a => Ok a.
#[global] Instance result_bind : MBind result := fun A B k r =>
  match r with
  | Ok a => k a
  | Raise e => Raise e
  end.

(** [assert cond] *)
Definition py_assert (b : bool) : result unit :=
  if b then Ok tt else Raise AssertionError.

(** ** Categories *)

(** Modelled from the spec: [Category] ([assemblyline.lib.base], not under
    [src/]) is a closed enumeration.  [Category.to_str] gives the value that
    is stored in the [category] field of a [MatchStats]; [choose_best]
    compares this field with the constants themselves (lines 117-132) and
    assigns a constant to it (line 133), so the rendering is taken to keep
    the enumeration value. *)
Module Category.

Inductive t : Type :=
  | SAME_STRAND
  | OPP_STRAND
  | INTRONIC_SAME_STRAND
  | INTRONIC_OPP_STRAND
  | INTERLEAVING_SAME_STRAND
  | INTERLEAVING_OPP_STRAND
  | ENCOMPASSING_SAME_STRAND
  | ENCOMPASSING_OPP_STRAND
  | INTERGENIC
  | READ_THROUGH.

#[global] Instance eq_dec : EqDecision t.
Proof. solve_decision. Defined.

Definition to_str (c : t) : t := c.

End Category.
Export Category.

(** [a == b] on categories. *)
Definition cat_eqb (a b : Category.t) : bool := bool_decide (a = b).

(** ** Python floats *)

(** [choose_best] ranks by floating-point fractions.  The float type, the
    literal [0.0], the quotient [float(a) / b] (for [b ≠ 0]) and the
    comparison are taken as an interface; the only facts used about floats
    are that their comparison is a total preorder (no NaN can arise from a
    quotient of two integers with a non-zero divisor). *)
Class PyFloat : Type := {
  float : Type;
  float_zero : float;
  float_div : Z → Z → float;
  float_cmp : float → float → comparison;
  float_cmp_antisym : ∀ x y, float_cmp y x = CompOpp (float_cmp x y);
  float_cmp_trans : ∀ x y z,
    float_cmp x y = Lt → float_cmp y z = Lt → float_cmp x z = Lt;
  float_cmp_eq_compat : ∀ x y z,
    float_cmp x y = Eq → float_cmp x z = float_cmp y z
}.

(** [float(a) / b]; a zero divisor raises. *)
Definition py_div `{PyFloat} (a b : Z) : result float :=
  if b =? 0 then Raise ZeroDivisionError else Ok (float_div a b).

(** ** Lexicographic comparison of tuples *)

Definition lexc (c k : comparison) : comparison :=
  match c with
  | Eq => k
  | _ => c
  end.

(** Comparison of a pair, the way a tuple is compared: first component
    first, the second only when the first ones are equal. *)
Definition lex_cmp {A B : Type} (ca : A → A → comparison)
    (cb : B → B → comparison) (x y : A * B) : comparison :=
  lexc (ca x.1 y.1) (cb x.2 y.2).

(** ** Genomic records *)

(** [(start, end)], half-open. *)
Abbreviation Exon := (Z * Z)%type.
Abbreviation Node := (Z * Z)%type.
(** [(strand, start, end)] *)
Abbreviation Intron := (Z * Z * Z)%type.

(** Modelled from the spec: the transcript record ([assemblyline.lib.transcript]
    is not under [src/]).  [is_ref] is [bool(int(t.attrs[GTFAttr.REF]))];
    [attr_transcript_id] and [attr_gene_id] are the mandatory GTF attributes;
    the attributes read only on references may be absent. *)
Record Transcript : Type := mkTranscript {
  chrom : string;
  start : Z;
  end_ : Z;
  strand : Z;
  exons : list Exon;
  is_ref : bool;
  attr_transcript_id : string;
  attr_gene_id : string;
  attr_orig_gene_id : option string;
  attr_gene_name : option string;
  attr_source : option string;
  attr_gene_type : option string
}.

(** Modelled from the spec: a transcript's length is the sum of its exon
    spans. *)
Definition Transcript_length (t : Transcript) : Z :=
  foldr (fun e acc => (e.2 - e.1) + acc) 0 (exons t).

(** Modelled from the spec: the introns of a transcript are the gaps between
    consecutive exons, [(e1.end, e2.start)]. *)
Fixpoint iterintrons_from (e1 : Exon) (rest : list Exon) : list (Z * Z) :=
  match rest with
  | [] => []
  | e2 :: rest' => (e1.2, e2.1) :: iterintrons_from e2 rest'
  end.

Definition iterintrons (t : Transcript) : list (Z * Z) :=
  match exons t with
  | [] => []
  | e1 :: rest => iterintrons_from e1 rest
  end.

(** The string ['%s:%d-%d[%s]'] is kept as its four arguments. *)
Abbreviation Locus := (string * Z * Z * Z)%type.

(** Addresses of [MatchStats] objects. *)
Abbreviation addr := nat.

(** ** MatchStats *)

Module MatchStats.

(** The fields of [header_fields], as assigned on the objects that reach
    [choose_best] and the reports (lines 260-266 and 496-511 assign every
    one of them). *)
Record t : Type := mk {
  transcript_id : string;
  gene_id : string;
  locus : Locus;
  length : Z;
  num_introns : Z;
  ref_transcript_id : string;
  ref_gene_id : string;
  ref_orig_gene_id : string;
  ref_gene_name : string;
  ref_source : string;
  ref_gene_type : string;
  ref_locus : Locus;
  ref_length : Z;
  ref_num_introns : Z;
  shared_same_strand_bp : Z;
  shared_opp_strand_bp : Z;
  shared_introns : Z;
  shared_splicing : bool;
  distance : Z;
  category : Category.t
}.

(** [m.category = c] *)
Definition set_category (m : t) (c : Category.t) : t :=
  mk (transcript_id m) (gene_id m) (locus m) (length m) (num_introns m)
     (ref_transcript_id m) (ref_gene_id m) (ref_orig_gene_id m)
     (ref_gene_name m) (ref_source m) (ref_gene_type m) (ref_locus m)
     (ref_length m) (ref_num_introns m) (shared_same_strand_bp m)
     (shared_opp_strand_bp m) (shared_introns m) (shared_splicing m)
     (distance m) c.

(** The object store: [MatchStats] objects are shared by reference between
    the candidate list and the chosen best match. *)
Abbreviation heap := (addr → t).

(** [d[key]] on a reference attribute; a missing key raises. *)
Definition attr_get (o : option string) : result string :=
  match o with
  | Some s => Ok s
  | None => Raise KeyError
  end.

(** [from_transcript(t, ref)] followed by the assignments of lines 261-266
    of [compare_locus]. *)
Definition from_transcript (tr ref : Transcript) (same_strand_bp opp_strand_bp
    num_shared_introns : Z) (splicing : bool) (c : Category.t) : result t :=
  let ref_gene := attr_gene_id ref in
  let orig := default ref_gene (attr_orig_gene_id ref) in
  gene_name ← attr_get (attr_gene_name ref);
  source ← attr_get (attr_source ref);
  gene_type ← attr_get (attr_gene_type ref);
  Ok (mk (attr_transcript_id tr) (attr_gene_id tr)
         (chrom tr, start tr, end_ tr, strand tr)
         (Transcript_length tr)
         (Z.of_nat (Datatypes.length (exons tr)) - 1)
         (attr_transcript_id ref) ref_gene orig gene_name source gene_type
         (chrom ref, start ref, end_ ref, strand ref)
         (Transcript_length ref)
         (Z.of_nat (Datatypes.length (exons ref)) - 1)
         same_strand_bp opp_strand_bp num_shared_introns splicing 0 c).

Section ChooseBest.
Context `{PF : PyFloat}.

(** The ranking key of a candidate: the first twelve components of the
    tuple appended to [hits]. *)
Definition Key : Type :=
  Z * (float * (float * (float * (Z * (Z * (Z * (Z * (Z * (Z * (Z * Z)))))))))).

(** The tuple appended to [hits]: the key followed by the object. *)
Definition Hit : Type :=
  Z * (float * (float * (float * (Z * (Z * (Z * (Z * (Z * (Z * (Z * (Z * addr))))))))))).

Definition is_cat (m : t) (c : Category.t) : Z := Z.b2z (cat_eqb (category m) c).

(** The body of the loop of lines 107-124 for the object at [a]. *)
Definition hit_of (h : heap) (a : addr) : result Hit :=
  let m := h a in
  let total_introns := num_introns m + ref_num_introns m in
  intron_frac ←
    (if total_introns =? 0 then Ok float_zero
     else py_div (shared_introns m) (total_introns - shared_introns m));
  same_strand_frac ←
    py_div (shared_same_strand_bp m)
           (length m + ref_length m - shared_same_strand_bp m);
  opp_strand_frac ←
    py_div (shared_opp_strand_bp m)
           (length m + ref_length m - shared_opp_strand_bp m);
  Ok (Z.b2z (shared_splicing m), (intron_frac, (same_strand_frac,
      (opp_strand_frac,
      (is_cat m INTRONIC_SAME_STRAND, (is_cat m INTRONIC_OPP_STRAND,
      (is_cat m INTERLEAVING_SAME_STRAND, (is_cat m INTERLEAVING_OPP_STRAND,
      (is_cat m ENCOMPASSING_SAME_STRAND, (is_cat m ENCOMPASSING_OPP_STRAND,
      (is_cat m INTERGENIC, (- Z.abs (distance m), a)))))))))))).

(** The loop of lines 107-128: the hits in list order and the set of
    reference gene ids of the SAME_STRAND candidates. *)
Fixpoint choose_best_loop (h : heap) (lst : list addr) (hits : list Hit)
    (same_strand_gene_ids : gset string)
    : result (list Hit * gset string) :=
  match lst with
  | [] => Ok (hits, same_strand_gene_ids)
  | a :: rest =>
      x ← hit_of h a;
      let ids :=
        if cat_eqb (category (h a)) SAME_STRAND
        then {[ ref_gene_id (h a) ]} ∪ same_strand_gene_ids
        else same_strand_gene_ids in
      choose_best_loop h rest (hits ++ [x]) ids
  end.

(** Tuple comparison.  The last component is a [MatchStats] object with
    no comparison method of its own: Python 2 orders such objects by
    address. *)
Definition hit_compare : Hit → Hit → comparison :=
  lex_cmp Z.compare (lex_cmp float_cmp (lex_cmp float_cmp (lex_cmp float_cmp
  (lex_cmp Z.compare (lex_cmp Z.compare (lex_cmp Z.compare (lex_cmp Z.compare
  (lex_cmp Z.compare (lex_cmp Z.compare (lex_cmp Z.compare
  (lex_cmp Z.compare Nat.compare))))))))))).

(** [hits.sort(reverse=True)]: a stable sort into descending order,
    written as a stable insertion sort. *)
Fixpoint insert_desc (x : Hit) (l : list Hit) : list Hit :=
  match l with
  | [] => [x]
  | y :: l' =>
      match hit_compare x y with
      | Lt => y :: insert_desc x l'
      | _ => x :: l
      end
  end.

Definition sort_reverse (hits : list Hit) : list Hit :=
  foldr insert_desc [] hits.

(** The object of a hit, [hit[-1]]. *)
Definition hit_obj (x : Hit) : addr :=
  x.2.2.2.2.2.2.2.2.2.2.2.2.

Definition choose_best (h : heap) (lst : list addr)
    : result (heap * option addr) :=
  if (Datatypes.length lst =? 0)%nat then Ok (h, None)
  else
    '(hits, same_strand_gene_ids) ← choose_best_loop h lst [] ∅;
    match sort_reverse hits with
    | [] => Raise IndexError
    | top :: _ =>
        let hit := hit_obj top in
        if cat_eqb (category (h hit)) SAME_STRAND
           && bool_decide (1 < size same_strand_gene_ids)%nat
        then Ok (<[hit := set_category (h hit) READ_THROUGH]> h, Some hit)
        else Ok (h, Some hit)
    end.
End ChooseBest.

End MatchStats.

(** ** Interval index *)

(** Modelled from the spec: [Interval] and [IntervalTree]
    ([assemblyline.lib.bx.intersection], not under [src/]).  An interval is
    [start, end) with an optional strand and a payload; the tree is kept as
    the intervals in insertion order.  [find] returns the intervals that
    overlap the query range (any overlap); [before] and [after] return the
    nearest interval lying strictly before, respectively strictly after, a
    position, no further away than [max_dist].  The order in which [find]
    lists its hits is not relied upon. *)
Module Interval.
Record t (S V : Type) : Type := mk {
  start : Z;
  end_ : Z;
  strand : S;
  value : V
}.
Arguments mk {S V} _ _ _ _.
Arguments start {S V} _.
Arguments end_ {S V} _.
Arguments strand {S V} _.
Arguments value {S V} _.
End Interval.

Module IntervalTree.
Section Tree.
Context {S V : Type}.

Definition t : Type := list (Interval.t S V).

Definition empty : t := [].

Definition insert_interval (tree : t) (i : Interval.t S V) : t :=
  tree ++ [i].

Definition overlaps (qstart qend : Z) (i : Interval.t S V) : bool :=
  (Interval.start i <? qend) && (qstart <? Interval.end_ i).

Definition find (tree : t) (qstart qend : Z) : list (Interval.t S V) :=
  List.filter (overlaps qstart qend) tree.

(** The better of two candidates under [closer]; the earlier one on a
    tie. *)
Definition pick (closer : Interval.t S V → Interval.t S V → bool)
    (best : option (Interval.t S V)) (i : Interval.t S V)
    : option (Interval.t S V) :=
  match best with
  | None => Some i
  | Some b => if closer i b then Some i else Some b
  end.

Definition before (tree : t) (position max_dist : Z)
    : list (Interval.t S V) :=
  let cands :=
    List.filter (fun i => (Interval.end_ i <? position)
                          && (position - Interval.end_ i <=? max_dist)) tree in
  option_list
    (foldl (pick (fun i b => Interval.end_ b <? Interval.end_ i)) None cands).

Definition after (tree : t) (position max_dist : Z)
    : list (Interval.t S V) :=
  let cands :=
    List.filter (fun i => (position <? Interval.start i)
                          && (Interval.start i - position <=? max_dist)) tree in
  option_list
    (foldl (pick (fun i b => Interval.start i <? Interval.start b)) None cands).
End Tree.
Arguments t : clear implicits.
End IntervalTree.

(** ** Boundary segmentation *)

(** Modelled from the spec: [find_exon_boundaries] and [split_exons]
    ([assemblyline.lib.assemble.transcript_graph], not under [src/]).  The
    boundaries are the distinct exon start and end coordinates of the locus
    in ascending order; an exon is split at every boundary strictly inside
    it, into a consecutive run of nodes that covers it. *)
Fixpoint insert_boundary (x : Z) (l : list Z) : list Z :=
  match l with
  | [] => [x]
  | y :: l' =>
      if x <? y then x :: l
      else if x =? y then l
      else y :: insert_boundary x l'
  end.

Definition exon_coords (t : Transcript) : list Z :=
  concat (map (fun e : Exon => [e.1; e.2]) (exons t)).

Definition find_exon_boundaries (transcripts : list Transcript) : list Z :=
  foldr insert_boundary [] (concat (map exon_coords transcripts)).

Definition split_exon (e : Exon) (boundaries : list Z) : list Node :=
  let cuts := List.filter (fun x => (e.1 <? x) && (x <? e.2)) boundaries in
  zip (e.1 :: cuts) (cuts ++ [e.2]).

Definition split_exons (t : Transcript) (boundaries : list Z) : list Node :=
  concat (map (fun e => split_exon e boundaries) (exons t)).

(** ** The per-locus classifier *)

(** The match accumulator of one reference transcript.  [nodes] is a
    dictionary with default [[]], from category to the nodes seen under it. *)
Record Match : Type := mkMatch {
  nodes : Category.t → list Node;
  introns : list Intron;
  splicing : bool
}.

Definition Match_new : Match :=
  {| nodes := fun _ => []; introns := []; splicing := false |}.

(** [d[k].append(v)] on a dictionary with default [[]]. *)
Definition dict_append `{Countable K} {A : Type} (k : K) (v : A)
    (d : gmap K (list A)) : gmap K (list A) :=
  <[k := default [] (d !! k) ++ [v]]> d.

(** The reference indexes of a locus and its test transcripts, as left by the
    loop of lines 146-167. *)
Record RefIndex : Type := mkRefIndex {
  ref_intron_dict : gmap Intron (list Transcript);
  ref_node_dict : gmap Node (list Transcript);
  ref_splicing_patterns : gmap (list Intron) (list Transcript);
  ref_dict : gmap string Transcript;
  test_transcripts : list Transcript
}.

Definition RefIndex_empty : RefIndex :=
  mkRefIndex ∅ ∅ ∅ ∅ [].

(** The introns of [t] as [(strand, start, end)]; this is also its splicing
    pattern. *)
Definition transcript_introns (t : Transcript) : list Intron :=
  map (fun se : Z * Z => (strand t, se.1, se.2)) (iterintrons t).

(** One iteration of the loop of lines 146-167. *)
Definition index_transcript (boundaries : list Z) (idx : RefIndex)
    (t : Transcript) : RefIndex :=
  if is_ref t then
    let ref_id := attr_transcript_id t in
    let rd := <[ref_id := t]> (ref_dict idx) in
    let nd :=
      foldl (fun d n => dict_append n t d) (ref_node_dict idx)
            (split_exons t boundaries) in
    let splicing_pattern := transcript_introns t in
    let id_ :=
      foldl (fun d intron => dict_append intron t d) (ref_intron_dict idx)
            splicing_pattern in
    let sp :=
      if (0 <? Datatypes.length splicing_pattern)%nat
      then dict_append splicing_pattern t (ref_splicing_patterns idx)
      else ref_splicing_patterns idx in
    mkRefIndex id_ nd sp rd (test_transcripts idx)
  else
    mkRefIndex (ref_intron_dict idx) (ref_node_dict idx)
               (ref_splicing_patterns idx) (ref_dict idx)
               (test_transcripts idx ++ [t]).

Definition build_index (boundaries : list Z) (transcripts : list Transcript)
    : RefIndex :=
  foldl (index_transcript boundaries) RefIndex_empty transcripts.

(** Lines 169-172: one interval per distinct reference intron, carrying the
    references that have it.  A dictionary is iterated in an order of its
    own; [map_to_list] stands for it, and nothing below depends on which
    order it is. *)
Definition build_intron_tree (d : gmap Intron (list Transcript))
    : IntervalTree.t Z (list Transcript) :=
  foldl (fun tree (kv : Intron * list Transcript) =>
           let '(strand, start, end_) := kv.1 in
           IntervalTree.insert_interval tree
             (Interval.mk start end_ strand kv.2))
        IntervalTree.empty (map_to_list d).

(** [matches[ref_id].nodes[c].append(n)] *)
Definition add_node (ref_id : string) (c : Category.t) (n : Node)
    (matches : gmap string Match) : gmap string Match :=
  let m := default Match_new (matches !! ref_id) in
  <[ref_id := mkMatch (<[c := nodes m c ++ [n]]> (nodes m))
                       (introns m) (splicing m)]> matches.

(** [matches[ref_id].introns.append(intron)] *)
Definition add_intron (ref_id : string) (intron : Intron)
    (matches : gmap string Match) : gmap string Match :=
  let m := default Match_new (matches !! ref_id) in
  <[ref_id := mkMatch (nodes m) (introns m ++ [intron]) (splicing m)]> matches.

(** [matches[ref_id].splicing = True] *)
Definition set_splicing (ref_id : string) (matches : gmap string Match)
    : gmap string Match :=
  let m := default Match_new (matches !! ref_id) in
  <[ref_id := mkMatch (nodes m) (introns m) true]> matches.

(** [sum((n[1] - n[0]) for n in l)] *)
Definition sum_bp (l : list Node) : Z :=
  foldr (fun n acc => (n.2 - n.1) + acc) 0 l.

(** Lines 229-258: the category of a test/reference pair.  [num_nodes] is
    [len(nodes)], the number of nodes of the test transcript. *)
Definition decide_category (m : Match) (num_nodes : nat)
    (same_strand_bp opp_strand_bp : Z) (num_shared_introns : nat)
    : result Category.t :=
  if splicing m || (0 <? num_shared_introns)%nat || (0 <? same_strand_bp)
  then Ok SAME_STRAND
  else if 0 <? opp_strand_bp then Ok OPP_STRAND
  else
    let num_same_strand := Datatypes.length (nodes m SAME_STRAND) in
    let num_opp_strand := Datatypes.length (nodes m OPP_STRAND) in
    let num_intronic_same_strand :=
      Datatypes.length (nodes m INTRONIC_SAME_STRAND) in
    let num_intronic_opp_strand :=
      Datatypes.length (nodes m INTRONIC_OPP_STRAND) in
    _ ← py_assert (num_same_strand =? 0)%nat;
    _ ← py_assert (num_opp_strand =? 0)%nat;
    let num_intronic := (num_intronic_same_strand + num_intronic_opp_strand)%nat in
    _ ← py_assert (0 <? num_intronic)%nat;
    if (num_intronic =? num_nodes)%nat then
      if (0 <? num_intronic_same_strand)%nat then Ok INTRONIC_SAME_STRAND
      else Ok INTRONIC_OPP_STRAND
    else
      if (0 <? num_intronic_same_strand)%nat then Ok INTERLEAVING_SAME_STRAND
      else Ok INTERLEAVING_OPP_STRAND.

Section CompareLocus.
(** [cmp_strand] ([assemblyline.lib.transcript], not under [src/]) is taken
    as a parameter. *)
Variable cmp_strand : Z → Z → bool.

(** Lines 185-194: the references that own exactly this node. *)
Definition match_exact_node (idx : RefIndex) (t : Transcript) (n : Node)
    (matches : gmap string Match) : gmap string Match :=
  match ref_node_dict idx !! n with
  | Some refs =>
      foldl (fun ms ref =>
               let c := if cmp_strand (strand t) (strand ref)
                        then SAME_STRAND else OPP_STRAND in
               add_node (attr_transcript_id ref) c n ms)
            matches refs
  | None => matches
  end.

(** Lines 196-204: the reference introns that overlap this node. *)
Definition match_intronic_node (tree : IntervalTree.t Z (list Transcript))
    (t : Transcript) (n : Node) (matches : gmap string Match)
    : gmap string Match :=
  foldl (fun ms hit =>
           let c := if cmp_strand (strand t) (Interval.strand hit)
                    then INTRONIC_SAME_STRAND else INTRONIC_OPP_STRAND in
           foldl (fun ms' ref => add_node (attr_transcript_id ref) c n ms')
                 ms (Interval.value hit))
        matches (IntervalTree.find tree n.1 n.2).

(** Lines 206-211 *)
Definition match_introns (idx : RefIndex) (introns : list Intron)
    (matches : gmap string Match) : gmap string Match :=
  foldl (fun ms intron =>
           match ref_intron_dict idx !! intron with
           | Some refs =>
               foldl (fun ms' ref =>
                        add_intron (attr_transcript_id ref) intron ms')
                     ms refs
           | None => ms
           end)
        matches introns.

(** Lines 213-218 *)
Definition match_splicing (idx : RefIndex) (splicing_pattern : list Intron)
    (matches : gmap string Match) : gmap string Match :=
  if (0 <? Datatypes.length splicing_pattern)%nat then
    match ref_splicing_patterns idx !! splicing_pattern with
    | Some refs =>
        foldl (fun ms ref => set_splicing (attr_transcript_id ref) ms)
              matches refs
    | None => matches
    end
  else matches.

(** Lines 182-218: the accumulators of the references matched by [t]. *)
Definition accumulate (idx : RefIndex)
    (tree : IntervalTree.t Z (list Transcript)) (t : Transcript)
    (nodes : list Node) : gmap string Match :=
  let introns := transcript_introns t in
  let matches1 :=
    foldl (fun ms n =>
             match_intronic_node tree t n (match_exact_node idx t n ms))
          ∅ nodes in
  let matches2 := match_introns idx introns matches1 in
  match_splicing idx introns matches2.

(** Lines 223-267 for one entry of [matches]: the new [MatchStats]. *)
Definition finalize (idx : RefIndex) (t : Transcript) (nodes_t : list Node)
    (ref_id : string) (m : Match) : result MatchStats.t :=
  ref ← match ref_dict idx !! ref_id with
        | Some r => Ok r
        | None => Raise KeyError
        end;
  let same_strand_bp := sum_bp (nodes m SAME_STRAND) in
  let opp_strand_bp := sum_bp (nodes m OPP_STRAND) in
  let num_shared_introns := Datatypes.length (introns m) in
  c ← decide_category m (Datatypes.length nodes_t) same_strand_bp
        opp_strand_bp num_shared_introns;
  MatchStats.from_transcript t ref same_strand_bp opp_strand_bp
    (Z.of_nat num_shared_introns) (splicing m) (Category.to_str c).

(** The interpreter state: the object store and the next free address.
    Each new [MatchStats] is a fresh object; addresses are handed out in
    increasing order here, and what is proved about [choose_best] holds for
    every store and every list of addresses. *)
Definition State : Type := MatchStats.heap * addr.

(** The loop of lines 222-267: each [MatchStats] is allocated and appended
    to [match_stats].  The entries are visited in the iteration order of
    the dictionary. *)
Fixpoint finalize_all (idx : RefIndex) (t : Transcript) (nodes_t : list Node)
    (entries : list (string * Match)) (st : State) (match_stats : list addr)
    : result (State * list addr) :=
  match entries with
  | [] => Ok (st, match_stats)
  | (ref_id, m) :: rest =>
      ms ← finalize idx t nodes_t ref_id m;
      let '(h, next) := st in
      finalize_all idx t nodes_t rest (<[next := ms]> h, S next)
                   (match_stats ++ [next])
  end.

(** Lines 175-267 for one test transcript: the state after creating the
    [MatchStats] and the list [match_stats]. *)
Definition classify_transcript (boundaries : list Z) (idx : RefIndex)
    (tree : IntervalTree.t Z (list Transcript)) (st : State)
    (t : Transcript) : result (State * list addr) :=
  let nodes_t := split_exons t boundaries in
  let matches := accumulate idx tree t nodes_t in
  finalize_all idx t nodes_t (map_to_list matches) st [].

Section WithFloat.
Context `{PF : PyFloat}.

(** What one iteration of the loop of line 174 yields: the transcript,
    the best match and the list of matches.  The store at the time of
    the yield is kept with it. *)
Definition Yield : Type :=
  MatchStats.heap * Transcript * option addr * list addr.

Definition yield_heap (y : Yield) : MatchStats.heap := y.1.1.1.
Definition yield_transcript (y : Yield) : Transcript := y.1.1.2.
Definition yield_best (y : Yield) : option addr := y.1.2.
Definition yield_stats (y : Yield) : list addr := y.2.

(** Lines 175-270 for one test transcript. *)
Definition compare_transcript (boundaries : list Z) (idx : RefIndex)
    (tree : IntervalTree.t Z (list Transcript)) (st : State)
    (t : Transcript) : result (State * Yield) :=
  '(st1, match_stats) ← classify_transcript boundaries idx tree st t;
  '(h2, best_match) ← MatchStats.choose_best st1.1 match_stats;
  Ok ((h2, st1.2), (h2, t, best_match, match_stats)).

(** The generator loop of line 174: the items yielded so far, and the
    exception that ended the iteration if there was one. *)
Fixpoint compare_loop (boundaries : list Z) (idx : RefIndex)
    (tree : IntervalTree.t Z (list Transcript)) (st : State)
    (ts : list Transcript) : list Yield * option exn :=
  match ts with
  | [] => ([], None)
  | t :: rest =>
      match compare_transcript boundaries idx tree st t with
      | Ok (st', y) =>
          let '(ys, e) := compare_loop boundaries idx tree st' rest in
          (y :: ys, e)
      | Raise e => ([], Some e)
      end
  end.

Definition compare_locus (st : State) (transcripts : list Transcript)
    : list Yield * option exn :=
  let boundaries := find_exon_boundaries transcripts in
  let idx := build_index boundaries transcripts in
  let tree := build_intron_tree (ref_intron_dict idx) in
  compare_loop boundaries idx tree st (test_transcripts idx).

(** Lines 452-465 of [compare_assemblies]: the rows written for one
    yielded item, first to the best-match report and then to the detail
    report.  A transcript without matches writes no row (it goes to the
    intergenic pass). *)
Definition overlapping_rows (y : Yield)
    : result (list MatchStats.t * list MatchStats.t) :=
  let '(h, t, best_match, match_stats) := y in
  if (Datatypes.length match_stats =? 0)%nat then Ok ([], [])
  else
    match best_match with
    | None => Raise AssertionError
    | Some b => Ok ([h b], map h match_stats)
    end.
End WithFloat.
End CompareLocus.

(** ** The nearest-neighbour resolver *)

(** For nearest transcripts calculation. *)
Definition MAX_LOCUS_DIST : Z := 100000000.

Module LocusFeature.
Record t : Type := mk {
  chrom : string;
  start : Z;
  end_ : Z;
  strand : Z;
  transcript_id : string;
  gene_id : string;
  orig_gene_id : string;
  gene_name : string;
  source : string;
  gene_type : string;
  length : Z;
  num_introns : Z
}.
End LocusFeature.

(** The interval index of the reference loci of one chromosome. *)
Abbreviation LocusTree := (IntervalTree.t unit (list LocusFeature.t)).

(** [[features[i] for i in indexes]] *)
Fixpoint features_at (features : list LocusFeature.t) (indexes : list nat)
    : result (list LocusFeature.t) :=
  match indexes with
  | [] => Ok []
  | i :: rest =>
      f ← match features !! i with
          | Some f => Ok f
          | None => Raise IndexError
          end;
      fs ← features_at features rest;
      Ok (f :: fs)
  end.

(** Lines 315-318 of [build_locus_trees] for one region
    [(locus_start, locus_end, indexes)] of the cluster tree: the locus
    interval is inserted once for every index of the region. *)
Definition insert_region (features : list LocusFeature.t) (tree : LocusTree)
    (region : Z * Z * list nat) : result LocusTree :=
  let '(locus_start, locus_end, indexes) := region in
  foldl (fun acc (_ : nat) =>
           tree' ← acc;
           locus_features ← features_at features indexes;
           Ok (IntervalTree.insert_interval tree'
                 (Interval.mk locus_start locus_end tt locus_features)))
        (Ok tree) indexes.

Section FindNearest.
Variable cmp_strand : Z → Z → bool.

(** Lines 325-331: the transcripts of the loci that overlap the query. *)
Definition encompassing_features (strand : Z)
    (hits : list (Interval.t unit (list LocusFeature.t)))
    : list (LocusFeature.t * Category.t * Z) :=
  foldl (fun acc hit =>
           foldl (fun acc' f =>
                    let c := if cmp_strand (LocusFeature.strand f) strand
                             then ENCOMPASSING_SAME_STRAND
                             else ENCOMPASSING_OPP_STRAND in
                    acc' ++ [(f, c, 0)])
                 acc (Interval.value hit))
        [] hits.

(** Lines 337-343: the nearest of the hits of one side. *)
Definition nearest_locus_hit (start end_ : Z)
    (hits : list (Interval.t unit (list LocusFeature.t)))
    : option (Interval.t unit (list LocusFeature.t)) :=
  (foldl (fun (st : option (Interval.t unit (list LocusFeature.t)) * Z) hit =>
            let dist := Z.min (Z.abs (start - Interval.end_ hit))
                              (Z.abs (Interval.start hit - end_)) in
            if dist <? st.2 then (Some hit, dist) else st)
         (None, MAX_LOCUS_DIST) hits).1.

(** Lines 344-347: the transcripts of the nearest locus of one side. *)
Definition intergenic_features (start end_ : Z)
    (hits : list (Interval.t unit (list LocusFeature.t)))
    (nearest_features : list (LocusFeature.t * Category.t * Z))
    : list (LocusFeature.t * Category.t * Z) :=
  match nearest_locus_hit start end_ hits with
  | Some hit =>
      foldl (fun acc f =>
               let dist := Z.min (Z.abs (start - LocusFeature.end_ f))
                                 (Z.abs (LocusFeature.start f - end_)) in
               acc ++ [(f, INTERGENIC, dist)])
            nearest_features (Interval.value hit)
  | None => nearest_features
  end.

(** [locus_trees] is a dictionary with default [IntervalTree()]. *)
Definition find_nearest_transcripts (chrom : string) (start end_ strand : Z)
    (locus_trees : gmap string LocusTree)
    : list (LocusFeature.t * Category.t * Z) :=
  let tree := default IntervalTree.empty (locus_trees !! chrom) in
  let hits := IntervalTree.find tree start end_ in
  let nearest_features := encompassing_features strand hits in
  let left_hits := IntervalTree.before tree start MAX_LOCUS_DIST in
  let right_hits := IntervalTree.after tree end_ MAX_LOCUS_DIST in
  foldl (fun acc hits' => intergenic_features start end_ hits' acc)
        nearest_features [left_hits; right_hits].
End FindNearest.

(** ** The ranking key, as specified *)

Section RankKey.
Context `{PF : PyFloat}.

(** [shared_introns / (total_introns - shared_introns)], and [0.0] when
    [total_introns] is zero. *)
Definition intron_frac (m : MatchStats.t) : float :=
  let total_introns :=
    MatchStats.num_introns m + MatchStats.ref_num_introns m in
  if total_introns =? 0 then float_zero
  else float_div (MatchStats.shared_introns m)
                 (total_introns - MatchStats.shared_introns m).

(** [shared_same_strand_bp / (test_len + ref_len - shared_same_strand_bp)] *)
Definition same_strand_frac (m : MatchStats.t) : float :=
  float_div (MatchStats.shared_same_strand_bp m)
            (MatchStats.length m + MatchStats.ref_length m
             - MatchStats.shared_same_strand_bp m).

Definition opp_strand_frac (m : MatchStats.t) : float :=
  float_div (MatchStats.shared_opp_strand_bp m)
            (MatchStats.length m + MatchStats.ref_length m
             - MatchStats.shared_opp_strand_bp m).

(** [is_C]: [1] when the candidate's category is [c], and [0] when it is
    another one. *)
Definition category_flag (m : MatchStats.t) (c : Category.t) : Z :=
  if decide (MatchStats.category m = c) then 1 else 0.

(** The key of the specification, component by component. *)
Definition rank_key (m : MatchStats.t) : MatchStats.Key :=
  (Z.b2z (MatchStats.shared_splicing m),
   (intron_frac m, (same_strand_frac m, (opp_strand_frac m,
   (category_flag m INTRONIC_SAME_STRAND,
   (category_flag m INTRONIC_OPP_STRAND,
   (category_flag m INTERLEAVING_SAME_STRAND,
   (category_flag m INTERLEAVING_OPP_STRAND,
   (category_flag m ENCOMPASSING_SAME_STRAND,
   (category_flag m ENCOMPASSING_OPP_STRAND,
   (category_flag m INTERGENIC,
    - Z.abs (MatchStats.distance m)))))))))))).

(** The first comparison of a list that is not an equality decides. *)
Fixpoint first_decided (cs : list comparison) : comparison :=
  match cs with
  | [] => Eq
  | Eq :: cs' => first_decided cs'
  | c :: _ => c
  end.

(** Lexicographic comparison of two keys: the components are compared from
    left to right, integers by their order and fractions by the order of
    floats, and the first pair of components that differ decides. *)
Definition key_compare (k1 k2 : MatchStats.Key) : comparison :=
  let '(splicing1, (introns1, (same1, (opp1, (intronic_same1, (intronic_opp1,
        (interleaving_same1, (interleaving_opp1, (encompassing_same1,
        (encompassing_opp1, (intergenic1, distance1))))))))))) := k1 in
  let '(splicing2, (introns2, (same2, (opp2, (intronic_same2, (intronic_opp2,
        (interleaving_same2, (interleaving_opp2, (encompassing_same2,
        (encompassing_opp2, (intergenic2, distance2))))))))))) := k2 in
  first_decided
    [Z.compare splicing1 splicing2;
     float_cmp introns1 introns2;
     float_cmp same1 same2;
     float_cmp opp1 opp2;
     Z.compare intronic_same1 intronic_same2;
     Z.compare intronic_opp1 intronic_opp2;
     Z.compare interleaving_same1 interleaving_same2;
     Z.compare interleaving_opp1 interleaving_opp2;
     Z.compare encompassing_same1 encompassing_same2;
     Z.compare encompassing_opp1 encompassing_opp2;
     Z.compare intergenic1 intergenic2;
     Z.compare distance1 distance2].

(** The three fractions of the key are defined: no divisor is zero. *)
Definition key_defined (m : MatchStats.t) : bool :=
  let total_introns :=
    MatchStats.num_introns m + MatchStats.ref_num_introns m in
  ((total_introns =? 0)
   || negb (total_introns - MatchStats.shared_introns m =? 0))
  && negb (MatchStats.length m + MatchStats.ref_length m
           - MatchStats.shared_same_strand_bp m =? 0)
  && negb (MatchStats.length m + MatchStats.ref_length m
           - MatchStats.shared_opp_strand_bp m =? 0).

(** The tuple of a candidate whose key is defined. *)
Definition hit_val (h : MatchStats.heap) (a : addr) : MatchStats.Hit :=
  let m := h a in
  (Z.b2z (MatchStats.shared_splicing m),
   (intron_frac m, (same_strand_frac m, (opp_strand_frac m,
   (MatchStats.is_cat m INTRONIC_SAME_STRAND,
   (MatchStats.is_cat m INTRONIC_OPP_STRAND,
   (MatchStats.is_cat m INTERLEAVING_SAME_STRAND,
   (MatchStats.is_cat m INTERLEAVING_OPP_STRAND,
   (MatchStats.is_cat m ENCOMPASSING_SAME_STRAND,
   (MatchStats.is_cat m ENCOMPASSING_OPP_STRAND,
   (MatchStats.is_cat m INTERGENIC,
   (- Z.abs (MatchStats.distance m), a)))))))))))).

(** The reference gene ids of the SAME_STRAND candidates of a list. *)
Definition same_strand_gene_ids (h : MatchStats.heap) (lst : list addr)
    : gset string :=
  list_to_set
    (map (fun a => MatchStats.ref_gene_id (h a))
         (List.filter
            (fun a => cat_eqb (MatchStats.category (h a)) SAME_STRAND) lst)).
End RankKey.

(** ** The best-match selector in closed form *)

Section Winner.
Context `{PF : PyFloat}.

(** The object of the first hit after sorting. *)
Definition winner (h : MatchStats.heap) (lst : list addr) : option addr :=
  MatchStats.hit_obj <$> head (MatchStats.sort_reverse (map (hit_val h) lst)).

(** The read-through test of line 132. *)
Definition read_through (h : MatchStats.heap) (lst : list addr) (w : addr)
    : bool :=
  cat_eqb (MatchStats.category (h w)) SAME_STRAND
  && bool_decide (1 < size (same_strand_gene_ids h lst))%nat.

(** The store after line 133. *)
Definition relabel (h : MatchStats.heap) (lst : list addr) (w : addr)
    : MatchStats.heap :=
  if read_through h lst w
  then <[w := MatchStats.set_category (h w) READ_THROUGH]> h
  else h.
End Winner.

(** At least two distinct reference gene ids appear among the SAME_STRAND
    candidates of the list. *)
Definition two_same_strand_genes (h : MatchStats.heap) (lst : list addr)
    : Prop :=
  ∃ a b, a ∈ lst ∧ b ∈ lst
         ∧ MatchStats.category (h a) = SAME_STRAND
         ∧ MatchStats.category (h b) = SAME_STRAND
         ∧ MatchStats.ref_gene_id (h a) ≠ MatchStats.ref_gene_id (h b).

(** ** The accumulation as a sequence of events *)

(** The three ways in which the loops of lines 184-218 change [matches]. *)
Inductive Event : Type :=
  | AddNode (ref_id : string) (c : Category.t) (n : Node)
  | AddIntron (ref_id : string) (i : Intron)
  | SetSplicing (ref_id : string).

Definition event_id (e : Event) : string :=
  match e with
  | AddNode r _ _ => r
  | AddIntron r _ => r
  | SetSplicing r => r
  end.

Definition apply_event (matches : gmap string Match) (e : Event)
    : gmap string Match :=
  match e with
  | AddNode r c n => add_node r c n matches
  | AddIntron r i => add_intron r i matches
  | SetSplicing r => set_splicing r matches
  end.

(** The effect of an event on the accumulator it addresses. *)
Definition apply_to (m : Match) (e : Event) : Match :=
  match e with
  | AddNode _ c n => mkMatch (<[c := nodes m c ++ [n]]> (nodes m)) (introns m) (splicing m)
  | AddIntron _ i => mkMatch (nodes m) (introns m ++ [i]) (splicing m)
  | SetSplicing _ => mkMatch (nodes m) (introns m) true
  end.

(** The events addressed to [r], applied in order to [m]. *)
Fixpoint replay (r : string) (evs : list Event) (m : Match) : Match :=
  match evs with
  | [] => m
  | e :: evs' =>
      replay r evs' (if bool_decide (event_id e = r) then apply_to m e else m)
  end.

Definition touched (r : string) (evs : list Event) : bool :=
  existsb (fun e => bool_decide (event_id e = r)) evs.

(** The nodes added for [r] under category [c], in order. *)
Definition nodes_of (r : string) (c : Category.t) (evs : list Event) : list Node :=
  flat_map (fun e => match e with
                     | AddNode r' c' n =>
                         if bool_decide (r' = r) && bool_decide (c' = c)
                         then [n] else []
                     | _ => []
                     end) evs.

Definition introns_of (r : string) (evs : list Event) : list Intron :=
  flat_map (fun e => match e with
                     | AddIntron r' i => if bool_decide (r' = r) then [i] else []
                     | _ => []
                     end) evs.

Definition splicing_of (r : string) (evs : list Event) : bool :=
  existsb (fun e => match e with
                    | SetSplicing r' => bool_decide (r' = r)
                    | _ => false
                    end) evs.

Section Events.
Variable cmp_strand : Z → Z → bool.

Definition exact_events (idx : RefIndex) (t : Transcript) (n : Node)
    : list Event :=
  map (fun ref =>
         AddNode (attr_transcript_id ref)
                 (if cmp_strand (strand t) (strand ref)
                  then SAME_STRAND else OPP_STRAND) n)
      (default [] (ref_node_dict idx !! n)).

Definition hit_events (t : Transcript) (n : Node)
    (hit : Interval.t Z (list Transcript)) : list Event :=
  map (fun ref =>
         AddNode (attr_transcript_id ref)
                 (if cmp_strand (strand t) (Interval.strand hit)
                  then INTRONIC_SAME_STRAND else INTRONIC_OPP_STRAND) n)
      (Interval.value hit).

Definition intronic_events (tree : IntervalTree.t Z (list Transcript))
    (t : Transcript) (n : Node) : list Event :=
  flat_map (hit_events t n) (IntervalTree.find tree n.1 n.2).

Definition node_events (idx : RefIndex)
    (tree : IntervalTree.t Z (list Transcript)) (t : Transcript) (n : Node)
    : list Event :=
  exact_events idx t n ++ intronic_events tree t n.

Definition intron_events (idx : RefIndex) (introns : list Intron)
    : list Event :=
  flat_map (fun i =>
              map (fun ref => AddIntron (attr_transcript_id ref) i)
                  (default [] (ref_intron_dict idx !! i)))
           introns.

Definition splicing_events (idx : RefIndex) (splicing_pattern : list Intron)
    : list Event :=
  if (0 <? Datatypes.length splicing_pattern)%nat then
    map (fun ref => SetSplicing (attr_transcript_id ref))
        (default [] (ref_splicing_patterns idx !! splicing_pattern))
  else [].

Definition events (idx : RefIndex)
    (tree : IntervalTree.t Z (list Transcript)) (t : Transcript)
    (nodes_t : list Node) : list Event :=
  flat_map (node_events idx tree t) nodes_t
  ++ intron_events idx (transcript_introns t)
  ++ splicing_events idx (transcript_introns t).
End Events.

(** ** The reference indexes in closed form *)

(** The references of [ts] that own the key [k], once per occurrence of [k]
    among their keys, in the order of the locus. *)
Definition owners_of `{EqDecision K} (keys : Transcript → list K) (k : K)
    (ts : list Transcript) : list Transcript :=
  flat_map (fun t =>
              flat_map (fun k' => if bool_decide (k' = k) then [t] else [])
                       (keys t))
           (List.filter is_ref ts).

(** The splicing pattern under which a reference is indexed, if any. *)
Definition pattern_keys (t : Transcript) : list (list Intron) :=
  if (0 <? Datatypes.length (transcript_introns t))%nat
  then [transcript_introns t] else [].

(** ** Relations between a test transcript and a reference *)

(** The interval of a reference intron as it is inserted in the tree. *)
Definition intron_interval (kv : Intron * list Transcript)
    : Interval.t Z (list Transcript) :=
  let '(strand, start, end_) := kv.1 in Interval.mk start end_ strand kv.2.

(** The two transcripts have a node with the same bounds. *)
Definition shares_node (boundaries : list Z) (t ref : Transcript) : Prop :=
  ∃ n, n ∈ split_exons t boundaries ∧ n ∈ split_exons ref boundaries.

(** The two transcripts have an intron with the same strand and bounds. *)
Definition shares_intron (t ref : Transcript) : Prop :=
  ∃ i, i ∈ transcript_introns t ∧ i ∈ transcript_introns ref.

(** A node of [t] overlaps an intron of [ref]. *)
Definition node_in_intron (boundaries : list Z) (t ref : Transcript) : Prop :=
  ∃ n i, n ∈ split_exons t boundaries ∧ i ∈ iterintrons ref
         ∧ i.1 < n.2 ∧ n.1 < i.2.

(** ** Statements that the code is tested against *)

(** A reference is a candidate of a test transcript exactly when the two
    share a node or an intron. *)
Definition candidates_are_exact_sharers : Prop :=
  ∀ (cmp_strand : Z → Z → bool) (ts : list Transcript) (st st1 : State)
    (t : Transcript) (stats : list addr),
    t ∈ ts → is_ref t = false →
    let boundaries := find_exon_boundaries ts in
    let idx := build_index boundaries ts in
    let tree := build_intron_tree (ref_intron_dict idx) in
    classify_transcript cmp_strand boundaries idx tree st t = Ok (st1, stats) →
    ∀ r, (∃ a, a ∈ stats ∧ MatchStats.ref_transcript_id (st1.1 a) = r)
         ↔ (∃ ref, ref ∈ ts ∧ is_ref ref = true ∧ attr_transcript_id ref = r
                   ∧ (shares_node boundaries t ref ∨ shares_intron t ref)).

(** The rows of the detail report carry the category that the classifier
    assigned, whatever the best-match selector does. *)
Definition detail_rows_keep_category : Prop :=
  ∀ (cmp_strand : Z → Z → bool) (PF : PyFloat) (ts : list Transcript)
    (st st1 : State) (t : Transcript) (stats : list addr)
    (h : MatchStats.heap) (best : option addr)
    (rows_best rows : list MatchStats.t),
    let boundaries := find_exon_boundaries ts in
    let idx := build_index boundaries ts in
    let tree := build_intron_tree (ref_intron_dict idx) in
    classify_transcript cmp_strand boundaries idx tree st t = Ok (st1, stats) →
    MatchStats.choose_best st1.1 stats = Ok (h, best) →
    overlapping_rows (h, t, best, stats) = Ok (rows_best, rows) →
    map MatchStats.category rows
    = map (fun a => MatchStats.category (st1.1 a)) stats.

(** Every INTERGENIC candidate carries the distance to a locus of the
    tree that holds it. *)
Definition intergenic_distance_is_locus_distance : Prop :=
  ∀ (cmp_strand : Z → Z → bool) (chrom : string) (start end_ strand : Z)
    (locus_trees : gmap string LocusTree) (f : LocusFeature.t) (d : Z),
    (f, INTERGENIC, d)
      ∈ find_nearest_transcripts cmp_strand chrom start end_ strand locus_trees →
    ∃ hit, hit ∈ default IntervalTree.empty (locus_trees !! chrom)
           ∧ f ∈ Interval.value hit
           ∧ d = Z.min (Z.abs (start - Interval.end_ hit))
                       (Z.abs (Interval.start hit - end_)).

(** The entry appended for a transcript of an overlapping locus. *)
Definition encompassing (cmp_strand : Z → Z → bool) (strand : Z)
    (f : LocusFeature.t) : LocusFeature.t * Category.t * Z :=
  (f, if cmp_strand (LocusFeature.strand f) strand
      then ENCOMPASSING_SAME_STRAND else ENCOMPASSING_OPP_STRAND, 0).

(** The entry appended for a transcript of the nearest locus of one side. *)
Definition intergenic (start end_ : Z) (f : LocusFeature.t)
    : LocusFeature.t * Category.t * Z :=
  (f, INTERGENIC, Z.min (Z.abs (start - LocusFeature.end_ f))
                        (Z.abs (LocusFeature.start f - end_))).

(** ** Well-formed transcripts and counting *)

(** The exons from [e1] on have positive length, are in ascending order and
    do not overlap. *)
Fixpoint exons_sorted_from (e1 : Exon) (rest : list Exon) : bool :=
  (e1.1 <? e1.2)
  && match rest with
     | [] => true
     | e2 :: rest' => (e1.2 <=? e2.1) && exons_sorted_from e2 rest'
     end.

(** The invariant of the data model: at least one exon, and the exons
    sorted, non-overlapping and strictly increasing. *)
Definition well_formed (t : Transcript) : bool :=
  match exons t with
  | [] => false
  | e1 :: rest => exons_sorted_from e1 rest
  end.

(** The number of transcripts of a list that have the id [r]. *)
Definition count_id (r : string) (refs : list Transcript) : nat :=
  Datatypes.length
    (List.filter (fun ref => bool_decide (attr_transcript_id ref = r)) refs).

(** The number of occurrences of [k] in a list. *)
Definition occ `{EqDecision K} (k : K) (l : list K) : nat :=
  Datatypes.length (List.filter (fun k' => bool_decide (k' = k)) l).

(** The number of nodes added for [r] under the two intronic categories. *)
Definition intronic_count (r : string) (evs : list Event) : nat :=
  (Datatypes.length (nodes_of r INTRONIC_SAME_STRAND evs)
   + Datatypes.length (nodes_of r INTRONIC_OPP_STRAND evs))%nat.

(** The reference ids of a locus are pairwise distinct. *)
Definition unique_ref_ids (ts : list Transcript) : Prop :=
  NoDup (map attr_transcript_id (List.filter is_ref ts)).

(** ** The category of a pair, as specified *)

(** Every node of the test transcript fell in an intronic bucket of the
    accumulator. *)
Definition all_nodes_intronic (m : Match) (nodes_t : list Node) : bool :=
  forallb (fun n => bool_decide (n ∈ nodes m INTRONIC_SAME_STRAND
                                       ++ nodes m INTRONIC_OPP_STRAND))
          nodes_t.

(** Some intronic-bucketed node was same-strand. *)
Definition any_intronic_same_strand (m : Match) : bool :=
  match nodes m INTRONIC_SAME_STRAND with
  | [] => false
  | _ :: _ => true
  end.

(** The fixed precedence: first matching rule wins. *)
Definition pairwise_category (shared_splicing : bool)
    (shared_introns shared_same_strand_bp shared_opp_strand_bp : Z)
    (all_intronic any_same_strand : bool) : Category.t :=
  if shared_splicing || (0 <? shared_introns) || (0 <? shared_same_strand_bp)
  then SAME_STRAND
  else if 0 <? shared_opp_strand_bp then OPP_STRAND
  else if all_intronic then
    if any_same_strand then INTRONIC_SAME_STRAND else INTRONIC_OPP_STRAND
  else
    if any_same_strand then INTERLEAVING_SAME_STRAND
    else INTERLEAVING_OPP_STRAND.

(** The attributes that [from_transcript] reads on a reference are
    present. *)
Definition ref_attrs_present (ref : Transcript) : bool :=
  bool_decide (is_Some (attr_gene_name ref))
  && bool_decide (is_Some (attr_source ref))
  && bool_decide (is_Some (attr_gene_type ref)).

(** ** Comparisons that order totally *)

(** The laws of a three-way comparison that is a total preorder. *)
Record CmpLaws {A : Type} (cmp : A → A → comparison) : Prop := {
  cl_antisym : ∀ x y, cmp y x = CompOpp (cmp x y);
  cl_trans : ∀ x y z, cmp x y = Lt → cmp y z = Lt → cmp x z = Lt;
  cl_eq_compat : ∀ x y z, cmp x y = Eq → cmp x z = cmp y z
}.

(** ** Statements about every locus *)

(** The row of every emitted pair carries the category of the fixed
    precedence, where a node counts as intronic when it is in an intronic
    bucket of the pair's accumulator, or the READ_THROUGH of the best
    match. *)
Definition category_by_precedence_everywhere : Prop :=
  ∀ (cmp_strand : Z → Z → bool) (PF : PyFloat) (ts : list Transcript)
    (st : State) (y : Yield) (a : addr),
    y ∈ (compare_locus cmp_strand st ts).1 → a ∈ yield_stats y →
    let boundaries := find_exon_boundaries ts in
    let idx := build_index boundaries ts in
    let tree := build_intron_tree (ref_intron_dict idx) in
    let t := yield_transcript y in
    let row := yield_heap y a in
    ∃ m,
      accumulate cmp_strand idx tree t (split_exons t boundaries)
        !! MatchStats.ref_transcript_id row = Some m
      ∧ (MatchStats.category row
         = pairwise_category (MatchStats.shared_splicing row)
             (MatchStats.shared_introns row)
             (MatchStats.shared_same_strand_bp row)
             (MatchStats.shared_opp_strand_bp row)
             (all_nodes_intronic m (split_exons t boundaries))
             (any_intronic_same_strand m)
         ∨ MatchStats.category row = READ_THROUGH).

(** For every pair that the classifier creates, the divisor
    [total_introns - shared_introns] is not zero unless [total_introns]
    is. *)
Definition intron_divisor_nonzero_everywhere : Prop :=
  ∀ (cmp_strand : Z → Z → bool) (ts : list Transcript) (st st1 : State)
    (t : Transcript) (stats : list addr) (a : addr),
    t ∈ ts → is_ref t = false →
    let boundaries := find_exon_boundaries ts in
    let idx := build_index boundaries ts in
    let tree := build_intron_tree (ref_intron_dict idx) in
    classify_transcript cmp_strand boundaries idx tree st t = Ok (st1, stats) →
    a ∈ stats →
    MatchStats.num_introns (st1.1 a) + MatchStats.ref_num_introns (st1.1 a) ≠ 0 →
    MatchStats.num_introns (st1.1 a) + MatchStats.ref_num_introns (st1.1 a)
    - MatchStats.shared_introns (st1.1 a) ≠ 0.
(** ** Exact rationals as an instance of the float interface *)

Module QFloat.
Import QArith.

Definition div (a b : Z) : Q := Qdiv (inject_Z a) (inject_Z b).

#[export] Instance Q_PyFloat : PyFloat := {|
  float := Q;
  float_zero := 0%Q;
  float_div := div;
  float_cmp := Qcompare;
  float_cmp_antisym := fun x y => eq_sym (Qcompare_antisym x y);
  float_cmp_trans := fun x y z Hxy Hyz =>
    proj1 (Qlt_alt x z)
          (Qlt_trans x y z (proj2 (Qlt_alt x y) Hxy) (proj2 (Qlt_alt y z) Hyz));
  float_cmp_eq_compat := fun x y z Hxy =>
    Qcompare_comp x y (proj2 (Qeq_alt x y) Hxy) z z (Qeq_refl z)
|}.
End QFloat.

(** ** Objects with unassigned attributes *)

(** The values that the attributes of a [MatchStats] take.  A locus string
    and a category are kept as in the record; [PyNone] is the value that
    [__init__] gives to every attribute. *)
Inductive PyVal : Type :=
  | PyNone
  | PyStr (s : string)
  | PyInt (n : Z)
  | PyBool (b : bool)
  | PyLocus (l : Locus)
  | PyCategory (c : Category.t).

(** A [MatchStats] as the dictionary of its attributes.  Reading an
    attribute that is not there fails (with an AttributeError); such a
    failure is [None] below. *)
Module MatchStatsObject.

Abbreviation t := (gmap string PyVal).

Definition header_fields : list string :=
  ["transcript_id"; "gene_id"; "locus"; "length"; "num_introns";
   "ref_transcript_id"; "ref_gene_id"; "ref_orig_gene_id"; "ref_gene_name";
   "ref_source"; "ref_gene_type"; "ref_locus";
   "ref_length"; "ref_num_introns";
   "shared_same_strand_bp"; "shared_opp_strand_bp";
   "shared_introns"; "shared_splicing";
   "distance"; "category"].

(** [__init__] *)
Definition init : t :=
  foldl (fun self field => <[field := PyNone]> self) ∅ header_fields.

(** [__str__], before the values are rendered and joined by tabs. *)
Definition str (self : t) : option (list PyVal) :=
  mapM (fun field => self !! field) header_fields.

(** The attributes that [add_gtf_attributes] copies. *)
Definition gtf_attrs : list string :=
  ["ref_transcript_id"; "ref_gene_id"; "ref_orig_gene_id";
   "ref_gene_name"; "ref_source"; "ref_gene_type";
   "ref_locus"; "ref_length"; "ref_num_introns";
   "shared_same_strand_bp"; "shared_opp_strand_bp";
   "shared_introns"; "shared_splicing";
   "distance"; "category"].

(** [add_gtf_attributes(feature)], on the attribute dictionary of the
    feature. *)
Definition add_gtf_attributes (self : t) (feature_attrs : gmap string PyVal)
    : option (gmap string PyVal) :=
  foldl (fun acc attr =>
           attrs ← acc;
           v ← self !! attr;
           Some (<[attr := v]> attrs))
        (Some feature_attrs) gtf_attrs.

(** [from_transcript(t)] with no reference. *)
Definition from_transcript (tr : Transcript) : t :=
  <["num_introns" := PyInt (Z.of_nat (Datatypes.length (exons tr)) - 1)]>
    (<["length" := PyInt (Transcript_length tr)]>
       (<["locus" := PyLocus (chrom tr, start tr, end_ tr, strand tr)]>
          (<["gene_id" := PyStr (attr_gene_id tr)]>
             (<["transcript_id" := PyStr (attr_transcript_id tr)]> init)))).

(** The dictionary of an object all of whose attributes are assigned. *)
Definition of_record (m : MatchStats.t) : t :=
  list_to_map
    [("transcript_id", PyStr (MatchStats.transcript_id m));
     ("gene_id", PyStr (MatchStats.gene_id m));
     ("locus", PyLocus (MatchStats.locus m));
     ("length", PyInt (MatchStats.length m));
     ("num_introns", PyInt (MatchStats.num_introns m));
     ("ref_transcript_id", PyStr (MatchStats.ref_transcript_id m));
     ("ref_gene_id", PyStr (MatchStats.ref_gene_id m));
     ("ref_orig_gene_id", PyStr (MatchStats.ref_orig_gene_id m));
     ("ref_gene_name", PyStr (MatchStats.ref_gene_name m));
     ("ref_source", PyStr (MatchStats.ref_source m));
     ("ref_gene_type", PyStr (MatchStats.ref_gene_type m));
     ("ref_locus", PyLocus (MatchStats.ref_locus m));
     ("ref_length", PyInt (MatchStats.ref_length m));
     ("ref_num_introns", PyInt (MatchStats.ref_num_introns m));
     ("shared_same_strand_bp", PyInt (MatchStats.shared_same_strand_bp m));
     ("shared_opp_strand_bp", PyInt (MatchStats.shared_opp_strand_bp m));
     ("shared_introns", PyInt (MatchStats.shared_introns m));
     ("shared_splicing", PyBool (MatchStats.shared_splicing m));
     ("distance", PyInt (MatchStats.distance m));
     ("category", PyCategory (MatchStats.category m))].

End MatchStatsObject.

(** ** The second pass *)

(** Lines 496-511: the [MatchStats] of one nearest transcript. *)
Definition nearest_match_stats (t : Transcript)
    (x : LocusFeature.t * Category.t * Z) : MatchStats.t :=
  let '(feature, category, dist) := x in
  MatchStats.mk (attr_transcript_id t) (attr_gene_id t)
    (chrom t, start t, end_ t, strand t) (Transcript_length t)
    (Z.of_nat (Datatypes.length (exons t)) - 1)
    (LocusFeature.transcript_id feature) (LocusFeature.gene_id feature)
    (LocusFeature.orig_gene_id feature) (LocusFeature.gene_name feature)
    (LocusFeature.source feature) (LocusFeature.gene_type feature)
    (LocusFeature.chrom feature, LocusFeature.start feature,
     LocusFeature.end_ feature, LocusFeature.strand feature)
    (LocusFeature.length feature) (LocusFeature.num_introns feature)
    0 0 0 false dist (Category.to_str category).

(** The loop of lines 494-512: one new object for every nearest
    transcript. *)
Fixpoint nearest_stats_loop (t : Transcript)
    (nearest_transcripts : list (LocusFeature.t * Category.t * Z))
    (st : State) (match_stats : list addr) : State * list addr :=
  match nearest_transcripts with
  | [] => (st, match_stats)
  | x :: rest =>
      let '(h, next) := st in
      nearest_stats_loop t rest (<[next := nearest_match_stats t x]> h, S next)
        (match_stats ++ [next])
  end.

(** What lines 486-514 leave for one transcript: the object of line 490,
    which has no reference, or the objects of the nearest transcripts and
    the best of them. *)
Inductive Resolution : Type :=
  | NoNeighbour (best_match : MatchStatsObject.t)
  | Neighbours (y : Yield).

Section SecondPass.
Variable cmp_strand : Z → Z → bool.
Context `{PF : PyFloat}.

(** Lines 486-514 for one transcript. *)
Definition resolve_intergenic (locus_trees : gmap string LocusTree)
    (st : State) (t : Transcript) : result (State * Resolution) :=
  let nearest_transcripts :=
    find_nearest_transcripts cmp_strand (chrom t) (start t) (end_ t)
      (strand t) locus_trees in
  if (Datatypes.length nearest_transcripts =? 0)%nat then
    Ok (st, NoNeighbour
              (<["category" := PyCategory (Category.to_str INTERGENIC)]>
                 (MatchStatsObject.from_transcript t)))
  else
    let '(st1, match_stats) :=
      nearest_stats_loop t nearest_transcripts st [] in
    '(h2, best_match) ← MatchStats.choose_best st1.1 match_stats;
    Ok ((h2, st1.2), Neighbours (h2, t, best_match, match_stats)).
End SecondPass.

(** Lines 520-522: the row of the best-match report and the rows of the
    detail report, before rendering. *)
Definition intergenic_rows (r : Resolution)
    : option (list PyVal * list (list PyVal)) :=
  match r with
  | NoNeighbour best_match =>
      row ← MatchStatsObject.str best_match;
      Some (row, [row])
  | Neighbours y =>
      b ← yield_best y;
      row ← MatchStatsObject.str (MatchStatsObject.of_record (yield_heap y b));
      rows ← mapM (fun a => MatchStatsObject.str
                              (MatchStatsObject.of_record (yield_heap y a)))
                  (yield_stats y);
      Some (row, rows)
  end.

(** A quotient with numerator zero compares equal to [0.0]. *)
Definition zero_quotients_equal (PF : PyFloat) : Prop :=
  ∀ b : Z, b ≠ 0 → float_cmp (float_div 0 b) float_zero = Eq.

(** A row as the second pass creates it: nothing shared, and the three
    divisors are not zero. *)
Definition shares_nothing (m : MatchStats.t) : Prop :=
  MatchStats.shared_splicing m = false
  ∧ MatchStats.shared_introns m = 0
  ∧ MatchStats.shared_same_strand_bp m = 0
  ∧ MatchStats.shared_opp_strand_bp m = 0
  ∧ key_defined m = true.

(** ** Example loci *)

Module Examples.

(** A transcript on chromosome 1; a reference carries the attributes read
    by [from_transcript]. *)
Definition transcript (id gene : string) (strand : Z) (exons : list Exon)
    (is_ref : bool) : Transcript :=
  mkTranscript "chr1" (hd 0 (map fst exons)) (List.last (map snd exons) 0)
    strand exons is_ref id gene None
    (if is_ref then Some gene else None)
    (if is_ref then Some "annotation" else None)
    (if is_ref then Some "protein_coding" else None).

Definition blank : MatchStats.t :=
  MatchStats.mk "" "" ("", 0, 0, 0) 0 0 "" "" "" "" "" "" ("", 0, 0, 0)
    0 0 0 0 0 false 0 INTERGENIC.

(** A store in which nothing has been allocated yet. *)
Definition st0 : State := (fun _ => blank, 0%nat).

(** A spliced test transcript with the exons and the intron of a
    reference. *)
Definition R_spliced := transcript "R1" "G1" 0 [(100, 200); (300, 400)] true.
Definition T_spliced := transcript "T1" "XLOC1" 0 [(100, 200); (300, 400)] false.
Definition locus_spliced := [R_spliced; T_spliced].

(** A single-exon test transcript with the coordinates and strand of a
    single-exon reference. *)
Definition R_single := transcript "R1" "G1" 0 [(100, 200)] true.
Definition T_single := transcript "T1" "XLOC1" 0 [(100, 200)] false.
Definition locus_single := [R_single; T_single].

(** A test transcript inside an intron of a reference, on the other
    strand. *)
Definition R_intron := transcript "R1" "G1" 0 [(100, 200); (500, 600)] true.
Definition T_intronic := transcript "T1" "XLOC1" 1 [(300, 400)] false.
Definition locus_intronic := [R_intron; T_intronic].

(** A test transcript over the exons of two reference genes of its
    strand. *)
Definition R_gene1 := transcript "R1" "G1" 0 [(100, 200)] true.
Definition R_gene2 := transcript "R2" "G2" 0 [(300, 400)] true.
Definition T_through := transcript "T1" "XLOC1" 0 [(150, 350)] false.
Definition locus_through := [R_gene1; R_gene2; T_through].

(** Two references under one transcript id that have the same intron,
    with a test transcript of the other strand that has one exon in this
    intron and one exon beyond both references. *)
Definition R_twin_a := transcript "R1" "G1" 0 [(100, 200); (500, 600)] true.
Definition R_twin_b := transcript "R1" "G1" 0 [(150, 200); (500, 650)] true.
Definition T_interleaving :=
  transcript "T1" "XLOC1" 1 [(300, 400); (700, 800)] false.
Definition locus_twin_intronic := [R_twin_a; R_twin_b; T_interleaving].

(** The same two references with a test transcript that has their
    intron. *)
Definition T_twin := transcript "T1" "XLOC1" 0 [(100, 200); (500, 600)] false.
Definition locus_twin_spliced := [R_twin_a; R_twin_b; T_twin].

(** The boundaries, the reference index and the intron tree of a locus. *)
Definition boundaries (ts : list Transcript) : list Z :=
  find_exon_boundaries ts.
Definition index (ts : list Transcript) : RefIndex :=
  build_index (boundaries ts) ts.
Definition tree (ts : list Transcript) : IntervalTree.t Z (list Transcript) :=
  build_intron_tree (ref_intron_dict (index ts)).

(** The first item yielded for a locus, with exact rationals for floats
    and strands compared by equality. *)
Definition first_yield (ts : list Transcript) : Yield :=
  hd ((fun _ => blank), T_single, None, [])
     (compare_locus Z.eqb (PF := QFloat.Q_PyFloat) st0 ts).1.

(** The store and the matches of a transcript after its classification. *)
Definition classified (ts : list Transcript) (t : Transcript)
    : State * list addr :=
  match classify_transcript Z.eqb (boundaries ts) (index ts) (tree ts) st0 t with
  | Ok x => x
  | Raise _ => (st0, [])
  end.

(** The two SAME_STRAND candidates of the read-through transcript. *)
Definition heap_through : MatchStats.heap :=
  (classified locus_through T_through).1.1.


(** The accumulator of a reference for a transcript of a locus. *)
Definition match_of (ts : list Transcript) (t : Transcript) (r : string)
    : Match :=
  default Match_new
    (accumulate Z.eqb (index ts) (tree ts) t (split_exons t (boundaries ts))
     !! r).

(** A reference locus of two overlapping transcripts, inserted the way
    [build_locus_trees] does it. *)
Definition feature (id gene : string) (start end_ : Z) : LocusFeature.t :=
  LocusFeature.mk "chr1" start end_ 0 id gene gene gene "annotation"
    "protein_coding" (end_ - start) 0.
Definition F1 := feature "R1" "G1" 100 200.
Definition F2 := feature "R2" "G1" 150 500.
Definition locus_tree : LocusTree :=
  match insert_region [F1; F2] IntervalTree.empty (100, 500, [0%nat; 1%nat]) with
  | Ok tree => tree
  | Raise _ => IntervalTree.empty
  end.
Definition locus_trees : gmap string LocusTree := {[ "chr1" := locus_tree ]}.

(** A locus of test transcripts only. *)
Definition locus_unannotated := [T_single; T_intronic].

(** Two test transcripts over the references of [locus_through]. *)
Definition T_second := transcript "T2" "XLOC2" 0 [(120, 180)] false.
Definition locus_pair := [R_gene1; R_gene2; T_through; T_second].

(** The item yielded at a position of the iteration. *)
Definition yield_at (ts : list Transcript) (i : nat) : Yield :=
  nth i (compare_locus Z.eqb (PF := QFloat.Q_PyFloat) st0 ts).1
    ((fun _ => blank), T_single, None, []).

(** A test transcript beyond the reference locus, and what the second pass
    leaves for it. *)
Definition T_far := transcript "T9" "XLOC9" 0 [(1000, 1100)] false.
Definition resolved_far : State * Resolution :=
  match resolve_intergenic Z.eqb (PF := QFloat.Q_PyFloat) locus_trees st0
          T_far with
  | Ok x => x
  | Raise _ => (st0, NoNeighbour ∅)
  end.
Definition neighbours_far : Yield :=
  match resolved_far.2 with
  | Neighbours y => y
  | NoNeighbour _ => ((fun _ => blank), T_far, None, [])
  end.

(** What the reports show of a row. *)
Definition row_summary (m : MatchStats.t)
    : string * Category.t * Z * bool * Z * Z :=
  (MatchStats.ref_transcript_id m, MatchStats.category m,
   MatchStats.shared_introns m, MatchStats.shared_splicing m,
   MatchStats.shared_same_strand_bp m, MatchStats.shared_opp_strand_bp m).

(** The best-match row and the detail rows written for the first item
    yielded for a locus. *)
Definition report (ts : list Transcript)
    : list (string * Category.t * Z * bool * Z * Z)
      * list (string * Category.t * Z * bool * Z * Z) :=
  match overlapping_rows (first_yield ts) with
  | Ok (best, detail) => (map row_summary best, map row_summary detail)
  | Raise _ => ([], [])
  end.

End Examples.

(** * Properties *)

(** ** Comparisons that order totally *)

Section CmpLawsFacts.
Context {A : Type} {cmp : A → A → comparison} (L : CmpLaws cmp).

Lemma cl_refl x : cmp x x = Eq.
Proof.
  pose proof (cl_antisym _ L x x) as E. destruct (cmp x x); simpl in E; congruence.
Qed.

Lemma cl_eq_compat_r x y z : cmp y z = Eq → cmp x y = cmp x z.
Proof.
  intros E. rewrite (cl_antisym _ L y x), (cl_antisym _ L z x).
  f_equal. apply (cl_eq_compat _ L). exact E.
Qed.

(** [x ≤ y] and [y ≤ z] give [x ≤ z]. *)
Lemma cl_le_trans x y z : cmp x y ≠ Gt → cmp y z ≠ Gt → cmp x z ≠ Gt.
Proof.
  intros Hxy Hyz.
  destruct (cmp x y) eqn:Exy; [| |congruence].
  - rewrite (cl_eq_compat _ L _ _ z Exy). exact Hyz.
  - destruct (cmp y z) eqn:Eyz; [| |congruence].
    + rewrite <- (cl_eq_compat_r x _ _ Eyz), Exy. discriminate.
    + rewrite (cl_trans _ L _ _ _ Exy Eyz). discriminate.
Qed.

Lemma cl_not_lt_le x y : cmp x y ≠ Lt → cmp y x ≠ Gt.
Proof.
  rewrite (cl_antisym _ L x y). destruct (cmp x y); simpl; congruence.
Qed.

Lemma cl_lt_le x y : cmp x y = Lt → cmp x y ≠ Gt.
Proof. congruence. Qed.

(** Two elements each below the other compare equal. *)
Lemma cl_le_antisym x y : cmp x y ≠ Gt → cmp y x ≠ Gt → cmp x y = Eq.
Proof.
  rewrite (cl_antisym _ L x y). destruct (cmp x y); simpl; congruence.
Qed.
End CmpLawsFacts.

Lemma Z_compare_laws : CmpLaws Z.compare.
Proof.
  split.
  - intros x y. apply Z.compare_antisym.
  - intros x y z. rewrite !Z.compare_lt_iff. lia.
  - intros x y z E. apply Z.compare_eq in E. now subst.
Qed.

Lemma nat_compare_laws : CmpLaws Nat.compare.
Proof.
  split.
  - intros x y. apply Nat.compare_antisym.
  - intros x y z. rewrite !Nat.compare_lt_iff. lia.
  - intros x y z E. apply Nat.compare_eq in E. now subst.
Qed.

Lemma float_cmp_laws `{PyFloat} : CmpLaws float_cmp.
Proof.
  split; [apply float_cmp_antisym | apply float_cmp_trans | apply float_cmp_eq_compat].
Qed.

Lemma lexc_assoc (a b c : comparison) : lexc (lexc a b) c = lexc a (lexc b c).
Proof. now destruct a. Qed.

Lemma lexc_Eq (a b : comparison) : lexc a b = Eq ↔ a = Eq ∧ b = Eq.
Proof. destruct a; simpl; intuition congruence. Qed.

Lemma lex_cmp_laws {A B : Type} (ca : A → A → comparison)
    (cb : B → B → comparison) :
  CmpLaws ca → CmpLaws cb → CmpLaws (lex_cmp ca cb).
Proof.
  intros La Lb. split; unfold lex_cmp.
  - intros [x1 x2] [y1 y2]; simpl.
    rewrite (cl_antisym _ La x1 y1), (cl_antisym _ Lb x2 y2).
    now destruct (ca x1 y1).
  - intros [x1 x2] [y1 y2] [z1 z2]; simpl.
    destruct (ca x1 y1) eqn:Exy; simpl; [| |discriminate].
    + rewrite (cl_eq_compat _ La _ _ z1 Exy).
      destruct (ca y1 z1); simpl; try congruence.
      apply (cl_trans _ Lb).
    + intros _. destruct (ca y1 z1) eqn:Eyz; simpl; [| |discriminate].
      * intros _. now rewrite <- (cl_eq_compat_r La x1 _ _ Eyz), Exy.
      * intros _. now rewrite (cl_trans _ La _ _ _ Exy Eyz).
  - intros [x1 x2] [y1 y2] [z1 z2]; simpl.
    intros [E1 E2]%lexc_Eq.
    now rewrite (cl_eq_compat _ La _ _ z1 E1), (cl_eq_compat _ Lb _ _ z2 E2).
Qed.

(** ** Scenarios *)

(** A test transcript with the exons and the intron of a reference on its
    strand: SAME_STRAND, one shared intron, shared splicing. *)
Example scenario_spliced :
  Examples.report Examples.locus_spliced
  = ([("R1", SAME_STRAND, 1, true, 200, 0)],
     [("R1", SAME_STRAND, 1, true, 200, 0)]).
Proof. vm_compute. reflexivity. Qed.

(** A single-exon test transcript on the single exon of a reference:
    SAME_STRAND by the shared bp, without shared splicing. *)
Example scenario_single_exon :
  Examples.report Examples.locus_single
  = ([("R1", SAME_STRAND, 0, false, 100, 0)],
     [("R1", SAME_STRAND, 0, false, 100, 0)]).
Proof. vm_compute. reflexivity. Qed.

(** A test transcript within an intron of a reference of the other strand:
    INTRONIC_OPP_STRAND. *)
Example scenario_intronic :
  Examples.report Examples.locus_intronic
  = ([("R1", INTRONIC_OPP_STRAND, 0, false, 0, 0)],
     [("R1", INTRONIC_OPP_STRAND, 0, false, 0, 0)]).
Proof. vm_compute. reflexivity. Qed.

(** A test transcript over the exons of two reference genes of its strand:
    the best match is READ_THROUGH, and so is its row in the detail
    report. *)
Example scenario_read_through :
  Examples.report Examples.locus_through
  = ([("R2", READ_THROUGH, 0, false, 50, 0)],
     [("R1", SAME_STRAND, 0, false, 50, 0);
      ("R2", READ_THROUGH, 0, false, 50, 0)]).
Proof. vm_compute. reflexivity. Qed.

(** A query 50,000 bp to the right of a reference locus, on a chromosome
    with no other locus: one INTERGENIC entry for each transcript of the
    locus, each at the distance to its own end. *)
Example scenario_intergenic :
  find_nearest_transcripts Z.eqb "chr1" 50500 50600 0 Examples.locus_trees
  = [(Examples.F1, INTERGENIC, 50300); (Examples.F2, INTERGENIC, 50000)].
Proof. vm_compute. reflexivity. Qed.

(** ** The best-match selector *)

Section ChooseBestFacts.
Context `{PF : PyFloat}.

Lemma hit_compare_laws : CmpLaws MatchStats.hit_compare.
Proof.
  unfold MatchStats.hit_compare.
  repeat (apply lex_cmp_laws;
          [first [apply Z_compare_laws | apply float_cmp_laws]|]).
  apply nat_compare_laws.
Qed.

(** Hits that compare equal hold the same object. *)
Lemma hit_compare_eq_obj (x y : MatchStats.Hit) :
  MatchStats.hit_compare x y = Eq → MatchStats.hit_obj x = MatchStats.hit_obj y.
Proof.
  unfold MatchStats.hit_compare, MatchStats.hit_obj, lex_cmp.
  rewrite !lexc_Eq. intros E.
  destruct E as (_&_&_&_&_&_&_&_&_&_&_&_&E).
  now apply Nat.compare_eq.
Qed.

(** The flag that the code computes for a category is the one of the
    specification. *)
Lemma is_cat_category_flag (m : MatchStats.t) (c : Category.t) :
  MatchStats.is_cat m c = category_flag m c.
Proof.
  unfold MatchStats.is_cat, cat_eqb, category_flag.
  destruct (decide (MatchStats.category m = c)) as [E|E].
  - now rewrite bool_decide_true.
  - now rewrite bool_decide_false.
Qed.

Lemma first_decided_cons (c : comparison) (cs : list comparison) :
  first_decided (c :: cs) = lexc c (first_decided cs).
Proof. now destruct c. Qed.

Lemma lexc_Eq_r (c : comparison) : lexc c Eq = c.
Proof. now destruct c. Qed.

(** A tuple is compared by its key first and by its object last. *)
Lemma hit_compare_key (h : MatchStats.heap) (a b : addr) :
  MatchStats.hit_compare (hit_val h a) (hit_val h b)
  = lexc (key_compare (rank_key (h a)) (rank_key (h b))) (Nat.compare a b).
Proof.
  unfold MatchStats.hit_compare, key_compare, hit_val, rank_key, lex_cmp.
  cbn [fst snd]. rewrite !is_cat_category_flag, !first_decided_cons.
  cbn [first_decided]. rewrite lexc_Eq_r. now rewrite !lexc_assoc.
Qed.

Lemma hit_obj_val (h : MatchStats.heap) (a : addr) :
  MatchStats.hit_obj (hit_val h a) = a.
Proof. reflexivity. Qed.

Lemma hit_of_spec (h : MatchStats.heap) (a : addr) :
  MatchStats.hit_of h a
  = if key_defined (h a) then Ok (hit_val h a) else Raise ZeroDivisionError.
Proof.
  unfold MatchStats.hit_of, key_defined, hit_val, intron_frac,
    same_strand_frac, opp_strand_frac, py_div.
  destruct (_ + _ =? 0); simpl;
    repeat (match goal with |- context [?x =? 0] => destruct (x =? 0) end; simpl);
    reflexivity.
Qed.

Lemma same_strand_gene_ids_cons (h : MatchStats.heap) a lst :
  same_strand_gene_ids h (a :: lst)
  = if cat_eqb (MatchStats.category (h a)) SAME_STRAND
    then {[ MatchStats.ref_gene_id (h a) ]} ∪ same_strand_gene_ids h lst
    else same_strand_gene_ids h lst.
Proof.
  unfold same_strand_gene_ids. simpl.
  now destruct (cat_eqb _ _).
Qed.

Lemma choose_best_loop_spec (h : MatchStats.heap) (lst : list addr)
    (hits : list MatchStats.Hit) (ids : gset string) :
  MatchStats.choose_best_loop h lst hits ids
  = if forallb (fun a => key_defined (h a)) lst
    then Ok (hits ++ map (hit_val h) lst, same_strand_gene_ids h lst ∪ ids)
    else Raise ZeroDivisionError.
Proof.
  revert hits ids. induction lst as [|a lst IH]; intros hits ids.
  - simpl. rewrite app_nil_r. f_equal. f_equal.
    unfold same_strand_gene_ids. simpl. now rewrite union_empty_l_L.
  - simpl. rewrite hit_of_spec.
    destruct (key_defined (h a)); simpl; [|reflexivity].
    rewrite IH. destruct (forallb _ lst); [|reflexivity].
    rewrite <- app_assoc. simpl. f_equal. f_equal.
    rewrite same_strand_gene_ids_cons.
    destruct (cat_eqb _ _); [|done].
    now rewrite (comm_L (∪) {[_]} (same_strand_gene_ids h lst)), (assoc_L (∪)).
Qed.

Lemma insert_desc_not_nil x l : MatchStats.insert_desc x l ≠ [].
Proof. destruct l; simpl; [discriminate|]. now destruct (MatchStats.hit_compare _ _). Qed.

Lemma sort_reverse_nil l : MatchStats.sort_reverse l = [] → l = [].
Proof.
  destruct l as [|x l]; [reflexivity|]. simpl.
  intros E. now apply insert_desc_not_nil in E.
Qed.

Lemma insert_desc_perm x l : Permutation (MatchStats.insert_desc x l) (x :: l).
Proof.
  induction l as [|y l IH]; simpl; [reflexivity|].
  destruct (MatchStats.hit_compare x y); try reflexivity.
  rewrite IH. apply perm_swap.
Qed.

Lemma sort_reverse_perm l : Permutation (MatchStats.sort_reverse l) l.
Proof.
  induction l as [|x l IH]; simpl; [reflexivity|].
  rewrite insert_desc_perm. now rewrite IH.
Qed.

(** The first hit after sorting is one of the hits and no hit is above
    it. *)
Lemma sort_reverse_head l top rest :
  MatchStats.sort_reverse l = top :: rest →
  top ∈ l ∧ ∀ y, y ∈ l → MatchStats.hit_compare y top ≠ Gt.
Proof.
  revert top rest. induction l as [|x l IH]; intros top rest; simpl.
  - discriminate.
  - destruct (MatchStats.sort_reverse l) as [|t0 r0] eqn:Es.
    + apply sort_reverse_nil in Es. subst l. simpl.
      intros [= <- <-]. split; [left|].
      intros y ->%list_elem_of_singleton.
      rewrite (cl_refl hit_compare_laws). discriminate.
    + destruct (IH _ _ eq_refl) as [Hin Hmax]. simpl.
      destruct (MatchStats.hit_compare x t0) eqn:Ec; intros [= <- <-].
      * split; [left|]. intros y [->|Hy]%elem_of_cons.
        -- rewrite (cl_refl hit_compare_laws). discriminate.
        -- apply (cl_le_trans hit_compare_laws _ t0); [now apply Hmax|].
           apply (cl_not_lt_le hit_compare_laws). congruence.
      * split; [now right|]. intros y [->|Hy]%elem_of_cons.
        -- congruence.
        -- now apply Hmax.
      * split; [left|]. intros y [->|Hy]%elem_of_cons.
        -- rewrite (cl_refl hit_compare_laws). discriminate.
        -- apply (cl_le_trans hit_compare_laws _ t0); [now apply Hmax|].
           apply (cl_not_lt_le hit_compare_laws). congruence.
Qed.

(** [choose_best] in closed form. *)
Lemma choose_best_spec (h : MatchStats.heap) (lst : list addr) :
  MatchStats.choose_best h lst
  = match lst with
    | [] => Ok (h, None)
    | _ :: _ =>
        if forallb (fun a => key_defined (h a)) lst then
          match winner h lst with
          | Some w => Ok (relabel h lst w, Some w)
          | None => Raise IndexError
          end
        else Raise ZeroDivisionError
    end.
Proof.
  unfold MatchStats.choose_best.
  destruct lst as [|a lst]; [reflexivity|].
  remember (a :: lst) as l eqn:El.
  replace (Datatypes.length l =? 0)%nat with false by now subst l.
  rewrite choose_best_loop_spec.
  destruct (forallb _ l); [|reflexivity].
  unfold winner, relabel, read_through. simpl app.
  change (mbind ?f (Ok ?x)) with (f x). cbv beta iota.
  rewrite union_empty_r_L.
  destruct (MatchStats.sort_reverse (map (hit_val h) l)); simpl;
    [reflexivity|].
  now destruct (_ && _).
Qed.

(** A non-empty list has a winner, which is one of its candidates and has
    no hit above its own. *)
Lemma winner_max (h : MatchStats.heap) (lst : list addr) :
  lst ≠ [] →
  ∃ w, winner h lst = Some w ∧ w ∈ lst
       ∧ ∀ a, a ∈ lst →
           MatchStats.hit_compare (hit_val h a) (hit_val h w) ≠ Gt.
Proof.
  intros Hne. unfold winner.
  destruct (MatchStats.sort_reverse (map (hit_val h) lst)) as [|top rest] eqn:Es.
  - apply sort_reverse_nil in Es. destruct lst; [congruence|discriminate].
  - destruct (sort_reverse_head _ _ _ Es) as [Hin Hmax].
    apply list_elem_of_In, in_map_iff in Hin as (w & <- & Hw).
    exists w. simpl. split; [reflexivity|].
    split; [now apply list_elem_of_In|].
    intros a Ha. apply Hmax.
    apply list_elem_of_In, in_map. now apply list_elem_of_In.
Qed.
End ChooseBestFacts.

Lemma gset_size_gt1 (X : gset string) :
  (1 < size X)%nat ↔ ∃ x y, x ∈ X ∧ y ∈ X ∧ x ≠ y.
Proof.
  split.
  - intros Hs.
    destruct (set_choose_L X) as [x Hx].
    { intros ->. rewrite size_empty in Hs. lia. }
    destruct (set_choose_L (X ∖ {[x]})) as [y Hy].
    { intros E. apply (f_equal size) in E.
      rewrite size_difference, size_singleton, size_empty in E.
      - lia.
      - now apply singleton_subseteq_l. }
    apply elem_of_difference in Hy as [Hy Hne].
    exists x, y. split; [done|]. split; [done|].
    intros ->. apply Hne. now apply elem_of_singleton.
  - intros (x & y & Hx & Hy & Hne).
    assert (Hsub : ({[x]} ∪ {[y]} : gset string) ⊆ X).
    { apply union_least; now apply singleton_subseteq_l. }
    apply subseteq_size in Hsub.
    rewrite size_union in Hsub.
    + rewrite !size_singleton in Hsub. lia.
    + apply disjoint_singleton_l. now rewrite elem_of_singleton.
Qed.

Section ChooseBestTheorems.
Context `{PF : PyFloat}.

Lemma elem_of_same_strand_gene_ids (h : MatchStats.heap) lst g :
  g ∈ same_strand_gene_ids h lst
  ↔ ∃ a, a ∈ lst ∧ MatchStats.category (h a) = SAME_STRAND
         ∧ MatchStats.ref_gene_id (h a) = g.
Proof.
  unfold same_strand_gene_ids.
  rewrite elem_of_list_to_set, list_elem_of_In, in_map_iff.
  split.
  - intros (a & <- & [Ha Hc]%filter_In).
    exists a. rewrite list_elem_of_In. split; [done|]. split; [|done].
    unfold cat_eqb in Hc. now apply bool_decide_eq_true in Hc.
  - intros (a & Ha & Hc & <-). exists a. split; [done|].
    apply filter_In. split; [now apply list_elem_of_In|].
    unfold cat_eqb. now apply bool_decide_eq_true.
Qed.

Lemma same_strand_gene_ids_perm (h : MatchStats.heap) lst lst' :
  Permutation lst lst' →
  same_strand_gene_ids h lst' = same_strand_gene_ids h lst.
Proof.
  intros Hp. apply set_eq. intros g.
  rewrite !elem_of_same_strand_gene_ids.
  split; intros (a & Ha & Hr); exists a; (split; [|done]).
  - now rewrite Hp.
  - now rewrite <- Hp.
Qed.

Lemma two_same_strand_genes_size (h : MatchStats.heap) lst :
  (1 < size (same_strand_gene_ids h lst))%nat ↔ two_same_strand_genes h lst.
Proof.
  rewrite gset_size_gt1. unfold two_same_strand_genes. split.
  - intros (x & y & Hx & Hy & Hne).
    apply elem_of_same_strand_gene_ids in Hx as (a & Ha & Hca & <-).
    apply elem_of_same_strand_gene_ids in Hy as (b & Hb & Hcb & <-).
    now exists a, b.
  - intros (a & b & Ha & Hb & Hca & Hcb & Hne).
    exists (MatchStats.ref_gene_id (h a)), (MatchStats.ref_gene_id (h b)).
    rewrite !elem_of_same_strand_gene_ids. split; [now exists a|].
    split; [now exists b|done].
Qed.

Lemma key_defined_perm (h : MatchStats.heap) lst lst' :
  Permutation lst lst' →
  forallb (fun a => key_defined (h a)) lst'
  = forallb (fun a => key_defined (h a)) lst.
Proof.
  intros Hp. apply eq_true_iff_eq. rewrite !forallb_forall.
  split; intros Hall a Ha; apply Hall.
  - now apply (Permutation_in _ Hp).
  - now apply (Permutation_in _ (Permutation_sym Hp)).
Qed.

Lemma winner_perm (h : MatchStats.heap) lst lst' :
  Permutation lst lst' → winner h lst' = winner h lst.
Proof.
  intros Hp. destruct lst as [|a lst].
  - now apply Permutation_nil in Hp as ->.
  - assert (Hne' : lst' ≠ []).
    { intros ->. now apply Permutation_sym, Permutation_nil in Hp. }
    destruct (winner_max h (a :: lst)) as (w & -> & Hw & Hmax); [done|].
    destruct (winner_max h lst' Hne') as (w' & -> & Hw' & Hmax').
    f_equal.
    rewrite <- (hit_obj_val h w), <- (hit_obj_val h w').
    apply hit_compare_eq_obj, (cl_le_antisym hit_compare_laws).
    + apply Hmax. now rewrite Hp.
    + apply Hmax'. now rewrite <- Hp.
Qed.


(** A candidate whose key is undefined makes [choose_best] raise. *)
Lemma choose_best_zero_division (h : MatchStats.heap) (lst : list addr) a :
  a ∈ lst → key_defined (h a) = false →
  MatchStats.choose_best h lst = Raise ZeroDivisionError.
Proof.
  intros Ha Hk. rewrite choose_best_spec.
  destruct lst as [|a0 lst0] eqn:El; [by apply elem_of_nil in Ha|].
  rewrite <- El in *.
  destruct (forallb _ lst) eqn:Hall; [|done].
  rewrite forallb_forall in Hall.
  apply list_elem_of_In, Hall in Ha. congruence.
Qed.

(** C4: [choose_best] does not depend on the order of the candidate list:
    on any permutation of the list it returns the same object and leaves
    the same store (or raises the same exception). *)
Theorem choose_best_permutation (h : MatchStats.heap) (lst lst' : list addr) :
  Permutation lst lst' →
  MatchStats.choose_best h lst' = MatchStats.choose_best h lst.
Proof.
  intros Hp. rewrite !choose_best_spec.
  destruct lst as [|a lst].
  { now apply Permutation_nil in Hp as ->. }
  destruct lst' as [|a' lst'].
  { now apply Permutation_sym, Permutation_nil in Hp. }
  rewrite (key_defined_perm h _ _ Hp), (winner_perm h _ _ Hp).
  destruct (forallb _ _); [|done].
  destruct (winner h (a :: lst)) as [w|]; [|done].
  unfold relabel, read_through.
  now rewrite (same_strand_gene_ids_perm h _ _ Hp).
Qed.

(** C6: when [choose_best] returns the candidate [w], the store is changed
    exactly when [w]'s category is SAME_STRAND and at least two distinct
    reference gene ids appear among the SAME_STRAND candidates of the list;
    the change is that [w]'s category becomes READ_THROUGH.  Otherwise the
    store, and so the winner's category, is unchanged. *)
Theorem choose_best_read_through (h h' : MatchStats.heap) (lst : list addr)
    (w : addr) :
  MatchStats.choose_best h lst = Ok (h', Some w) →
  (MatchStats.category (h w) = SAME_STRAND ∧ two_same_strand_genes h lst →
     h' = <[w := MatchStats.set_category (h w) READ_THROUGH]> h
     ∧ MatchStats.category (h' w) = READ_THROUGH)
  ∧ (¬ (MatchStats.category (h w) = SAME_STRAND
        ∧ two_same_strand_genes h lst) →
     h' = h).
Proof.
  rewrite choose_best_spec.
  destruct lst as [|a0 lst0] eqn:El; [done|]. rewrite <- El in *.
  destruct (forallb _ lst); [|done].
  destruct (winner h lst) as [w0|]; [|done].
  intros [= <- <-]. unfold relabel, read_through.
  rewrite <- two_same_strand_genes_size.
  unfold cat_eqb.
  destruct (bool_decide_reflect (MatchStats.category (h w0) = SAME_STRAND))
    as [Hc|Hc];
  destruct (bool_decide_reflect (1 < size (same_strand_gene_ids h lst))%nat)
    as [Hs|Hs]; simpl; split; try tauto.
  intros _. split; [done|]. unfold insert, fn_insert. now rewrite decide_True.
Qed.
End ChooseBestTheorems.


Lemma choose_best_permutation_witness :
  Permutation [0%nat; 1%nat] [1%nat; 0%nat]
  ∧ MatchStats.choose_best (PF := QFloat.Q_PyFloat) Examples.heap_through
      [1%nat; 0%nat]
    = MatchStats.choose_best (PF := QFloat.Q_PyFloat) Examples.heap_through
        [0%nat; 1%nat].
Proof.
  assert (H1 : Permutation [0%nat; 1%nat] [1%nat; 0%nat]) by apply perm_swap.
  split; [exact H1|].
  exact (choose_best_permutation (PF := QFloat.Q_PyFloat)
           Examples.heap_through _ _ H1).
Defined.

Lemma choose_best_read_through_witness :
  MatchStats.choose_best (PF := QFloat.Q_PyFloat) Examples.heap_through
    [0%nat; 1%nat]
  = Ok (<[1%nat := MatchStats.set_category (Examples.heap_through 1%nat)
                     READ_THROUGH]> Examples.heap_through, Some 1%nat)
  ∧ (MatchStats.category (Examples.heap_through 1%nat) = SAME_STRAND
     ∧ two_same_strand_genes Examples.heap_through [0%nat; 1%nat] →
     <[1%nat := MatchStats.set_category (Examples.heap_through 1%nat)
                  READ_THROUGH]> Examples.heap_through
     = <[1%nat := MatchStats.set_category (Examples.heap_through 1%nat)
                    READ_THROUGH]> Examples.heap_through
     ∧ MatchStats.category
         ((<[1%nat := MatchStats.set_category (Examples.heap_through 1%nat)
                        READ_THROUGH]> Examples.heap_through) 1%nat)
       = READ_THROUGH)
  ∧ (¬ (MatchStats.category (Examples.heap_through 1%nat) = SAME_STRAND
        ∧ two_same_strand_genes Examples.heap_through [0%nat; 1%nat]) →
     <[1%nat := MatchStats.set_category (Examples.heap_through 1%nat)
                  READ_THROUGH]> Examples.heap_through
     = Examples.heap_through).
Proof.
  assert (H1 : MatchStats.choose_best (PF := QFloat.Q_PyFloat)
                 Examples.heap_through [0%nat; 1%nat]
               = Ok (<[1%nat := MatchStats.set_category
                                  (Examples.heap_through 1%nat) READ_THROUGH]>
                       Examples.heap_through, Some 1%nat))
    by (vm_compute; reflexivity).
  split; [exact H1|].
  exact (choose_best_read_through (PF := QFloat.Q_PyFloat) _ _ _ _ H1).
Defined.

(** ** The accumulation, event by event *)

Lemma foldl_map {A B C : Type} (f : A → C → A) (g : B → C) (a : A) (l : list B) :
  foldl (fun acc x => f acc (g x)) a l = foldl f a (map g l).
Proof. revert a. induction l as [|x l IH]; intros a; simpl; [done|apply IH]. Qed.

Lemma foldl_flat_map {A B C : Type} (f : A → C → A) (g : B → list C) (a : A)
    (l : list B) :
  foldl (fun acc x => foldl f acc (g x)) a l = foldl f a (flat_map g l).
Proof.
  revert a. induction l as [|x l IH]; intros a; simpl; [done|].
  now rewrite foldl_app, IH.
Qed.

Lemma foldl_ext {A B : Type} (f g : A → B → A) (a : A) (l : list B) :
  (∀ acc x, f acc x = g acc x) → foldl f a l = foldl g a l.
Proof.
  intros E. revert a. induction l as [|x l IH]; intros a; simpl; [done|].
  now rewrite E, IH.
Qed.

Section AccumulateEvents.
Variable cmp_strand : Z → Z → bool.

Lemma match_exact_node_events idx t n ms :
  match_exact_node cmp_strand idx t n ms
  = foldl apply_event ms (exact_events cmp_strand idx t n).
Proof.
  unfold match_exact_node, exact_events.
  destruct (ref_node_dict idx !! n) as [refs|]; simpl; [|done].
  now rewrite <- foldl_map.
Qed.

Lemma match_intronic_node_events tree t n ms :
  match_intronic_node cmp_strand tree t n ms
  = foldl apply_event ms (intronic_events cmp_strand tree t n).
Proof.
  unfold match_intronic_node, intronic_events.
  rewrite <- foldl_flat_map. apply foldl_ext. intros acc hit.
  unfold hit_events. now rewrite <- foldl_map.
Qed.

Lemma match_introns_events idx introns ms :
  match_introns idx introns ms = foldl apply_event ms (intron_events idx introns).
Proof.
  unfold match_introns, intron_events.
  rewrite <- foldl_flat_map. apply foldl_ext. intros acc i.
  destruct (ref_intron_dict idx !! i) as [refs|]; simpl; [|done].
  now rewrite <- foldl_map.
Qed.

Lemma match_splicing_events idx sp ms :
  match_splicing idx sp ms = foldl apply_event ms (splicing_events idx sp).
Proof.
  unfold match_splicing, splicing_events.
  destruct (0 <? Datatypes.length sp)%nat; [|done].
  destruct (ref_splicing_patterns idx !! sp) as [refs|]; simpl; [|done].
  now rewrite <- foldl_map.
Qed.

(** The accumulators are the events applied in order to the empty
    dictionary. *)
Lemma accumulate_events idx tree t nodes_t :
  accumulate cmp_strand idx tree t nodes_t
  = foldl apply_event ∅ (events cmp_strand idx tree t nodes_t).
Proof.
  unfold accumulate, events.
  rewrite match_splicing_events, match_introns_events, !foldl_app.
  f_equal. f_equal.
  rewrite <- foldl_flat_map. apply foldl_ext. intros acc n.
  unfold node_events.
  now rewrite match_intronic_node_events, match_exact_node_events, foldl_app.
Qed.
End AccumulateEvents.

Lemma apply_event_lookup (ms : gmap string Match) (e : Event) (r : string) :
  apply_event ms e !! r
  = if bool_decide (event_id e = r)
    then Some (apply_to (default Match_new (ms !! r)) e)
    else ms !! r.
Proof.
  destruct e as [r' c n|r' i|r']; simpl;
    unfold add_node, add_intron, set_splicing;
    (case_bool_decide as E;
     [subst r'; now rewrite lookup_insert_eq | now rewrite lookup_insert_ne]).
Qed.

Lemma replay_untouched r evs m : touched r evs = false → replay r evs m = m.
Proof.
  revert m. induction evs as [|e evs IH]; intros m; simpl; [done|].
  intros [He Ht]%orb_false_elim. rewrite He. now apply IH.
Qed.

(** The accumulator of [r] after a run of events. *)
Lemma foldl_apply_event_lookup (evs : list Event) (ms : gmap string Match)
    (r : string) :
  foldl apply_event ms evs !! r
  = if touched r evs
    then Some (replay r evs (default Match_new (ms !! r)))
    else ms !! r.
Proof.
  revert ms. induction evs as [|e evs IH]; intros ms; simpl; [done|].
  rewrite IH, apply_event_lookup. unfold touched.
  case_bool_decide as E; simpl; [|done].
  destruct (existsb _ evs) eqn:Ht; [done|].
  now rewrite (replay_untouched _ _ _ Ht).
Qed.

Lemma replay_nodes r evs m c :
  nodes (replay r evs m) c = nodes m c ++ nodes_of r c evs.
Proof.
  revert m. induction evs as [|e evs IH]; intros m; simpl.
  - now rewrite app_nil_r.
  - rewrite IH. destruct e as [r' c' n|r' i|r']; simpl;
      case_bool_decide as E; simpl; try done.
    unfold insert, fn_insert.
    case_bool_decide as Ec; simpl.
    + subst c'. rewrite decide_True by done. now rewrite <- app_assoc.
    + now rewrite decide_False by done.
Qed.

Lemma replay_introns r evs m :
  introns (replay r evs m) = introns m ++ introns_of r evs.
Proof.
  revert m. induction evs as [|e evs IH]; intros m; simpl.
  - now rewrite app_nil_r.
  - rewrite IH. destruct e as [r' c' n|r' i|r']; simpl;
      case_bool_decide as E; simpl; try done.
    now rewrite <- app_assoc.
Qed.

Lemma replay_splicing r evs m :
  splicing (replay r evs m) = splicing m || splicing_of r evs.
Proof.
  revert m. induction evs as [|e evs IH]; intros m; simpl.
  - now rewrite orb_false_r.
  - rewrite IH. destruct e as [r' c' n|r' i|r']; simpl;
      case_bool_decide as E; simpl; try done.
    now rewrite orb_true_r.
Qed.

(** The accumulator of a matched reference, field by field. *)
Lemma accumulate_lookup cmp_strand idx tree t nodes_t r m :
  accumulate cmp_strand idx tree t nodes_t !! r = Some m →
  let evs := events cmp_strand idx tree t nodes_t in
  touched r evs = true
  ∧ (∀ c, nodes m c = nodes_of r c evs)
  ∧ introns m = introns_of r evs
  ∧ splicing m = splicing_of r evs.
Proof.
  rewrite accumulate_events, foldl_apply_event_lookup, lookup_empty. simpl.
  destruct (touched r _) eqn:Ht; [|done].
  intros [= <-]. split; [done|]. split; [|split].
  - intros c. now rewrite replay_nodes.
  - now rewrite replay_introns.
  - now rewrite replay_splicing.
Qed.

Lemma accumulate_is_Some cmp_strand idx tree t nodes_t r :
  is_Some (accumulate cmp_strand idx tree t nodes_t !! r)
  ↔ touched r (events cmp_strand idx tree t nodes_t) = true.
Proof.
  rewrite accumulate_events, foldl_apply_event_lookup, lookup_empty.
  destruct (touched r _); split; intros Hx; try done.
Qed.

(** ** The reference indexes *)

Lemma dict_append_lookup `{Countable K} {A : Type} (k k0 : K) (v : A)
    (d : gmap K (list A)) :
  default [] (dict_append k v d !! k0)
  = default [] (d !! k0) ++ (if bool_decide (k = k0) then [v] else []).
Proof.
  unfold dict_append. case_bool_decide as E.
  - subst. now rewrite lookup_insert_eq.
  - rewrite lookup_insert_ne by done. now rewrite app_nil_r.
Qed.

Lemma foldl_dict_append_lookup `{Countable K} {A : Type} (keys : list K) (v : A)
    (d : gmap K (list A)) (k0 : K) :
  default [] (foldl (fun d k => dict_append k v d) d keys !! k0)
  = default [] (d !! k0)
    ++ flat_map (fun k' => if bool_decide (k' = k0) then [v] else []) keys.
Proof.
  revert d. induction keys as [|k keys IH]; intros d; simpl.
  - now rewrite app_nil_r.
  - now rewrite IH, dict_append_lookup, <- app_assoc.
Qed.

Section IndexFacts.
Variable boundaries : list Z.

Lemma build_index_node_dict_gen (ts : list Transcript) (idx : RefIndex) (n : Node) :
  default [] (ref_node_dict (foldl (index_transcript boundaries) idx ts) !! n)
  = default [] (ref_node_dict idx !! n)
    ++ owners_of (fun t => split_exons t boundaries) n ts.
Proof.
  revert idx. induction ts as [|t ts IH]; intros idx; simpl.
  - unfold owners_of. simpl. now rewrite app_nil_r.
  - rewrite IH. unfold index_transcript, owners_of. simpl.
    destruct (is_ref t); simpl; [|done].
    now rewrite foldl_dict_append_lookup, <- app_assoc.
Qed.

Lemma build_index_intron_dict_gen (ts : list Transcript) (idx : RefIndex)
    (i : Intron) :
  default [] (ref_intron_dict (foldl (index_transcript boundaries) idx ts) !! i)
  = default [] (ref_intron_dict idx !! i) ++ owners_of transcript_introns i ts.
Proof.
  revert idx. induction ts as [|t ts IH]; intros idx; simpl.
  - unfold owners_of. simpl. now rewrite app_nil_r.
  - rewrite IH. unfold index_transcript, owners_of. simpl.
    destruct (is_ref t); simpl; [|done].
    now rewrite foldl_dict_append_lookup, <- app_assoc.
Qed.

Lemma build_index_splicing_gen (ts : list Transcript) (idx : RefIndex)
    (p : list Intron) :
  default [] (ref_splicing_patterns
                (foldl (index_transcript boundaries) idx ts) !! p)
  = default [] (ref_splicing_patterns idx !! p) ++ owners_of pattern_keys p ts.
Proof.
  revert idx. induction ts as [|t ts IH]; intros idx; simpl.
  - unfold owners_of. simpl. now rewrite app_nil_r.
  - rewrite IH. unfold index_transcript, owners_of, pattern_keys. simpl.
    destruct (is_ref t); simpl; [|done].
    destruct (0 <? Datatypes.length (transcript_introns t))%nat; simpl.
    + rewrite dict_append_lookup, <- !app_assoc. done.
    + done.
Qed.

Lemma build_index_test_gen (ts : list Transcript) (idx : RefIndex) :
  test_transcripts (foldl (index_transcript boundaries) idx ts)
  = test_transcripts idx ++ List.filter (fun t => negb (is_ref t)) ts.
Proof.
  revert idx. induction ts as [|t ts IH]; intros idx; simpl.
  - now rewrite app_nil_r.
  - rewrite IH. unfold index_transcript.
    destruct (is_ref t); simpl; [done|]. now rewrite <- app_assoc.
Qed.

Lemma build_index_ref_dict_gen (ts : list Transcript) (idx : RefIndex)
    (r : string) (ref : Transcript) :
  ref_dict (foldl (index_transcript boundaries) idx ts) !! r = Some ref →
  ref_dict idx !! r = Some ref
  ∨ (ref ∈ ts ∧ is_ref ref = true ∧ attr_transcript_id ref = r).
Proof.
  revert idx. induction ts as [|t ts IH]; intros idx; simpl; [by left|].
  intros [Hl|(Hin & Hr & Hid)]%IH.
  - unfold index_transcript in Hl. destruct (is_ref t) eqn:Et; simpl in Hl.
    + destruct (decide (attr_transcript_id t = r)) as [<-|Hne].
      * rewrite lookup_insert_eq in Hl. injection Hl as <-.
        right. split; [left|done].
      * rewrite lookup_insert_ne in Hl by done. now left.
    + now left.
  - right. split; [now right|done].
Qed.

Lemma build_index_ref_dict_Some_gen (ts : list Transcript) (idx : RefIndex)
    (ref : Transcript) :
  (ref ∈ ts ∧ is_ref ref = true)
  ∨ is_Some (ref_dict idx !! attr_transcript_id ref) →
  is_Some (ref_dict (foldl (index_transcript boundaries) idx ts)
           !! attr_transcript_id ref).
Proof.
  revert idx. induction ts as [|t ts IH]; intros idx; simpl.
  - intros [[Hin _]|Hs]; [by apply elem_of_nil in Hin|done].
  - intros Hc. apply IH.
    destruct Hc as [[[->|Hin]%elem_of_cons Hr]|Hs].
    + right. unfold index_transcript. rewrite Hr. simpl.
      now rewrite lookup_insert_eq.
    + now left.
    + right. unfold index_transcript. destruct (is_ref t); simpl; [|done].
      destruct (decide (attr_transcript_id t = attr_transcript_id ref)) as [E|E].
      * rewrite E. now rewrite lookup_insert_eq.
      * now rewrite lookup_insert_ne.
Qed.

Lemma build_index_node_dict ts n :
  default [] (ref_node_dict (build_index boundaries ts) !! n)
  = owners_of (fun t => split_exons t boundaries) n ts.
Proof. unfold build_index. now rewrite build_index_node_dict_gen. Qed.

Lemma build_index_intron_dict ts i :
  default [] (ref_intron_dict (build_index boundaries ts) !! i)
  = owners_of transcript_introns i ts.
Proof. unfold build_index. now rewrite build_index_intron_dict_gen. Qed.

Lemma build_index_splicing ts p :
  default [] (ref_splicing_patterns (build_index boundaries ts) !! p)
  = owners_of pattern_keys p ts.
Proof. unfold build_index. now rewrite build_index_splicing_gen. Qed.

Lemma build_index_test ts :
  test_transcripts (build_index boundaries ts)
  = List.filter (fun t => negb (is_ref t)) ts.
Proof. unfold build_index. now rewrite build_index_test_gen. Qed.

Lemma build_index_ref_dict ts r ref :
  ref_dict (build_index boundaries ts) !! r = Some ref →
  ref ∈ ts ∧ is_ref ref = true ∧ attr_transcript_id ref = r.
Proof.
  unfold build_index. intros [Hl|Hr]%build_index_ref_dict_gen; [|done].
  simpl in Hl. now rewrite lookup_empty in Hl.
Qed.

Lemma build_index_ref_dict_Some ts ref :
  ref ∈ ts → is_ref ref = true →
  is_Some (ref_dict (build_index boundaries ts) !! attr_transcript_id ref).
Proof.
  intros Hin Hr. unfold build_index.
  apply build_index_ref_dict_Some_gen. now left.
Qed.
End IndexFacts.

(** Membership in the owners of a key. *)
Lemma elem_of_owners_of `{EqDecision K} (keys : Transcript → list K) (k : K)
    (ts : list Transcript) (ref : Transcript) :
  ref ∈ owners_of keys k ts ↔ ref ∈ ts ∧ is_ref ref = true ∧ k ∈ keys ref.
Proof.
  unfold owners_of. rewrite list_elem_of_In, in_flat_map. split.
  - intros (t & [Ht Hr]%filter_In & Hin).
    apply in_flat_map in Hin as (k' & Hk' & Hin).
    case_bool_decide as E; [|done]. subst k'.
    destruct Hin as [->|[]].
    rewrite !list_elem_of_In. done.
  - intros (Ht & Hr & Hk). exists ref. split.
    + apply filter_In. now rewrite <- list_elem_of_In.
    + apply in_flat_map. exists k. split; [now apply list_elem_of_In|].
      rewrite bool_decide_true by done. now left.
Qed.

(** ** From accumulators to rows *)

Lemma heap_lookup_insert_eq (h : MatchStats.heap) (a : addr) (ms : MatchStats.t) :
  (<[a := ms]> h) a = ms.
Proof. unfold insert, fn_insert. now rewrite decide_True. Qed.

Lemma heap_lookup_insert_ne (h : MatchStats.heap) (a b : addr) (ms : MatchStats.t) :
  a ≠ b → (<[a := ms]> h) b = h b.
Proof. intros Hne. unfold insert, fn_insert. now rewrite decide_False. Qed.

(** What a successful [finalize] has read and written. *)
Lemma finalize_inv idx t nodes_t r m ms :
  finalize idx t nodes_t r m = Ok ms →
  ∃ ref c,
    ref_dict idx !! r = Some ref
    ∧ decide_category m (Datatypes.length nodes_t)
        (sum_bp (nodes m SAME_STRAND)) (sum_bp (nodes m OPP_STRAND))
        (Datatypes.length (introns m)) = Ok c
    ∧ MatchStats.category ms = c
    ∧ MatchStats.ref_transcript_id ms = attr_transcript_id ref
    ∧ MatchStats.ref_gene_id ms = attr_gene_id ref
    ∧ MatchStats.num_introns ms = Z.of_nat (Datatypes.length (exons t)) - 1
    ∧ MatchStats.ref_num_introns ms
      = Z.of_nat (Datatypes.length (exons ref)) - 1
    ∧ MatchStats.shared_introns ms = Z.of_nat (Datatypes.length (introns m))
    ∧ MatchStats.shared_splicing ms = splicing m
    ∧ MatchStats.shared_same_strand_bp ms = sum_bp (nodes m SAME_STRAND)
    ∧ MatchStats.shared_opp_strand_bp ms = sum_bp (nodes m OPP_STRAND)
    ∧ MatchStats.distance ms = 0.
Proof.
  unfold finalize.
  destruct (ref_dict idx !! r) as [ref|]; simpl; [|done].
  destruct (decide_category _ _ _ _ _) as [c|e]; simpl; [|done].
  unfold MatchStats.from_transcript.
  destruct (attr_gene_name ref); simpl; [|done].
  destruct (attr_source ref); simpl; [|done].
  destruct (attr_gene_type ref); simpl; [|done].
  intros [= <-]. exists ref, c. simpl. repeat split; reflexivity.
Qed.

(** The loop over the matches allocates one object per entry, in order, and
    leaves the older objects alone. *)
Lemma finalize_all_spec idx t nodes_t entries h next acc h' next' stats :
  finalize_all idx t nodes_t entries (h, next) acc = Ok ((h', next'), stats) →
  stats = acc ++ seq next (Datatypes.length entries)
  ∧ next' = (next + Datatypes.length entries)%nat
  ∧ (∀ a, (a < next)%nat → h' a = h a)
  ∧ Forall2 (fun (e : string * Match) a =>
               finalize idx t nodes_t e.1 e.2 = Ok (h' a))
            entries (seq next (Datatypes.length entries)).
Proof.
  revert h next acc. induction entries as [|[r m] entries IH]; intros h next acc; simpl.
  - intros [= <- <- <-]. rewrite app_nil_r, Nat.add_0_r.
    split; [done|]. split; [done|]. split; [done|]. constructor.
  - destruct (finalize idx t nodes_t r m) as [ms|e] eqn:Ef; simpl; [|done].
    intros (-> & -> & Hold & Hall)%IH.
    split; [now rewrite <- app_assoc|]. split; [lia|].
    assert (Hnext : h' next = ms).
    { rewrite Hold by lia. apply heap_lookup_insert_eq. }
    split.
    + intros a Ha. rewrite Hold by lia. apply heap_lookup_insert_ne. lia.
    + constructor; [|done]. simpl. now rewrite Hnext.
Qed.

(** The loop succeeds when every entry can be finalized. *)
Lemma finalize_all_total idx t nodes_t entries st acc :
  Forall (fun e : string * Match =>
            ∃ ms, finalize idx t nodes_t e.1 e.2 = Ok ms) entries →
  ∃ st' stats, finalize_all idx t nodes_t entries st acc = Ok (st', stats).
Proof.
  revert st acc. induction entries as [|[r m] entries IH]; intros [h next] acc Hall; simpl.
  - eauto.
  - apply Forall_cons in Hall as [[ms Hms] Hall]. simpl in Hms.
    rewrite Hms. simpl. now apply IH.
Qed.

Section ClassifyRows.
Variable cmp_strand : Z → Z → bool.

(** The rows of a classified transcript are the finalized accumulators:
    every row comes from one matched reference, and every matched
    reference has its row. *)
Lemma classify_transcript_rows boundaries idx tree h next t st' stats :
  classify_transcript cmp_strand boundaries idx tree (h, next) t
    = Ok (st', stats) →
  let nodes_t := split_exons t boundaries in
  let matches := accumulate cmp_strand idx tree t nodes_t in
  (∀ a, (a < next)%nat → st'.1 a = h a)
  ∧ (∀ a, a ∈ stats → (next ≤ a)%nat)
  ∧ NoDup stats
  ∧ (∀ a, a ∈ stats →
       ∃ r m, matches !! r = Some m
              ∧ finalize idx t nodes_t r m = Ok (st'.1 a))
  ∧ (∀ r m, matches !! r = Some m →
       ∃ a, a ∈ stats ∧ finalize idx t nodes_t r m = Ok (st'.1 a)).
Proof.
  unfold classify_transcript. destruct st' as [h' next'].
  intros (-> & _ & Hold & Hall)%finalize_all_spec. simpl.
  split; [done|]. split; [|split; [|split]].
  - intros a Ha%elem_of_seq. lia.
  - apply NoDup_seq.
  - intros a Ha.
    destruct (proj1 (list_elem_of_lookup _ _) Ha) as [i Hi].
    destruct (Forall2_lookup_r _ _ _ _ _ Hall Hi) as ([r m] & He & Hf).
    exists r, m. split; [|done].
    apply elem_of_map_to_list. apply list_elem_of_lookup. eauto.
  - intros r m Hm. apply elem_of_map_to_list in Hm.
    destruct (proj1 (list_elem_of_lookup _ _) Hm) as [i Hi].
    destruct (Forall2_lookup_l _ _ _ _ _ Hall Hi) as (a & Ha & Hf).
    exists a. split; [|done]. apply list_elem_of_lookup. eauto.
Qed.
End ClassifyRows.

(** What [choose_best] leaves of the store: every object is unchanged, save
    that the best match may have had its category set to READ_THROUGH. *)
Lemma choose_best_frame `{PF : PyFloat} (h h' : MatchStats.heap)
    (lst : list addr) (best : option addr) :
  MatchStats.choose_best h lst = Ok (h', best) →
  ∀ a, h' a = h a
       ∨ (best = Some a
          ∧ h' a = MatchStats.set_category (h a) READ_THROUGH).
Proof.
  rewrite choose_best_spec. destruct lst as [|a0 lst0] eqn:El.
  { intros [= <- <-] a. now left. }
  rewrite <- El. destruct (forallb _ lst); [|done].
  destruct (winner h lst) as [w|]; [|done].
  intros [= <- <-] a. unfold relabel.
  destruct (read_through h lst w); [|now left].
  destruct (decide (w = a)) as [->|Hne].
  - right. split; [done|]. apply heap_lookup_insert_eq.
  - left. now apply heap_lookup_insert_ne.
Qed.

Section CompareLocusYields.
Variable cmp_strand : Z → Z → bool.
Context `{PF : PyFloat}.

Lemma compare_loop_yield boundaries idx tree st ts (y : Yield) :
  y ∈ (compare_loop cmp_strand boundaries idx tree st ts).1 →
  ∃ st0 st1 t stats h best,
    y = (h, t, best, stats) ∧ t ∈ ts
    ∧ classify_transcript cmp_strand boundaries idx tree st0 t
      = Ok (st1, stats)
    ∧ MatchStats.choose_best st1.1 stats = Ok (h, best).
Proof.
  revert st. induction ts as [|t ts IH]; intros st; simpl.
  - intros Hy. by apply elem_of_nil in Hy.
  - unfold compare_transcript.
    destruct (classify_transcript _ _ _ _ st t) as [[st1 stats]|e] eqn:Ec;
      simpl; [|intros Hy; by apply elem_of_nil in Hy].
    destruct (MatchStats.choose_best st1.1 stats) as [[h2 best]|e] eqn:Eb;
      simpl; [|intros Hy; by apply elem_of_nil in Hy].
    destruct (compare_loop _ _ _ _ _ ts) as [ys e] eqn:El. simpl.
    intros [->|Hy]%elem_of_cons.
    + exists st, st1, t, stats, h2, best.
      split; [done|]. split; [left|]. split; done.
    + specialize (IH (h2, st1.2)). rewrite El in IH.
      destruct (IH Hy) as (st0 & st1' & t' & stats' & h & b & -> & Ht & Hc & Hb).
      exists st0, st1', t', stats', h, b.
      split; [done|]. split; [now right|]. split; done.
Qed.

(** Every item yielded by [compare_locus] is the classification of a test
    transcript of the locus followed by the choice of its best match. *)
Lemma compare_locus_yield st ts (y : Yield) :
  y ∈ (compare_locus cmp_strand st ts).1 →
  let boundaries := find_exon_boundaries ts in
  let idx := build_index boundaries ts in
  let tree := build_intron_tree (ref_intron_dict idx) in
  ∃ st0 st1 t stats h best,
    y = (h, t, best, stats) ∧ t ∈ ts ∧ is_ref t = false
    ∧ classify_transcript cmp_strand boundaries idx tree st0 t
      = Ok (st1, stats)
    ∧ MatchStats.choose_best st1.1 stats = Ok (h, best).
Proof.
  unfold compare_locus. intros Hy. simpl.
  apply compare_loop_yield in Hy
    as (st0 & st1 & t & stats & h & b & -> & Ht & Hc & Hb).
  exists st0, st1, t, stats, h, b.
  rewrite build_index_test in Ht.
  apply list_elem_of_In, filter_In in Ht as [Ht Hr].
  split; [done|]. split; [now apply list_elem_of_In|].
  split; [now destruct (is_ref t)|]. split; done.
Qed.
End CompareLocusYields.

(** ** Where the events come from *)

Lemma foldl_snoc_map {A B : Type} (g : B → A) (a : list A) (l : list B) :
  foldl (fun acc x => acc ++ [g x]) a l = a ++ map g l.
Proof.
  revert a. induction l as [|x l IH]; intros a; simpl.
  - now rewrite app_nil_r.
  - now rewrite IH, <- app_assoc.
Qed.

Lemma build_intron_tree_map (d : gmap Intron (list Transcript)) :
  build_intron_tree d = map intron_interval (map_to_list d).
Proof.
  unfold build_intron_tree, IntervalTree.insert_interval, IntervalTree.empty.
  rewrite <- (app_nil_l (map _ _)), <- foldl_snoc_map.
  apply foldl_ext. intros acc [[[s b] e] refs]. reflexivity.
Qed.

Lemma elem_of_build_intron_tree (d : gmap Intron (list Transcript))
    (hit : Interval.t Z (list Transcript)) :
  hit ∈ build_intron_tree d
  ↔ d !! (Interval.strand hit, Interval.start hit, Interval.end_ hit)
    = Some (Interval.value hit).
Proof.
  rewrite build_intron_tree_map, list_elem_of_In, in_map_iff. split.
  - intros ([[[s b] e] refs] & <- & Hin). simpl.
    now apply list_elem_of_In, elem_of_map_to_list in Hin.
  - intros Hd. exists ((Interval.strand hit, Interval.start hit, Interval.end_ hit),
                       Interval.value hit).
    split; [now destruct hit|].
    now apply list_elem_of_In, elem_of_map_to_list.
Qed.

Lemma touched_elem r evs : touched r evs = true ↔ ∃ e, e ∈ evs ∧ event_id e = r.
Proof.
  unfold touched. rewrite existsb_exists. split.
  - intros (e & He & Hr). exists e. rewrite list_elem_of_In.
    split; [done|]. now apply bool_decide_eq_true in Hr.
  - intros (e & He & Hr). exists e. rewrite <- list_elem_of_In.
    split; [done|]. now apply bool_decide_eq_true.
Qed.

Lemma elem_of_nodes_of r c evs n : n ∈ nodes_of r c evs ↔ AddNode r c n ∈ evs.
Proof.
  unfold nodes_of. rewrite !list_elem_of_In, in_flat_map. split.
  - intros (e & He & Hin). destruct e as [r' c' n'|r' i|r']; try done.
    destruct (bool_decide_reflect (r' = r)) as [->|]; [|done].
    destruct (bool_decide_reflect (c' = c)) as [->|]; [|done].
    now destruct Hin as [->|[]].
  - intros He. exists (AddNode r c n). split; [done|].
    rewrite !bool_decide_true by done. now left.
Qed.

Lemma elem_of_introns_of r evs i : i ∈ introns_of r evs ↔ AddIntron r i ∈ evs.
Proof.
  unfold introns_of. rewrite !list_elem_of_In, in_flat_map. split.
  - intros (e & He & Hin). destruct e as [r' c' n'|r' i'|r']; try done.
    destruct (bool_decide_reflect (r' = r)) as [->|]; [|done].
    now destruct Hin as [->|[]].
  - intros He. exists (AddIntron r i). split; [done|].
    rewrite bool_decide_true by done. now left.
Qed.

Lemma splicing_of_true r evs : splicing_of r evs = true ↔ SetSplicing r ∈ evs.
Proof.
  unfold splicing_of. rewrite existsb_exists, list_elem_of_In. split.
  - intros (e & He & Hr). destruct e as [r' c' n'|r' i'|r']; try done.
    now apply bool_decide_eq_true in Hr as ->.
  - intros He. exists (SetSplicing r). split; [done|].
    now apply bool_decide_eq_true.
Qed.

Section EventMembership.
Variable cmp_strand : Z → Z → bool.
Variable ts : list Transcript.

Local Abbreviation boundaries := (find_exon_boundaries ts).
Local Abbreviation idx := (build_index boundaries ts).
Local Abbreviation tree := (build_intron_tree (ref_intron_dict idx)).

Lemma elem_of_exact_events t n e :
  e ∈ exact_events cmp_strand idx t n
  ↔ ∃ ref, ref ∈ ts ∧ is_ref ref = true ∧ n ∈ split_exons ref boundaries
           ∧ e = AddNode (attr_transcript_id ref)
                   (if cmp_strand (strand t) (strand ref)
                    then SAME_STRAND else OPP_STRAND) n.
Proof.
  unfold exact_events. rewrite build_index_node_dict.
  rewrite list_elem_of_In, in_map_iff.
  setoid_rewrite <- list_elem_of_In. setoid_rewrite elem_of_owners_of.
  split.
  - intros (ref & <- & Hin & Hr & Hn). now exists ref.
  - intros (ref & Hin & Hr & Hn & ->). now exists ref.
Qed.

Lemma tree_hit_value (hit : Interval.t Z (list Transcript)) :
  hit ∈ tree →
  Interval.value hit
  = owners_of transcript_introns
      (Interval.strand hit, Interval.start hit, Interval.end_ hit) ts.
Proof.
  rewrite elem_of_build_intron_tree. intros Hd.
  rewrite <- build_index_intron_dict with (boundaries := boundaries).
  now rewrite Hd.
Qed.

Lemma elem_of_transcript_introns (t : Transcript) (i : Intron) :
  i ∈ transcript_introns t
  ↔ i.1.1 = strand t ∧ (i.1.2, i.2) ∈ iterintrons t.
Proof.
  unfold transcript_introns. rewrite !list_elem_of_In, in_map_iff. split.
  - intros ([s e] & <- & Hin). now simpl.
  - destruct i as [[st s] e]. simpl. intros [<- Hin]. now exists (s, e).
Qed.

Lemma elem_of_intronic_events t n e :
  e ∈ intronic_events cmp_strand tree t n
  ↔ ∃ ref s e', ref ∈ ts ∧ is_ref ref = true ∧ (s, e') ∈ iterintrons ref
                ∧ s < n.2 ∧ n.1 < e'
                ∧ e = AddNode (attr_transcript_id ref)
                        (if cmp_strand (strand t) (strand ref)
                         then INTRONIC_SAME_STRAND
                         else INTRONIC_OPP_STRAND) n.
Proof.
  unfold intronic_events, IntervalTree.find.
  rewrite list_elem_of_In, in_flat_map. split.
  - intros (hit & [Hhit Hov]%filter_In & He).
    apply list_elem_of_In in Hhit.
    unfold hit_events in He. rewrite (tree_hit_value _ Hhit) in He.
    apply in_map_iff in He as (ref & <- & Href).
    apply list_elem_of_In, elem_of_owners_of in Href as (Hin & Hr & Hi).
    apply elem_of_transcript_introns in Hi as [Hs Hi]. simpl in Hs, Hi.
    unfold IntervalTree.overlaps in Hov.
    apply andb_prop in Hov as [H1 H2].
    apply Z.ltb_lt in H1, H2.
    exists ref, (Interval.start hit), (Interval.end_ hit).
    rewrite Hs. done.
  - intros (ref & s & e' & Hin & Hr & Hi & H1 & H2 & ->).
    assert (Hk : (strand ref, s, e') ∈ transcript_introns ref).
    { now apply elem_of_transcript_introns. }
    assert (Hown : ref ∈ owners_of transcript_introns (strand ref, s, e') ts).
    { now apply elem_of_owners_of. }
    destruct (ref_intron_dict (build_index boundaries ts) !! (strand ref, s, e'))
      as [refs|] eqn:Hd.
    2:{ rewrite <- build_index_intron_dict with (boundaries := boundaries) in Hown.
        rewrite Hd in Hown. by apply elem_of_nil in Hown. }
    exists (Interval.mk s e' (strand ref) refs). split.
    + apply filter_In. split.
      * apply list_elem_of_In.
        now apply elem_of_build_intron_tree.
      * unfold IntervalTree.overlaps. simpl.
        apply andb_true_intro. split; now apply Z.ltb_lt.
    + unfold hit_events. simpl. apply in_map_iff. exists ref.
      split; [done|]. apply list_elem_of_In.
      rewrite <- build_index_intron_dict with (boundaries := boundaries) in Hown.
      now rewrite Hd in Hown.
Qed.

Lemma elem_of_intron_events introns e :
  e ∈ intron_events idx introns
  ↔ ∃ ref i, ref ∈ ts ∧ is_ref ref = true ∧ i ∈ introns
             ∧ i ∈ transcript_introns ref
             ∧ e = AddIntron (attr_transcript_id ref) i.
Proof.
  unfold intron_events. rewrite list_elem_of_In, in_flat_map. split.
  - intros (i & Hi & He). apply in_map_iff in He as (ref & <- & Href).
    rewrite build_index_intron_dict in Href.
    apply list_elem_of_In, elem_of_owners_of in Href as (Hin & Hr & Hk).
    apply list_elem_of_In in Hi. now exists ref, i.
  - intros (ref & i & Hin & Hr & Hi & Hk & ->).
    exists i. split; [now apply list_elem_of_In|].
    apply in_map_iff. exists ref. split; [done|].
    rewrite build_index_intron_dict.
    now apply list_elem_of_In, elem_of_owners_of.
Qed.

Lemma elem_of_splicing_events sp e :
  e ∈ splicing_events idx sp
  ↔ ∃ ref, ref ∈ ts ∧ is_ref ref = true ∧ sp ≠ []
           ∧ transcript_introns ref = sp
           ∧ e = SetSplicing (attr_transcript_id ref).
Proof.
  unfold splicing_events. split.
  - destruct sp as [|i sp]; simpl; [intros He; by apply elem_of_nil in He|].
    intros (ref & <- & Href)%list_elem_of_In%in_map_iff.
    rewrite build_index_splicing in Href.
    apply list_elem_of_In, elem_of_owners_of in Href as (Hin & Hr & Hk).
    unfold pattern_keys in Hk.
    destruct (0 <? _)%nat; [|by apply elem_of_nil in Hk].
    apply list_elem_of_singleton in Hk.
    exists ref. done.
  - intros (ref & Hin & Hr & Hne & <- & ->).
    destruct (transcript_introns ref) as [|i sp] eqn:Hsp; [done|]. simpl.
    apply list_elem_of_In, in_map_iff. exists ref. split; [done|].
    rewrite build_index_splicing.
    apply list_elem_of_In, elem_of_owners_of.
    split; [done|]. split; [done|]. unfold pattern_keys. rewrite Hsp. simpl.
    now left.
Qed.

Lemma elem_of_events t nodes_t e :
  e ∈ events cmp_strand idx tree t nodes_t
  ↔ (∃ n, n ∈ nodes_t
          ∧ (e ∈ exact_events cmp_strand idx t n
             ∨ e ∈ intronic_events cmp_strand tree t n))
    ∨ e ∈ intron_events idx (transcript_introns t)
    ∨ e ∈ splicing_events idx (transcript_introns t).
Proof.
  unfold events. rewrite !elem_of_app.
  assert (Hflat : e ∈ flat_map (node_events cmp_strand idx tree t) nodes_t
                  ↔ ∃ n, n ∈ nodes_t
                         ∧ (e ∈ exact_events cmp_strand idx t n
                            ∨ e ∈ intronic_events cmp_strand tree t n)).
  { rewrite list_elem_of_In, in_flat_map. unfold node_events.
    split; intros (n & Hn & He); exists n.
    - apply list_elem_of_In in Hn, He. now apply elem_of_app in He.
    - rewrite <- !list_elem_of_In. now rewrite elem_of_app. }
  now rewrite Hflat.
Qed.
End EventMembership.

(** ** Candidates *)

Section Candidates.
Variable cmp_strand : Z → Z → bool.
Variable ts : list Transcript.

Local Abbreviation boundaries := (find_exon_boundaries ts).
Local Abbreviation idx := (build_index boundaries ts).
Local Abbreviation tree := (build_intron_tree (ref_intron_dict idx)).

(** The references that get an accumulator. *)
Lemma accumulate_matched (t : Transcript) (r : string) :
  is_Some (accumulate cmp_strand idx tree t (split_exons t boundaries) !! r)
  ↔ ∃ ref, ref ∈ ts ∧ is_ref ref = true ∧ attr_transcript_id ref = r
           ∧ (shares_node boundaries t ref
              ∨ node_in_intron boundaries t ref
              ∨ shares_intron t ref).
Proof.
  rewrite accumulate_is_Some, touched_elem. split.
  - intros (e & He & Hid).
    apply elem_of_events in He as [(n & Hn & [He|He])|[He|He]].
    + apply elem_of_exact_events in He as (ref & Hin & Hr & Hn' & ->).
      exists ref. repeat (split; [done|]). left. now exists n.
    + apply elem_of_intronic_events in He
        as (ref & s & e' & Hin & Hr & Hi & H1 & H2 & ->).
      exists ref. repeat (split; [done|]). right. left.
      now exists n, (s, e').
    + apply elem_of_intron_events in He as (ref & i & Hin & Hr & Hi & Hk & ->).
      exists ref. repeat (split; [done|]). right. right. now exists i.
    + apply elem_of_splicing_events in He as (ref & Hin & Hr & Hne & Hsp & ->).
      exists ref. repeat (split; [done|]). right. right.
      unfold shares_intron. rewrite Hsp.
      destruct (transcript_introns t) as [|i sp] eqn:Et; [done|].
      exists i. split; left.
  - intros (ref & Hin & Hr & <- & [(n & Hn & Hn')|[(n & [s e'] & Hn & Hi & H1 & H2)|(i & Hi & Hk)]]).
    + eexists. split; [|shelve]. apply elem_of_events. left. exists n.
      split; [done|]. left. apply elem_of_exact_events. now exists ref.
      Unshelve. reflexivity.
    + eexists. split; [|shelve]. apply elem_of_events. left. exists n.
      split; [done|]. right. apply elem_of_intronic_events.
      now exists ref, s, e'.
      Unshelve. reflexivity.
    + eexists. split; [|shelve]. apply elem_of_events. right. left.
      apply elem_of_intron_events. now exists ref, i.
      Unshelve. reflexivity.
Qed.

(** C3, amended: when the classification of [t] succeeds, a row is emitted
    for the reference id [r] exactly when a reference transcript of the
    locus with this id shares a node with [t], or has an intron that
    overlaps a node of [t], or shares an intron with [t]. *)
Theorem candidate_iff_bucketed (st st1 : State) (t : Transcript)
    (stats : list addr) (r : string) :
  classify_transcript cmp_strand boundaries idx tree st t = Ok (st1, stats) →
  (∃ a, a ∈ stats ∧ MatchStats.ref_transcript_id (st1.1 a) = r)
  ↔ (∃ ref, ref ∈ ts ∧ is_ref ref = true ∧ attr_transcript_id ref = r
            ∧ (shares_node boundaries t ref
               ∨ node_in_intron boundaries t ref
               ∨ shares_intron t ref)).
Proof.
  destruct st as [h next]. intros Hc.
  destruct (classify_transcript_rows _ _ _ _ _ _ _ _ _ Hc)
    as (_ & _ & _ & Hrow & Hall).
  rewrite <- accumulate_matched. split.
  - intros (a & Ha & <-).
    destruct (Hrow a Ha) as (r & m & Hm & Hf).
    apply finalize_inv in Hf as (ref & c & Hd & _ & _ & -> & _).
    apply build_index_ref_dict in Hd as (_ & _ & ->). eauto.
  - intros [m Hm]. destruct (Hall r m Hm) as (a & Ha & Hf).
    exists a. split; [done|].
    apply finalize_inv in Hf as (ref & c & Hd & _ & _ & -> & _).
    now apply build_index_ref_dict in Hd as (_ & _ & ->).
Qed.
End Candidates.

Lemma candidate_iff_bucketed_witness :
  classify_transcript Z.eqb
    (find_exon_boundaries Examples.locus_intronic)
    (build_index (find_exon_boundaries Examples.locus_intronic)
       Examples.locus_intronic)
    (build_intron_tree
       (ref_intron_dict
          (build_index (find_exon_boundaries Examples.locus_intronic)
             Examples.locus_intronic)))
    Examples.st0 Examples.T_intronic
  = Ok ((<[0%nat := yield_heap (Examples.first_yield Examples.locus_intronic) 0%nat]>
           Examples.st0.1, 1%nat), [0%nat])
  ∧ ((∃ a, a ∈ [0%nat]
           ∧ MatchStats.ref_transcript_id
               ((<[0%nat := yield_heap (Examples.first_yield Examples.locus_intronic) 0%nat]>
                   Examples.st0.1) a) = "R1")
     ↔ (∃ ref, ref ∈ Examples.locus_intronic ∧ is_ref ref = true
               ∧ attr_transcript_id ref = "R1"
               ∧ (shares_node (find_exon_boundaries Examples.locus_intronic)
                    Examples.T_intronic ref
                  ∨ node_in_intron (find_exon_boundaries Examples.locus_intronic)
                      Examples.T_intronic ref
                  ∨ shares_intron Examples.T_intronic ref))).
Proof.
  assert (Hc : classify_transcript Z.eqb
    (find_exon_boundaries Examples.locus_intronic)
    (build_index (find_exon_boundaries Examples.locus_intronic)
       Examples.locus_intronic)
    (build_intron_tree
       (ref_intron_dict
          (build_index (find_exon_boundaries Examples.locus_intronic)
             Examples.locus_intronic)))
    Examples.st0 Examples.T_intronic
  = Ok ((<[0%nat := yield_heap (Examples.first_yield Examples.locus_intronic) 0%nat]>
           Examples.st0.1, 1%nat), [0%nat])).
  { vm_compute. reflexivity. }
  split; [exact Hc|].
  exact (candidate_iff_bucketed Z.eqb Examples.locus_intronic _ _ _ _ "R1" Hc).
Defined.

(** A test transcript that lies in an intron of a reference is a candidate
    of that reference although the two share no node and no intron. *)
Lemma candidates_not_only_exact_sharers : ¬ candidates_are_exact_sharers.
Proof.
  intros Hclaim.
  specialize (Hclaim Z.eqb Examples.locus_intronic Examples.st0).
  destruct (classify_transcript Z.eqb
              (find_exon_boundaries Examples.locus_intronic)
              (build_index (find_exon_boundaries Examples.locus_intronic)
                 Examples.locus_intronic)
              (build_intron_tree
                 (ref_intron_dict
                    (build_index (find_exon_boundaries Examples.locus_intronic)
                       Examples.locus_intronic)))
              Examples.st0 Examples.T_intronic) as [[st1 stats]|e] eqn:Hc;
    [|vm_compute in Hc; discriminate].
  specialize (Hclaim st1 Examples.T_intronic stats).
  cbv zeta in Hclaim.
  specialize (Hclaim ltac:(right; left) eq_refl Hc "R1").
  vm_compute in Hc. injection Hc as <- <-.
  destruct Hclaim as [Hclaim _].
  destruct Hclaim as (ref & Hin & Hr & Hid & Hshare).
  { exists 0%nat. split; [left|reflexivity]. }
  assert (ref = Examples.R_intron) as ->.
  { apply elem_of_cons in Hin as [->|Hin]; [done|].
    apply list_elem_of_singleton in Hin as ->. discriminate Hr. }
  destruct Hshare as [(n & Hn & Hn')|(i & Hi & Hi')].
  - vm_compute in Hn. apply list_elem_of_singleton in Hn as ->.
    vm_compute in Hn'.
    apply elem_of_cons in Hn' as [[=]|Hn'].
    apply list_elem_of_singleton in Hn'. discriminate Hn'.
  - vm_compute in Hi. by apply elem_of_nil in Hi.
Qed.

(** ** Shared splicing of single-exon transcripts *)

Lemma single_exon_no_introns (t : Transcript) :
  Datatypes.length (exons t) = 1%nat → transcript_introns t = [].
Proof.
  unfold transcript_introns, iterintrons.
  destruct (exons t) as [|e [|e' l]]; simpl; done.
Qed.

Section SingleExon.
Variable cmp_strand : Z → Z → bool.
Context `{PF : PyFloat}.

(** C10: every [MatchStats] that [compare_locus] yields for a test
    transcript with a single exon has [shared_splicing = False]. *)
Theorem single_exon_no_shared_splicing (st : State) (ts : list Transcript)
    (y : Yield) (a : addr) :
  y ∈ (compare_locus cmp_strand st ts).1 →
  Datatypes.length (exons (yield_transcript y)) = 1%nat →
  a ∈ yield_stats y →
  MatchStats.shared_splicing (yield_heap y a) = false.
Proof.
  intros Hy Hone Ha.
  apply compare_locus_yield in Hy
    as ([h0 n0] & st1 & t & stats & h & best & -> & Ht & Hr & Hc & Hb).
  unfold yield_transcript, yield_stats, yield_heap in *. simpl in *.
  assert (Hsame : MatchStats.shared_splicing (h a)
                  = MatchStats.shared_splicing (st1.1 a)).
  { destruct (choose_best_frame _ _ _ _ Hb a) as [->|[_ ->]]; done. }
  rewrite Hsame.
  destruct (classify_transcript_rows _ _ _ _ _ _ _ _ _ Hc)
    as (_ & _ & _ & Hrow & _).
  destruct (Hrow a Ha) as (r & m & Hm & Hf).
  apply finalize_inv in Hf as (ref & c & _ & _ & _ & _ & _ & _ & _ & _ & -> & _).
  apply accumulate_lookup in Hm as (_ & _ & _ & ->).
  destruct (splicing_of r _) eqn:Hs; [|done].
  apply splicing_of_true, elem_of_events in Hs as [(n & Hn & [He|He])|[He|He]].
  - now apply elem_of_exact_events in He as (? & _ & _ & _ & ?).
  - now apply elem_of_intronic_events in He as (? & ? & ? & _ & _ & _ & _ & _ & ?).
  - now apply elem_of_intron_events in He as (? & ? & _ & _ & _ & _ & ?).
  - apply elem_of_splicing_events in He as (? & _ & _ & Hne & _).
    now rewrite single_exon_no_introns in Hne.
Qed.
End SingleExon.

Lemma single_exon_no_shared_splicing_witness :
  Examples.first_yield Examples.locus_single
    ∈ (compare_locus Z.eqb (PF := QFloat.Q_PyFloat) Examples.st0
         Examples.locus_single).1
  ∧ Datatypes.length
      (exons (yield_transcript (Examples.first_yield Examples.locus_single)))
    = 1%nat
  ∧ 0%nat ∈ yield_stats (Examples.first_yield Examples.locus_single)
  ∧ MatchStats.shared_splicing
      (yield_heap (Examples.first_yield Examples.locus_single) 0%nat) = false.
Proof.
  assert (H1 : Examples.first_yield Examples.locus_single
               ∈ (compare_locus Z.eqb (PF := QFloat.Q_PyFloat) Examples.st0
                    Examples.locus_single).1).
  { apply list_elem_of_In. vm_compute. left. reflexivity. }
  assert (H2 : Datatypes.length
                 (exons (yield_transcript
                           (Examples.first_yield Examples.locus_single)))
               = 1%nat) by (vm_compute; reflexivity).
  assert (H3 : 0%nat ∈ yield_stats (Examples.first_yield Examples.locus_single)).
  { apply list_elem_of_In. vm_compute. left. reflexivity. }
  repeat (split; [assumption|]).
  exact (single_exon_no_shared_splicing Z.eqb _ _ _ _ H1 H2 H3).
Defined.

(** ** The detail report and the read-through relabelling *)

Section DetailRows.
Variable cmp_strand : Z → Z → bool.
Context `{PF : PyFloat}.

(** C5, amended: for a transcript with matches, the best match [w] is one
    of the objects of [match_stats]; the detail report prints the very
    objects of the store after [choose_best]; every object other than [w]
    is as the classifier created it; and [w] is either unchanged or it is
    a SAME_STRAND match whose category was set to READ_THROUGH, in which
    case its detail row carries READ_THROUGH like the summary row. *)
Theorem relabel_reaches_best_detail_row (boundaries : list Z) (idx : RefIndex)
    (tree : IntervalTree.t Z (list Transcript)) (st st2 : State)
    (t : Transcript) (y : Yield) :
  compare_transcript cmp_strand boundaries idx tree st t = Ok (st2, y) →
  yield_stats y ≠ [] →
  ∃ st1 w,
    classify_transcript cmp_strand boundaries idx tree st t
      = Ok (st1, yield_stats y)
    ∧ yield_best y = Some w ∧ w ∈ yield_stats y
    ∧ overlapping_rows y
      = Ok ([yield_heap y w], map (yield_heap y) (yield_stats y))
    ∧ (∀ a, a ≠ w → yield_heap y a = st1.1 a)
    ∧ (yield_heap y w = st1.1 w
       ∨ (MatchStats.category (st1.1 w) = SAME_STRAND
          ∧ yield_heap y w
            = MatchStats.set_category (st1.1 w) READ_THROUGH)).
Proof.
  unfold compare_transcript.
  destruct (classify_transcript _ _ _ _ st t) as [[st1 stats]|e] eqn:Hc;
    simpl; [|done].
  destruct (MatchStats.choose_best st1.1 stats) as [[h2 best]|e] eqn:Hb;
    simpl; [|done].
  intros [= <- <-]. unfold yield_stats, yield_best, yield_heap. simpl.
  intros Hne. exists st1.
  rewrite choose_best_spec in Hb.
  destruct stats as [|a0 stats0] eqn:Es; [done|]. rewrite <- Es in *.
  destruct (forallb _ stats); [|done].
  destruct (winner_max st1.1 stats Hne) as (w & Hw & Hin & _).
  rewrite Hw in Hb. injection Hb as <- <-.
  exists w. split; [done|]. split; [done|]. split; [done|].
  split; [now rewrite Es|].
  unfold relabel, read_through, cat_eqb. split.
  - intros a Hna. destruct (_ && _); [|done].
    now apply heap_lookup_insert_ne.
  - destruct (bool_decide_reflect (MatchStats.category (st1.1 w) = SAME_STRAND))
      as [Hcat|Hcat]; simpl; [|now left].
    destruct (bool_decide _); [|now left].
    right. split; [done|]. apply heap_lookup_insert_eq.
Qed.
End DetailRows.

Lemma relabel_reaches_best_detail_row_witness :
  compare_transcript Z.eqb (PF := QFloat.Q_PyFloat)
    (Examples.boundaries Examples.locus_through)
    (Examples.index Examples.locus_through)
    (Examples.tree Examples.locus_through) Examples.st0 Examples.T_through
  = Ok ((yield_heap (Examples.first_yield Examples.locus_through), 2%nat),
        Examples.first_yield Examples.locus_through)
  ∧ yield_stats (Examples.first_yield Examples.locus_through) ≠ []
  ∧ ∃ st1 w,
      classify_transcript Z.eqb (Examples.boundaries Examples.locus_through)
        (Examples.index Examples.locus_through)
        (Examples.tree Examples.locus_through) Examples.st0 Examples.T_through
      = Ok (st1, yield_stats (Examples.first_yield Examples.locus_through))
      ∧ yield_best (Examples.first_yield Examples.locus_through) = Some w
      ∧ w ∈ yield_stats (Examples.first_yield Examples.locus_through)
      ∧ overlapping_rows (Examples.first_yield Examples.locus_through)
        = Ok ([yield_heap (Examples.first_yield Examples.locus_through) w],
              map (yield_heap (Examples.first_yield Examples.locus_through))
                  (yield_stats (Examples.first_yield Examples.locus_through)))
      ∧ (∀ a, a ≠ w →
           yield_heap (Examples.first_yield Examples.locus_through) a = st1.1 a)
      ∧ (yield_heap (Examples.first_yield Examples.locus_through) w = st1.1 w
         ∨ (MatchStats.category (st1.1 w) = SAME_STRAND
            ∧ yield_heap (Examples.first_yield Examples.locus_through) w
              = MatchStats.set_category (st1.1 w) READ_THROUGH)).
Proof.
  assert (H1 : compare_transcript Z.eqb (PF := QFloat.Q_PyFloat)
                 (Examples.boundaries Examples.locus_through)
                 (Examples.index Examples.locus_through)
                 (Examples.tree Examples.locus_through)
                 Examples.st0 Examples.T_through
               = Ok ((yield_heap (Examples.first_yield Examples.locus_through),
                      2%nat),
                     Examples.first_yield Examples.locus_through))
    by (vm_compute; reflexivity).
  assert (H2 : yield_stats (Examples.first_yield Examples.locus_through) ≠ [])
    by (vm_compute; discriminate).
  split; [exact H1|]. split; [exact H2|].
  exact (relabel_reaches_best_detail_row Z.eqb _ _ _ _ _ _ _ H1 H2).
Defined.

(** The detail row of the best match of a read-through transcript carries
    READ_THROUGH, not the SAME_STRAND that the classifier assigned. *)
Lemma detail_row_is_relabelled : ¬ detail_rows_keep_category.
Proof.
  intros Hclaim.
  specialize (Hclaim Z.eqb QFloat.Q_PyFloat Examples.locus_through Examples.st0).
  destruct (classify_transcript Z.eqb
              (find_exon_boundaries Examples.locus_through)
              (build_index (find_exon_boundaries Examples.locus_through)
                 Examples.locus_through)
              (build_intron_tree
                 (ref_intron_dict
                    (build_index (find_exon_boundaries Examples.locus_through)
                       Examples.locus_through)))
              Examples.st0 Examples.T_through) as [[st1 stats]|e] eqn:Hc;
    [|vm_compute in Hc; discriminate].
  destruct (MatchStats.choose_best (PF := QFloat.Q_PyFloat) st1.1 stats)
    as [[h best]|e] eqn:Hb;
    [|vm_compute in Hc; injection Hc as <- <-; vm_compute in Hb; discriminate].
  destruct (overlapping_rows (h, Examples.T_through, best, stats))
    as [[rows_best rows]|e] eqn:Hrows;
    [|vm_compute in Hc; injection Hc as <- <-;
      vm_compute in Hb; injection Hb as <- <-;
      vm_compute in Hrows; discriminate].
  specialize (Hclaim st1 Examples.T_through stats h best rows_best rows).
  cbv zeta in Hclaim. specialize (Hclaim Hc Hb Hrows).
  vm_compute in Hc. injection Hc as <- <-.
  vm_compute in Hb. injection Hb as <- <-.
  vm_compute in Hrows. injection Hrows as <- <-.
  vm_compute in Hclaim. discriminate Hclaim.
Qed.

(** ** The branch without exonic overlap *)

Lemma sum_bp_pos (l : list Node) :
  Forall (fun n : Node => n.1 < n.2) l → l ≠ [] → 0 < sum_bp l.
Proof.
  induction l as [|n l IH]; [done|]. intros [Hn Hl]%Forall_cons _. simpl.
  destruct l as [|n' l']; [simpl; lia|].
  assert (0 < sum_bp (n' :: l')) by now apply IH. lia.
Qed.

Section EventShape.
Variable cmp_strand : Z → Z → bool.

(** The events of a transcript add its own nodes, under one of the four
    node categories, or add an intron, or set the splicing flag. *)
Lemma events_shape idx tree t nodes_t e :
  e ∈ events cmp_strand idx tree t nodes_t →
  (∃ r c n, e = AddNode r c n ∧ n ∈ nodes_t
            ∧ (c = SAME_STRAND ∨ c = OPP_STRAND
               ∨ c = INTRONIC_SAME_STRAND ∨ c = INTRONIC_OPP_STRAND))
  ∨ (∃ r i, e = AddIntron r i)
  ∨ (∃ r, e = SetSplicing r).
Proof.
  unfold events. rewrite !elem_of_app. intros [He|[He|He]].
  - left. apply list_elem_of_In, in_flat_map in He as (n & Hn & He).
    apply list_elem_of_In in Hn.
    unfold node_events in He. apply in_app_or in He as [He|He].
    + unfold exact_events in He. apply in_map_iff in He as (ref & <- & _).
      eexists _, _, n. split; [done|]. split; [done|].
      destruct (cmp_strand _ _); tauto.
    + unfold intronic_events in He. apply in_flat_map in He as (hit & _ & He).
      unfold hit_events in He. apply in_map_iff in He as (ref & <- & _).
      eexists _, _, n. split; [done|]. split; [done|].
      destruct (cmp_strand _ _); tauto.
  - right. left. unfold intron_events in He.
    apply list_elem_of_In, in_flat_map in He as (i & _ & He).
    apply in_map_iff in He as (ref & <- & _). eauto.
  - right. right. unfold splicing_events in He.
    destruct (0 <? _)%nat; [|by apply elem_of_nil in He].
    apply list_elem_of_In, in_map_iff in He as (ref & <- & _). eauto.
Qed.

(** The nodes of an accumulator are nodes of the test transcript. *)
Lemma accumulate_nodes_incl idx tree t nodes_t r m c n :
  accumulate cmp_strand idx tree t nodes_t !! r = Some m →
  n ∈ nodes m c → n ∈ nodes_t.
Proof.
  intros (_ & Hn & _)%accumulate_lookup. rewrite Hn, elem_of_nodes_of.
  intros [(? & ? & ? & E & Hin & _)|[(? & ? & E)|(? & E)]]%events_shape;
    [|done|done].
  now injection E as <- <- <-.
Qed.

(** An accumulator is never empty: it has a node under one of the four
    node categories, or a shared intron, or the splicing flag. *)
Lemma accumulate_nonempty idx tree t nodes_t r m :
  accumulate cmp_strand idx tree t nodes_t !! r = Some m →
  nodes m SAME_STRAND ≠ [] ∨ nodes m OPP_STRAND ≠ []
  ∨ nodes m INTRONIC_SAME_STRAND ≠ [] ∨ nodes m INTRONIC_OPP_STRAND ≠ []
  ∨ introns m ≠ [] ∨ splicing m = true.
Proof.
  intros (Ht & Hn & Hi & Hs)%accumulate_lookup.
  apply touched_elem in Ht as (e & He & Hid).
  destruct (events_shape _ _ _ _ _ He)
    as [(r' & c & n & -> & _ & Hc)|[(r' & i & ->)|(r' & ->)]];
    simpl in Hid; subst r'.
  - assert (Hin : n ∈ nodes m c) by now rewrite Hn, elem_of_nodes_of.
    assert (Hne : nodes m c ≠ []).
    { intros E. rewrite E in Hin. by apply elem_of_nil in Hin. }
    destruct Hc as [-> | [-> | [-> | ->]]]; tauto.
  - assert (Hin : i ∈ introns m) by now rewrite Hi, elem_of_introns_of.
    right. right. right. right. left.
    intros E. rewrite E in Hin. by apply elem_of_nil in Hin.
  - right. right. right. right. right.
    rewrite Hs. now apply splicing_of_true.
Qed.
End EventShape.

(** With nodes of positive length, a bucket without bp is empty. *)
Lemma bucket_without_bp_empty cmp_strand idx tree t nodes_t r m c :
  accumulate cmp_strand idx tree t nodes_t !! r = Some m →
  Forall (fun n : Node => n.1 < n.2) nodes_t →
  sum_bp (nodes m c) ≤ 0 → nodes m c = [].
Proof.
  intros Hm Hpos Hbp.
  destruct (nodes m c) as [|n l] eqn:E; [done|].
  assert (0 < sum_bp (n :: l)); [|lia].
  apply sum_bp_pos; [|done]. rewrite <- E.
  apply Forall_forall. intros n' Hn'.
  apply (proj1 (Forall_forall _ _) Hpos).
  now apply (accumulate_nodes_incl _ _ _ _ _ _ _ _ _ Hm Hn').
Qed.

(** An accumulator without exonic nodes, shared introns and splicing match
    has an intronic node. *)
Lemma accumulate_intronic_node cmp_strand idx tree t nodes_t r m :
  accumulate cmp_strand idx tree t nodes_t !! r = Some m →
  splicing m = false → introns m = [] →
  nodes m SAME_STRAND = [] → nodes m OPP_STRAND = [] →
  (0 < Datatypes.length (nodes m INTRONIC_SAME_STRAND)
       + Datatypes.length (nodes m INTRONIC_OPP_STRAND))%nat.
Proof.
  intros Hm Hs Hi H1 H2.
  destruct (accumulate_nonempty _ _ _ _ _ _ _ Hm)
    as [H|[H|[H|[H|[H|H]]]]]; try congruence.
  - destruct (nodes m INTRONIC_SAME_STRAND); [done|simpl; lia].
  - destruct (nodes m INTRONIC_OPP_STRAND); [done|simpl; lia].
Qed.

(** With nodes of positive length, the classifier assigns a category to
    every accumulator: no assertion fails. *)
Lemma decide_category_total cmp_strand idx tree t nodes_t r m :
  accumulate cmp_strand idx tree t nodes_t !! r = Some m →
  Forall (fun n : Node => n.1 < n.2) nodes_t →
  ∃ c, decide_category m (Datatypes.length nodes_t)
         (sum_bp (nodes m SAME_STRAND)) (sum_bp (nodes m OPP_STRAND))
         (Datatypes.length (introns m)) = Ok c.
Proof.
  intros Hm Hpos. unfold decide_category.
  destruct (splicing m) eqn:Hs; simpl; [eauto|].
  destruct (introns m) as [|i l] eqn:Hi; simpl; [|eauto].
  destruct (0 <? sum_bp (nodes m SAME_STRAND)) eqn:Hsb; [eauto|].
  destruct (0 <? sum_bp (nodes m OPP_STRAND)) eqn:Hob; [eauto|].
  apply Z.ltb_ge in Hsb, Hob.
  pose proof (bucket_without_bp_empty _ _ _ _ _ _ _ _ Hm Hpos Hsb) as H1.
  pose proof (bucket_without_bp_empty _ _ _ _ _ _ _ _ Hm Hpos Hob) as H2.
  pose proof (accumulate_intronic_node _ _ _ _ _ _ _ Hm Hs Hi H1 H2) as Hint.
  rewrite H1, H2. simpl.
  apply Nat.ltb_lt in Hint. rewrite Hint. simpl.
  repeat match goal with
         | |- context [if ?b then _ else _] => destruct b
         end; eauto.
Qed.

(** C8: (1) in the branch without exonic overlap, no splicing match, no
    shared intron, no same-strand and no opposite-strand bp, an accumulator
    with no same-strand node, no opposite-strand node and no intronic node
    makes the classifier raise [AssertionError]; (2) an accumulator built by
    the classifier that is in this branch and has passed the first two
    assertions has at least one intronic node; and (3) when the nodes of the
    test transcript have positive length the first two assertions hold as
    well, so an intronic node exists and a category is assigned. *)
Theorem no_overlap_branch_has_intronic_node :
  (∀ (m : Match) (num_nodes : nat) (same_strand_bp opp_strand_bp : Z),
     splicing m = false → same_strand_bp ≤ 0 → opp_strand_bp ≤ 0 →
     nodes m SAME_STRAND = [] → nodes m OPP_STRAND = [] →
     nodes m INTRONIC_SAME_STRAND = [] → nodes m INTRONIC_OPP_STRAND = [] →
     decide_category m num_nodes same_strand_bp opp_strand_bp 0
     = Raise AssertionError)
  ∧ (∀ (cmp_strand : Z → Z → bool) (idx : RefIndex)
       (tree : IntervalTree.t Z (list Transcript)) (t : Transcript)
       (nodes_t : list Node) (r : string) (m : Match),
       accumulate cmp_strand idx tree t nodes_t !! r = Some m →
       splicing m = false → introns m = [] →
       sum_bp (nodes m SAME_STRAND) ≤ 0 → sum_bp (nodes m OPP_STRAND) ≤ 0 →
       (nodes m SAME_STRAND = [] → nodes m OPP_STRAND = [] →
        (0 < Datatypes.length (nodes m INTRONIC_SAME_STRAND)
             + Datatypes.length (nodes m INTRONIC_OPP_STRAND))%nat)
       ∧ (Forall (fun n : Node => n.1 < n.2) nodes_t →
          nodes m SAME_STRAND = [] ∧ nodes m OPP_STRAND = []
          ∧ (0 < Datatypes.length (nodes m INTRONIC_SAME_STRAND)
                 + Datatypes.length (nodes m INTRONIC_OPP_STRAND))%nat
          ∧ ∃ c, decide_category m (Datatypes.length nodes_t)
                   (sum_bp (nodes m SAME_STRAND)) (sum_bp (nodes m OPP_STRAND))
                   (Datatypes.length (introns m)) = Ok c)).
Proof.
  split.
  - intros m num_nodes sbp obp Hs Hsb Hob H1 H2 H3 H4.
    unfold decide_category. rewrite Hs, H1, H2, H3, H4. simpl.
    replace (0 <? sbp) with false by (symmetry; apply Z.ltb_ge; lia).
    replace (0 <? obp) with false by (symmetry; apply Z.ltb_ge; lia).
    reflexivity.
  - intros cmp_strand idx tree t nodes_t r m Hm Hs Hi Hsb Hob.
    split; [now apply (accumulate_intronic_node _ _ _ _ _ _ _ Hm)|].
    intros Hpos.
    pose proof (bucket_without_bp_empty _ _ _ _ _ _ _ _ Hm Hpos Hsb) as H1.
    pose proof (bucket_without_bp_empty _ _ _ _ _ _ _ _ Hm Hpos Hob) as H2.
    split; [done|]. split; [done|].
    split; [now apply (accumulate_intronic_node _ _ _ _ _ _ _ Hm)|].
    now apply (decide_category_total _ _ _ _ _ _ _ Hm).
Qed.

Lemma no_overlap_branch_has_intronic_node_witness :
  decide_category Match_new 1 0 0 0 = Raise AssertionError
  ∧ accumulate Z.eqb (Examples.index Examples.locus_intronic)
      (Examples.tree Examples.locus_intronic) Examples.T_intronic
      (split_exons Examples.T_intronic
         (Examples.boundaries Examples.locus_intronic)) !! "R1"
    = Some (Examples.match_of Examples.locus_intronic Examples.T_intronic "R1")
  ∧ Forall (fun n : Node => n.1 < n.2)
      (split_exons Examples.T_intronic
         (Examples.boundaries Examples.locus_intronic))
  ∧ (0 < Datatypes.length
           (nodes (Examples.match_of Examples.locus_intronic
                     Examples.T_intronic "R1") INTRONIC_SAME_STRAND)
         + Datatypes.length
             (nodes (Examples.match_of Examples.locus_intronic
                       Examples.T_intronic "R1") INTRONIC_OPP_STRAND))%nat.
Proof.
  destruct no_overlap_branch_has_intronic_node as [Hassert Hacc].
  assert (Hm : accumulate Z.eqb (Examples.index Examples.locus_intronic)
                 (Examples.tree Examples.locus_intronic) Examples.T_intronic
                 (split_exons Examples.T_intronic
                    (Examples.boundaries Examples.locus_intronic)) !! "R1"
               = Some (Examples.match_of Examples.locus_intronic
                         Examples.T_intronic "R1"))
    by (vm_compute; reflexivity).
  assert (Hpos : Forall (fun n : Node => n.1 < n.2)
                   (split_exons Examples.T_intronic
                      (Examples.boundaries Examples.locus_intronic))).
  { vm_compute. repeat constructor. }
  split.
  { apply Hassert; first [reflexivity | vm_compute; discriminate]. }
  split; [exact Hm|]. split; [exact Hpos|].
  destruct (Hacc Z.eqb _ _ _ _ _ _ Hm) as [_ Hwf];
    [reflexivity|reflexivity|vm_compute; discriminate|vm_compute; discriminate|].
  destruct (Hwf Hpos) as (_ & _ & Hint & _). exact Hint.
Defined.

(** ** The nearest-neighbour resolver *)

Lemma foldl_snoc_flat_map {A B C : Type} (g : B → list C) (k : C → A)
    (a : list A) (l : list B) :
  foldl (fun acc x => foldl (fun acc' y => acc' ++ [k y]) acc (g x)) a l
  = a ++ flat_map (fun x => map k (g x)) l.
Proof.
  revert a. induction l as [|x l IH]; intros a; simpl.
  - now rewrite app_nil_r.
  - now rewrite IH, foldl_snoc_map, <- app_assoc.
Qed.

Section FindNearestFacts.
Variable cmp_strand : Z → Z → bool.

Lemma encompassing_features_flat strand hits :
  encompassing_features cmp_strand strand hits
  = flat_map (fun hit => map (encompassing cmp_strand strand) (Interval.value hit)) hits.
Proof.
  unfold encompassing_features.
  now rewrite (foldl_snoc_flat_map Interval.value (encompassing cmp_strand strand)).
Qed.

Lemma nearest_locus_hit_elem start end_ hits hit :
  nearest_locus_hit start end_ hits = Some hit → hit ∈ hits.
Proof.
  unfold nearest_locus_hit.
  assert (Hgen : ∀ (st : option (Interval.t unit (list LocusFeature.t)) * Z),
            (foldl (fun (st : option (Interval.t unit (list LocusFeature.t)) * Z) h =>
                      let dist := Z.min (Z.abs (start - Interval.end_ h))
                                        (Z.abs (Interval.start h - end_)) in
                      if dist <? st.2 then (Some h, dist) else st) st hits).1
            = Some hit →
            st.1 = Some hit ∨ hit ∈ hits).
  { induction hits as [|h hits IH]; intros st; simpl; [by left|].
    intros [Hst|Hin]%IH; [|right; now right].
    destruct (_ <? _); simpl in Hst; [|now left].
    injection Hst as ->. right. left. }
  intros [Hst|Hin]%Hgen; [discriminate|done].
Qed.

Lemma intergenic_features_app start end_ hits acc :
  intergenic_features start end_ hits acc
  = acc ++ match nearest_locus_hit start end_ hits with
           | Some hit => map (intergenic start end_) (Interval.value hit)
           | None => []
           end.
Proof.
  unfold intergenic_features.
  destruct (nearest_locus_hit start end_ hits) as [hit|].
  - now rewrite (foldl_snoc_map (intergenic start end_)).
  - now rewrite app_nil_r.
Qed.
End FindNearestFacts.

(** Folding [pick] over a list returns an element of least measure when
    [closer] compares a measure. *)
Lemma foldl_pick_spec {S V : Type}
    (closer : Interval.t S V → Interval.t S V → bool)
    (g : Interval.t S V → Z) (l : list (Interval.t S V))
    (b0 : option (Interval.t S V)) (hit : Interval.t S V) :
  (∀ x y, closer x y = (g x <? g y)) →
  foldl (IntervalTree.pick closer) b0 l = Some hit →
  (b0 = Some hit ∨ hit ∈ l)
  ∧ ∀ i, b0 = Some i ∨ i ∈ l → g hit ≤ g i.
Proof.
  intros Hg. revert b0. induction l as [|x l IH]; intros b0; simpl.
  - intros ->. split; [by left|].
    intros i [[= ->]|Hi]; [lia|by apply elem_of_nil in Hi].
  - intros [Hin Hbest]%IH. split.
    + destruct Hin as [Hin|Hin]; [|right; now right].
      unfold IntervalTree.pick in Hin. destruct b0 as [b|].
      * destruct (closer x b); injection Hin as <-; [right; left|now left].
      * injection Hin as <-. right. left.
    + intros i Hi. unfold IntervalTree.pick in Hbest.
      destruct Hi as [Hb|[Hx|Hi]%elem_of_cons].
      * rewrite Hb in Hbest. destruct (closer x i) eqn:Ec.
        -- rewrite Hg in Ec. apply Z.ltb_lt in Ec.
           assert (g hit ≤ g x) by (apply Hbest; by left). lia.
        -- apply Hbest. by left.
      * rewrite Hx. destruct b0 as [b|]; [|apply Hbest; by left].
        destruct (closer x b) eqn:Ec; [apply Hbest; by left|].
        rewrite Hg in Ec. apply Z.ltb_ge in Ec.
        assert (g hit ≤ g b) by (apply Hbest; by left). lia.
      * apply Hbest. now right.
Qed.

(** The hit of [before] ends strictly before the position, within
    [max_dist], and no such interval of the tree ends nearer to it. *)
Lemma before_spec {S V : Type} (tree : IntervalTree.t S V)
    (position max_dist : Z) (hit : Interval.t S V) :
  hit ∈ IntervalTree.before tree position max_dist →
  hit ∈ tree ∧ Interval.end_ hit < position
  ∧ position - Interval.end_ hit ≤ max_dist
  ∧ ∀ i, i ∈ tree → Interval.end_ i < position →
         position - Interval.end_ i ≤ max_dist →
         Interval.end_ i ≤ Interval.end_ hit.
Proof.
  unfold IntervalTree.before.
  destruct (foldl _ None _) as [hit'|] eqn:Ef; simpl;
    [|intros H; by apply elem_of_nil in H].
  intros Heq%list_elem_of_singleton. subst hit'.
  apply (foldl_pick_spec _ (fun i => - Interval.end_ i)) in Ef
    as [[Hin|Hin] Hbest]; [done| |].
  - apply list_elem_of_In, filter_In in Hin as [Hin [H1 H2]%andb_prop].
    apply Z.ltb_lt in H1. apply Z.leb_le in H2.
    split; [now apply list_elem_of_In|]. split; [done|]. split; [done|].
    intros i Hi Hlt Hmax.
    assert (- Interval.end_ hit ≤ - Interval.end_ i); [|lia].
    apply Hbest. right. apply list_elem_of_In, filter_In.
    split; [now apply list_elem_of_In|].
    apply andb_true_intro. split; [now apply Z.ltb_lt|now apply Z.leb_le].
  - intros x y. apply eq_true_iff_eq. rewrite !Z.ltb_lt. lia.
Qed.

(** The hit of [after] starts strictly after the position, within
    [max_dist], and no such interval of the tree starts nearer to it. *)
Lemma after_spec {S V : Type} (tree : IntervalTree.t S V)
    (position max_dist : Z) (hit : Interval.t S V) :
  hit ∈ IntervalTree.after tree position max_dist →
  hit ∈ tree ∧ position < Interval.start hit
  ∧ Interval.start hit - position ≤ max_dist
  ∧ ∀ i, i ∈ tree → position < Interval.start i →
         Interval.start i - position ≤ max_dist →
         Interval.start hit ≤ Interval.start i.
Proof.
  unfold IntervalTree.after.
  destruct (foldl _ None _) as [hit'|] eqn:Ef; simpl;
    [|intros H; by apply elem_of_nil in H].
  intros Heq%list_elem_of_singleton. subst hit'.
  apply (foldl_pick_spec _ (fun i => Interval.start i)) in Ef
    as [[Hin|Hin] Hbest]; [done| |].
  - apply list_elem_of_In, filter_In in Hin as [Hin [H1 H2]%andb_prop].
    apply Z.ltb_lt in H1. apply Z.leb_le in H2.
    split; [now apply list_elem_of_In|]. split; [done|]. split; [done|].
    intros i Hi Hlt Hmax.
    apply Hbest. right. apply list_elem_of_In, filter_In.
    split; [now apply list_elem_of_In|].
    apply andb_true_intro. split; [now apply Z.ltb_lt|now apply Z.leb_le].
  - done.
Qed.

Section FindNearestTheorem.
Variable cmp_strand : Z → Z → bool.

Lemma find_nearest_transcripts_flat chrom start end_ strand
    (locus_trees : gmap string LocusTree) :
  let tree := default IntervalTree.empty (locus_trees !! chrom) in
  find_nearest_transcripts cmp_strand chrom start end_ strand locus_trees
  = flat_map (fun hit => map (encompassing cmp_strand strand) (Interval.value hit))
             (IntervalTree.find tree start end_)
    ++ match nearest_locus_hit start end_
               (IntervalTree.before tree start MAX_LOCUS_DIST) with
       | Some hit => map (intergenic start end_) (Interval.value hit)
       | None => []
       end
    ++ match nearest_locus_hit start end_
               (IntervalTree.after tree end_ MAX_LOCUS_DIST) with
       | Some hit => map (intergenic start end_) (Interval.value hit)
       | None => []
       end.
Proof.
  unfold find_nearest_transcripts. simpl.
  now rewrite !intergenic_features_app, encompassing_features_flat, <- app_assoc.
Qed.

(** C7, amended: every transcript of every locus that overlaps the query
    is returned as an ENCOMPASSING match (same or opposite strand) at
    distance 0; and every entry returned is either such a match, or an
    INTERGENIC match for a transcript [f] of the nearest locus that ends
    strictly before [start] or of the nearest locus that starts strictly
    after [end], with the distance [min(|start - f.end|, |f.start - end|)]
    taken from the span of [f] itself. *)
Theorem find_nearest_transcripts_distances (chrom : string)
    (start end_ strand : Z) (locus_trees : gmap string LocusTree) :
  let tree := default IntervalTree.empty (locus_trees !! chrom) in
  let found :=
    find_nearest_transcripts cmp_strand chrom start end_ strand locus_trees in
  (∀ hit f, hit ∈ IntervalTree.find tree start end_ →
            f ∈ Interval.value hit →
            encompassing cmp_strand strand f ∈ found)
  ∧ (∀ f c d, (f, c, d) ∈ found →
       (∃ hit, hit ∈ tree
               ∧ Interval.start hit < end_ ∧ start < Interval.end_ hit
               ∧ f ∈ Interval.value hit
               ∧ (f, c, d) = encompassing cmp_strand strand f)
       ∨ (∃ hit, hit ∈ tree ∧ f ∈ Interval.value hit
                 ∧ (f, c, d) = intergenic start end_ f
                 ∧ ((Interval.end_ hit < start
                     ∧ ∀ i, i ∈ tree → Interval.end_ i < start →
                            start - Interval.end_ i ≤ MAX_LOCUS_DIST →
                            Interval.end_ i ≤ Interval.end_ hit)
                    ∨ (end_ < Interval.start hit
                       ∧ ∀ i, i ∈ tree → end_ < Interval.start i →
                              Interval.start i - end_ ≤ MAX_LOCUS_DIST →
                              Interval.start hit ≤ Interval.start i)))).
Proof.
  intros tree found. unfold found. rewrite find_nearest_transcripts_flat.
  fold tree. split.
  - intros hit f Hhit Hf. apply elem_of_app. left.
    apply list_elem_of_In, in_flat_map. exists hit.
    split; [now apply list_elem_of_In|].
    apply in_map. now apply list_elem_of_In.
  - intros f c d. rewrite !elem_of_app. intros [He|[He|He]].
    + left. apply list_elem_of_In, in_flat_map in He as (hit & Hhit & He).
      apply in_map_iff in He as (f' & He & Hf).
      assert (f' = f) as -> by (unfold encompassing in He; congruence).
      unfold IntervalTree.find in Hhit.
      apply filter_In in Hhit as [Hhit [H1 H2]%andb_prop].
      apply Z.ltb_lt in H1, H2.
      exists hit. rewrite !list_elem_of_In. done.
    + right.
      destruct (nearest_locus_hit _ _ _) as [hit|] eqn:En;
        [|by apply elem_of_nil in He].
      apply nearest_locus_hit_elem, before_spec in En as (Hin & Hlt & _ & Hbest).
      apply list_elem_of_In, in_map_iff in He as (f' & He & Hf).
      assert (f' = f) as -> by (unfold intergenic in He; congruence).
      exists hit. rewrite list_elem_of_In.
      split; [done|]. split; [done|]. split; [done|]. left. done.
    + right.
      destruct (nearest_locus_hit _ _ _) as [hit|] eqn:En;
        [|by apply elem_of_nil in He].
      apply nearest_locus_hit_elem, after_spec in En as (Hin & Hlt & _ & Hbest).
      apply list_elem_of_In, in_map_iff in He as (f' & He & Hf).
      assert (f' = f) as -> by (unfold intergenic in He; congruence).
      exists hit. rewrite list_elem_of_In.
      split; [done|]. split; [done|]. split; [done|]. right. done.
Qed.
End FindNearestTheorem.

(** A transcript of the nearest locus that ends before the locus does is
    returned with the distance to its own end, which is larger than the
    distance to the locus. *)
Lemma intergenic_distance_is_not_locus_distance :
  ¬ intergenic_distance_is_locus_distance.
Proof.
  intros Hclaim.
  destruct (Hclaim Z.eqb "chr1" 1000 1100 0 Examples.locus_trees Examples.F1 800)
    as (hit & Hhit & Hf & Hd).
  { apply list_elem_of_In. vm_compute. tauto. }
  vm_compute in Hhit.
  apply elem_of_cons in Hhit as [->|Hhit];
    [|apply list_elem_of_singleton in Hhit as ->]; vm_compute in Hd; discriminate.
Qed.

Lemma find_nearest_transcripts_distances_witness :
  encompassing Z.eqb 0 Examples.F2
    ∈ find_nearest_transcripts Z.eqb "chr1" 400 450 0 Examples.locus_trees
  ∧ ∃ hit, hit ∈ Examples.locus_tree ∧ Examples.F1 ∈ Interval.value hit
           ∧ (Examples.F1, INTERGENIC, 800) = intergenic 1000 1100 Examples.F1.
Proof.
  pose proof (find_nearest_transcripts_distances Z.eqb "chr1" 400 450 0
                Examples.locus_trees) as [Henc _].
  pose proof (find_nearest_transcripts_distances Z.eqb "chr1" 1000 1100 0
                Examples.locus_trees) as [_ Hall].
  split.
  - apply (Henc (Interval.mk 100 500 tt [Examples.F1; Examples.F2])).
    + apply list_elem_of_In. vm_compute. tauto.
    + apply list_elem_of_In. vm_compute. tauto.
  - destruct (Hall Examples.F1 INTERGENIC 800) as [(hit & _ & _ & _ & _ & He)|(hit & Hin & Hf & He & _)].
    + apply list_elem_of_In. vm_compute. tauto.
    + discriminate He.
    + exists hit. done.
Defined.

(** ** Counting the shared introns *)

Lemma occ_le_1 `{EqDecision K} (k : K) (l : list K) :
  NoDup l → (occ k l ≤ 1)%nat.
Proof.
  unfold occ. induction l as [|x l IH]; simpl; [lia|].
  intros [Hx Hl]%NoDup_cons. specialize (IH Hl).
  case_bool_decide as E; simpl; [|done].
  subst x.
  assert (List.filter (fun k' => bool_decide (k' = k)) l = []) as ->; [|simpl; lia].
  destruct (List.filter _ l) as [|y l'] eqn:Ef; [done|].
  assert (Hy : In y (List.filter (fun k' => bool_decide (k' = k)) l))
    by (rewrite Ef; now left).
  apply filter_In in Hy as [Hy E]. apply bool_decide_eq_true in E. subst y.
  now apply list_elem_of_In in Hy.
Qed.

Lemma occ_pos `{EqDecision K} (k : K) (l : list K) :
  (0 < occ k l)%nat ↔ k ∈ l.
Proof.
  unfold occ. split.
  - destruct (List.filter _ l) as [|y l'] eqn:Ef; [simpl; lia|]. intros _.
    assert (Hy : In y (List.filter (fun k' => bool_decide (k' = k)) l))
      by (rewrite Ef; now left).
    apply filter_In in Hy as [Hy E]. apply bool_decide_eq_true in E. subst y.
    now apply list_elem_of_In.
  - intros Hk.
    assert (Hy : In k (List.filter (fun k' => bool_decide (k' = k)) l)).
    { apply filter_In. split; [now apply list_elem_of_In|].
      now apply bool_decide_eq_true. }
    destruct (List.filter _ l); [done|simpl; lia].
Qed.

Lemma count_id_app r l1 l2 :
  count_id r (l1 ++ l2) = (count_id r l1 + count_id r l2)%nat.
Proof. unfold count_id. now rewrite List.filter_app, length_app. Qed.

Lemma count_id_pos r refs :
  (0 < count_id r refs)%nat ↔ ∃ ref, ref ∈ refs ∧ attr_transcript_id ref = r.
Proof.
  unfold count_id. split.
  - destruct (List.filter _ refs) as [|y l'] eqn:Ef; [simpl; lia|]. intros _.
    assert (Hy : In y (List.filter
                         (fun ref => bool_decide (attr_transcript_id ref = r)) refs))
      by (rewrite Ef; now left).
    apply filter_In in Hy as [Hy E]. apply bool_decide_eq_true in E.
    exists y. now rewrite list_elem_of_In.
  - intros (ref & Hin & Hid).
    assert (Hy : In ref (List.filter
                           (fun ref => bool_decide (attr_transcript_id ref = r)) refs)).
    { apply filter_In. split; [now apply list_elem_of_In|].
      now apply bool_decide_eq_true. }
    destruct (List.filter _ refs); [done|simpl; lia].
Qed.

(** The owners of a key that have the id of [t], among the keys of [t]
    itself. *)
Lemma count_id_own `{EqDecision K} (k : K) (keys : list K) (t : Transcript) :
  count_id (attr_transcript_id t)
    (flat_map (fun k' => if bool_decide (k' = k) then [t] else []) keys)
  = occ k keys.
Proof.
  unfold count_id, occ. induction keys as [|k' keys IH]; simpl; [done|].
  rewrite List.filter_app, length_app, IH.
  case_bool_decide as E; simpl; [|done].
  now rewrite bool_decide_true.
Qed.

Lemma count_id_other `{EqDecision K} (k : K) (keys : list K) (t : Transcript) r :
  attr_transcript_id t ≠ r →
  count_id r (flat_map (fun k' => if bool_decide (k' = k) then [t] else []) keys)
  = 0%nat.
Proof.
  intros Hne. unfold count_id. induction keys as [|k' keys IH]; simpl; [done|].
  rewrite List.filter_app, length_app, IH.
  case_bool_decide as E; simpl; [|done].
  now rewrite bool_decide_false.
Qed.

Lemma count_id_owners_gen `{EqDecision K} (keys : Transcript → list K) (k : K)
    (refs : list Transcript) (ref : Transcript) :
  NoDup (map attr_transcript_id refs) → ref ∈ refs →
  count_id (attr_transcript_id ref)
    (flat_map (fun t =>
                 flat_map (fun k' => if bool_decide (k' = k) then [t] else [])
                          (keys t)) refs)
  = occ k (keys ref).
Proof.
  induction refs as [|t refs IH]; simpl.
  - intros _ Hin. by apply elem_of_nil in Hin.
  - intros [Hnot Hnd]%NoDup_cons Hin. rewrite count_id_app.
    assert (Hrest : ∀ t', t' ∈ refs →
                          attr_transcript_id t' ≠ attr_transcript_id t).
    { intros t' Ht' E. apply Hnot. rewrite <- E.
      apply list_elem_of_In, in_map. now apply list_elem_of_In. }
    apply elem_of_cons in Hin as [->|Hin].
    + rewrite count_id_own.
      assert (Hz : count_id (attr_transcript_id t)
                     (flat_map (fun t0 =>
                        flat_map (fun k' => if bool_decide (k' = k) then [t0] else [])
                                 (keys t0)) refs) = 0%nat); [|lia].
      clear IH Hnot Hnd. induction refs as [|t' refs IH]; simpl; [done|].
      rewrite count_id_app, count_id_other, IH.
      * done.
      * intros t'' Ht''. apply Hrest. now right.
      * apply Hrest. left.
    + rewrite count_id_other by (apply not_eq_sym, Hrest, Hin).
      now rewrite IH.
Qed.

(** With distinct reference ids, the owners of a key that have the id of a
    reference are this reference, once for each occurrence of the key among
    its keys. *)
Lemma count_id_owners `{EqDecision K} (keys : Transcript → list K) (k : K)
    (ts : list Transcript) (ref : Transcript) :
  unique_ref_ids ts → ref ∈ ts → is_ref ref = true →
  count_id (attr_transcript_id ref) (owners_of keys k ts) = occ k (keys ref).
Proof.
  intros Hu Hin Hr. unfold owners_of. apply count_id_owners_gen; [done|].
  apply list_elem_of_In, filter_In. now rewrite <- list_elem_of_In.
Qed.

Lemma introns_of_app r l1 l2 :
  introns_of r (l1 ++ l2) = introns_of r l1 ++ introns_of r l2.
Proof. unfold introns_of. apply flat_map_app. Qed.

Lemma nodes_of_app r c l1 l2 :
  nodes_of r c (l1 ++ l2) = nodes_of r c l1 ++ nodes_of r c l2.
Proof. unfold nodes_of. apply flat_map_app. Qed.

Lemma intronic_count_app r l1 l2 :
  intronic_count r (l1 ++ l2)
  = (intronic_count r l1 + intronic_count r l2)%nat.
Proof. unfold intronic_count. rewrite !nodes_of_app, !length_app. lia. Qed.

Lemma introns_of_add_intron r i refs :
  Datatypes.length
    (introns_of r (map (fun ref => AddIntron (attr_transcript_id ref) i) refs))
  = count_id r refs.
Proof.
  unfold introns_of, count_id. induction refs as [|ref refs IH]; simpl; [done|].
  rewrite length_app, IH. now case_bool_decide.
Qed.

Lemma introns_of_no_intron r evs :
  (∀ e, e ∈ evs → ∀ r' i, e ≠ AddIntron r' i) → introns_of r evs = [].
Proof.
  unfold introns_of. induction evs as [|e evs IH]; simpl; [done|].
  intros Hall. rewrite IH by (intros e' He'; apply Hall; now right).
  destruct e as [r' c n|r' i|r']; try done.
  exfalso. apply (Hall (AddIntron r' i) ltac:(left) r' i). done.
Qed.

(** ** Introns of well-formed transcripts *)

Lemma iterintrons_from_length e1 rest :
  Datatypes.length (iterintrons_from e1 rest) = Datatypes.length rest.
Proof. revert e1. induction rest as [|e2 rest IH]; intros e1; simpl; auto. Qed.

Lemma iterintrons_length t :
  Datatypes.length (iterintrons t) = Nat.pred (Datatypes.length (exons t)).
Proof.
  unfold iterintrons. destruct (exons t) as [|e1 rest]; [done|].
  simpl. apply iterintrons_from_length.
Qed.

Lemma transcript_introns_length t :
  Datatypes.length (transcript_introns t)
  = Nat.pred (Datatypes.length (exons t)).
Proof. unfold transcript_introns. now rewrite length_map, iterintrons_length. Qed.

(** An intron starts where an exon ends and ends where the next exon
    starts. *)
Lemma iterintrons_from_bounds e1 rest i :
  exons_sorted_from e1 rest = true → i ∈ iterintrons_from e1 rest →
  e1.2 ≤ i.1 ∧ i.1 ≤ i.2.
Proof.
  revert e1. induction rest as [|e2 rest IH]; intros e1; simpl.
  - intros _ Hi. by apply elem_of_nil in Hi.
  - intros [H1 [H2 H3]%andb_prop]%andb_prop.
    apply Z.ltb_lt in H1. apply Z.leb_le in H2.
    intros [->|Hi]%elem_of_cons; simpl; [lia|].
    destruct (IH e2 H3 Hi) as [Ha Hb].
    assert (e2.1 < e2.2).
    { destruct rest; simpl in H3; apply andb_prop in H3 as [H3 _];
        now apply Z.ltb_lt in H3. }
    lia.
Qed.

(** Two introns of a well-formed exon list are the same intron or lie
    strictly apart. *)
Lemma iterintrons_from_separated e1 rest i j :
  exons_sorted_from e1 rest = true →
  i ∈ iterintrons_from e1 rest → j ∈ iterintrons_from e1 rest →
  i = j ∨ i.2 < j.1 ∨ j.2 < i.1.
Proof.
  revert e1. induction rest as [|e2 rest IH]; intros e1; simpl.
  - intros _ Hi. by apply elem_of_nil in Hi.
  - intros [H1 [H2 H3]%andb_prop]%andb_prop.
    assert (He2 : e2.1 < e2.2).
    { destruct rest; simpl in H3; apply andb_prop in H3 as [H3 _];
        now apply Z.ltb_lt in H3. }
    intros [->|Hi]%elem_of_cons [->|Hj]%elem_of_cons; simpl.
    + by left.
    + destruct (iterintrons_from_bounds _ _ _ H3 Hj). right. left. lia.
    + destruct (iterintrons_from_bounds _ _ _ H3 Hi). right. right. lia.
    + now apply (IH e2).
Qed.

Lemma iterintrons_from_NoDup e1 rest :
  exons_sorted_from e1 rest = true → NoDup (iterintrons_from e1 rest).
Proof.
  revert e1. induction rest as [|e2 rest IH]; intros e1; simpl.
  - intros _. constructor.
  - intros [H1 [H2 H3]%andb_prop]%andb_prop.
    assert (He2 : e2.1 < e2.2).
    { destruct rest; simpl in H3; apply andb_prop in H3 as [H3 _];
        now apply Z.ltb_lt in H3. }
    apply NoDup_cons. split; [|now apply IH].
    intros Hin. destruct (iterintrons_from_bounds _ _ _ H3 Hin) as [Ha Hb].
    simpl in Ha. lia.
Qed.

Lemma well_formed_introns_separated t i j :
  well_formed t = true → i ∈ iterintrons t → j ∈ iterintrons t →
  i = j ∨ i.2 < j.1 ∨ j.2 < i.1.
Proof.
  unfold well_formed, iterintrons. destruct (exons t) as [|e1 rest]; [done|].
  apply iterintrons_from_separated.
Qed.

Lemma well_formed_introns_NoDup t :
  well_formed t = true → NoDup (transcript_introns t).
Proof.
  intros Hwf. unfold transcript_introns.
  apply NoDup_fmap_2.
  - intros [s e] [s' e'] [=]. now subst.
  - revert Hwf. unfold well_formed, iterintrons.
    destruct (exons t) as [|e1 rest]; [done|].
    apply iterintrons_from_NoDup.
Qed.

Lemma well_formed_exons t : well_formed t = true → exons t ≠ [].
Proof. unfold well_formed. now destruct (exons t). Qed.

(** The bounds of an intron are exon coordinates of its transcript. *)
Lemma iterintrons_from_coords e1 rest i :
  i ∈ iterintrons_from e1 rest →
  i.1 ∈ concat (map (fun e : Exon => [e.1; e.2]) (e1 :: rest))
  ∧ i.2 ∈ concat (map (fun e : Exon => [e.1; e.2]) (e1 :: rest)).
Proof.
  revert e1. induction rest as [|e2 rest IH]; intros e1; simpl.
  - intros Hi. by apply elem_of_nil in Hi.
  - intros [->|Hi]%elem_of_cons; simpl.
    + split; [right; left|right; right; left].
    + destruct (IH e2 Hi) as [Ha Hb]. simpl in Ha, Hb.
      split; right; right; done.
Qed.

Lemma iterintrons_coords t i :
  i ∈ iterintrons t → i.1 ∈ exon_coords t ∧ i.2 ∈ exon_coords t.
Proof.
  unfold iterintrons, exon_coords. destruct (exons t) as [|e1 rest].
  - intros Hi. by apply elem_of_nil in Hi.
  - apply iterintrons_from_coords.
Qed.

(** ** The divisor of the intron fraction *)

Lemma sum_list_with_le_length {A : Type} (f : A → nat) (l : list A) :
  (∀ x, x ∈ l → (f x ≤ 1)%nat) → (sum_list_with f l ≤ Datatypes.length l)%nat.
Proof.
  induction l as [|x l IH]; simpl; [lia|]. intros Hall.
  assert (f x ≤ 1)%nat by (apply Hall; left).
  assert (sum_list_with f l ≤ Datatypes.length l)%nat
    by (apply IH; intros y Hy; apply Hall; now right).
  lia.
Qed.

Lemma sum_list_with_pos {A : Type} (f : A → nat) (l : list A) :
  (0 < sum_list_with f l)%nat → ∃ x, x ∈ l ∧ (0 < f x)%nat.
Proof.
  induction l as [|x l IH]; simpl; [lia|]. intros Hs.
  destruct (f x) as [|k] eqn:Ef.
  - destruct IH as (y & Hy & Hfy); [lia|]. exists y. split; [now right|done].
  - exists x. split; [left|lia].
Qed.

(** When every term is at most one, the sum is the length exactly when every
    term is one. *)
Lemma sum_list_with_eq_length {A : Type} (f : A → nat) (l : list A) :
  (∀ x, x ∈ l → (f x ≤ 1)%nat) →
  sum_list_with f l = Datatypes.length l ↔ ∀ x, x ∈ l → f x = 1%nat.
Proof.
  induction l as [|x l IH]; simpl.
  - intros _. split; [|done]. intros _ x Hx. by apply elem_of_nil in Hx.
  - intros Hall.
    assert (Hx : (f x ≤ 1)%nat) by (apply Hall; left).
    assert (Hl : ∀ y, y ∈ l → (f y ≤ 1)%nat)
      by (intros y Hy; apply Hall; now right).
    pose proof (sum_list_with_le_length f l Hl) as Hle.
    specialize (IH Hl). split.
    + intros Hs y [->|Hy]%elem_of_cons; [lia|].
      apply IH; [lia|done].
    + intros Hone.
      assert (f x = 1%nat) by (apply Hone; left).
      assert (sum_list_with f l = Datatypes.length l)
        by (apply IH; intros y Hy; apply Hone; now right).
      lia.
Qed.

Section SharedIntrons.
Variable cmp_strand : Z → Z → bool.
Variable ts : list Transcript.

Local Abbreviation boundaries := (find_exon_boundaries ts).
Local Abbreviation idx := (build_index boundaries ts).
Local Abbreviation tree := (build_intron_tree (ref_intron_dict idx)).

Lemma introns_of_intron_events r (introns_t : list Intron) :
  Datatypes.length (introns_of r (intron_events idx introns_t))
  = sum_list_with
      (fun i => count_id r (owners_of transcript_introns i ts)) introns_t.
Proof.
  unfold intron_events. induction introns_t as [|i l IH]; simpl; [done|].
  rewrite introns_of_app, length_app, IH, introns_of_add_intron.
  now rewrite build_index_intron_dict.
Qed.

(** The shared introns recorded for a reference: one for every intron of the
    test transcript and every owner of this intron that has the reference's
    id. *)
Lemma introns_of_events r t nodes_t :
  Datatypes.length (introns_of r (events cmp_strand idx tree t nodes_t))
  = sum_list_with
      (fun i => count_id r (owners_of transcript_introns i ts))
      (transcript_introns t).
Proof.
  unfold events. rewrite !introns_of_app, !length_app.
  rewrite introns_of_intron_events.
  rewrite (introns_of_no_intron r (flat_map _ _)).
  - rewrite (introns_of_no_intron r (splicing_events _ _)); [simpl; lia|].
    intros e He r' i ->. unfold splicing_events in He.
    destruct (0 <? _)%nat; [|by apply elem_of_nil in He].
    now apply list_elem_of_In, in_map_iff in He as (? & ? & _).
  - intros e He r' i ->.
    apply list_elem_of_In, in_flat_map in He as (n & _ & He).
    unfold node_events, exact_events, intronic_events, hit_events in He.
    apply in_app_or in He as [He|He].
    + now apply in_map_iff in He as (? & ? & _).
    + apply in_flat_map in He as (hit & _ & He).
      now apply in_map_iff in He as (? & ? & _).
Qed.

(** C9: when the reference ids of the locus are pairwise distinct and its
    reference transcripts are well formed, every [MatchStats] created by the
    classifier with [num_introns + ref_num_introns ≠ 0] has
    [0 ≤ shared_introns < num_introns + ref_num_introns], so that the divisor
    [total_introns - shared_introns] of [intron_frac] is not zero. *)
Theorem intron_frac_divisor_nonzero (st st1 : State) (t : Transcript)
    (stats : list addr) (a : addr) :
  unique_ref_ids ts →
  (∀ ref, ref ∈ ts → is_ref ref = true → well_formed ref = true) →
  classify_transcript cmp_strand boundaries idx tree st t = Ok (st1, stats) →
  a ∈ stats →
  MatchStats.num_introns (st1.1 a) + MatchStats.ref_num_introns (st1.1 a) ≠ 0 →
  0 ≤ MatchStats.shared_introns (st1.1 a)
      < MatchStats.num_introns (st1.1 a) + MatchStats.ref_num_introns (st1.1 a)
  ∧ MatchStats.num_introns (st1.1 a) + MatchStats.ref_num_introns (st1.1 a)
    - MatchStats.shared_introns (st1.1 a) ≠ 0.
Proof.
  intros Hu Hwf Hc Ha. destruct st as [h next].
  destruct (classify_transcript_rows _ _ _ _ _ _ _ _ _ Hc)
    as (_ & _ & _ & Hrow & _).
  destruct (Hrow a Ha) as (r & m & Hm & Hf).
  apply finalize_inv in Hf
    as (ref & c & Hd & _ & _ & _ & _ & -> & -> & -> & _).
  apply build_index_ref_dict in Hd as (Hin & Hr & <-).
  pose proof (Hwf ref Hin Hr) as Hwfr.
  pose proof (accumulate_lookup _ _ _ _ _ _ _ Hm) as (Ht & _ & Hi & _).
  cbv zeta in Hi. rewrite Hi, introns_of_events.
  set (f := fun i => count_id (attr_transcript_id ref)
                       (owners_of transcript_introns i ts)).
  assert (Hf1 : ∀ i, f i = occ i (transcript_introns ref)).
  { intros i. unfold f. now apply count_id_owners. }
  assert (Hle : (sum_list_with f (transcript_introns t)
                 ≤ Datatypes.length (transcript_introns t))%nat).
  { apply sum_list_with_le_length. intros i _. rewrite Hf1.
    apply occ_le_1. now apply well_formed_introns_NoDup. }
  rewrite transcript_introns_length in Hle.
  (* the test transcript has an exon, or it would have no match *)
  assert (Het : exons t ≠ []).
  { intros E. apply touched_elem in Ht as (e & He & _).
    unfold events, split_exons, transcript_introns, iterintrons in He.
    rewrite E in He. simpl in He. by apply elem_of_nil in He. }
  pose proof (well_formed_exons _ Hwfr) as Her.
  assert (Hlt : (0 < Datatypes.length (exons t))%nat)
    by (destruct (exons t); [done|simpl; lia]).
  assert (Hlr : (0 < Datatypes.length (exons ref))%nat)
    by (destruct (exons ref); [done|simpl; lia]).
  intros Htotal.
  destruct (sum_list_with f (transcript_introns t)) as [|k] eqn:Es.
  - simpl. lia.
  - assert (Hpos : (0 < sum_list_with f (transcript_introns t))%nat) by lia.
    apply sum_list_with_pos in Hpos as (i & _ & Hfi).
    rewrite Hf1 in Hfi. apply occ_pos in Hfi.
    assert (Hnr : (0 < Datatypes.length (transcript_introns ref))%nat).
    { destruct (transcript_introns ref); [by apply elem_of_nil in Hfi|simpl; lia]. }
    rewrite transcript_introns_length in Hnr. lia.
Qed.
End SharedIntrons.

Lemma intron_frac_divisor_nonzero_witness :
  unique_ref_ids Examples.locus_spliced
  ∧ (∀ ref, ref ∈ Examples.locus_spliced → is_ref ref = true →
            well_formed ref = true)
  ∧ classify_transcript Z.eqb (Examples.boundaries Examples.locus_spliced)
      (Examples.index Examples.locus_spliced)
      (Examples.tree Examples.locus_spliced) Examples.st0 Examples.T_spliced
    = Ok (Examples.classified Examples.locus_spliced Examples.T_spliced)
  ∧ 0 ≤ MatchStats.shared_introns
          ((Examples.classified Examples.locus_spliced Examples.T_spliced).1.1
             0%nat) < 2
  ∧ 2 - MatchStats.shared_introns
          ((Examples.classified Examples.locus_spliced Examples.T_spliced).1.1
             0%nat) ≠ 0.
Proof.
  assert (H1 : unique_ref_ids Examples.locus_spliced).
  { unfold unique_ref_ids. simpl. apply NoDup_singleton. }
  assert (H2 : ∀ ref, ref ∈ Examples.locus_spliced → is_ref ref = true →
                      well_formed ref = true).
  { intros ref [->|[->|Hin]%elem_of_cons]%elem_of_cons Hr;
      [reflexivity|discriminate Hr|by apply elem_of_nil in Hin]. }
  assert (H3 : classify_transcript Z.eqb
                 (Examples.boundaries Examples.locus_spliced)
                 (Examples.index Examples.locus_spliced)
                 (Examples.tree Examples.locus_spliced)
                 Examples.st0 Examples.T_spliced
               = Ok (Examples.classified Examples.locus_spliced
                       Examples.T_spliced))
    by (vm_compute; reflexivity).
  assert (H4 : 0%nat ∈ (Examples.classified Examples.locus_spliced
                          Examples.T_spliced).2).
  { apply list_elem_of_In. vm_compute. tauto. }
  split; [exact H1|]. split; [exact H2|]. split; [exact H3|].
  refine (intron_frac_divisor_nonzero Z.eqb Examples.locus_spliced
            Examples.st0 _ Examples.T_spliced _ 0%nat H1 H2 _ H4 _).
  - destruct (Examples.classified Examples.locus_spliced Examples.T_spliced)
      eqn:E. exact H3.
  - vm_compute. discriminate.
Defined.

(** With two references under one transcript id that both have the intron
    of the test transcript, line 211 records the intron once for each of
    them: [shared_introns] is 2, the test transcript and the reference kept
    by [ref_dict] have one intron each, and the divisor of line 112 is
    zero. *)
Lemma duplicate_reference_id_zero_divisor : ¬ intron_divisor_nonzero_everywhere.
Proof.
  intros Hclaim.
  specialize (Hclaim Z.eqb Examples.locus_twin_spliced Examples.st0).
  destruct (classify_transcript Z.eqb
              (find_exon_boundaries Examples.locus_twin_spliced)
              (build_index (find_exon_boundaries Examples.locus_twin_spliced)
                 Examples.locus_twin_spliced)
              (build_intron_tree
                 (ref_intron_dict
                    (build_index
                       (find_exon_boundaries Examples.locus_twin_spliced)
                       Examples.locus_twin_spliced)))
              Examples.st0 Examples.T_twin) as [[st1 stats]|e] eqn:Hc;
    [|vm_compute in Hc; discriminate].
  specialize (Hclaim st1 Examples.T_twin stats 0%nat).
  cbv zeta in Hclaim.
  specialize (Hclaim ltac:(right; right; left) eq_refl Hc).
  vm_compute in Hc. injection Hc as <- <-.
  apply Hclaim.
  - left.
  - vm_compute. discriminate.
  - vm_compute. reflexivity.
Qed.

(** On this locus [compare_locus] ends with the exception of that
    division, before it yields anything. *)
Lemma duplicate_reference_id_raises :
  compare_locus Z.eqb (PF := QFloat.Q_PyFloat) Examples.st0
    Examples.locus_twin_spliced
  = ([], Some ZeroDivisionError).
Proof. vm_compute. reflexivity. Qed.

(** ** Boundaries and nodes *)

Lemma elem_of_insert_boundary x y l :
  y ∈ insert_boundary x l ↔ y = x ∨ y ∈ l.
Proof.
  induction l as [|z l IH]; simpl.
  - rewrite list_elem_of_singleton. split; [by left|].
    intros [->|H]; [done|by apply elem_of_nil in H].
  - destruct (x <? z) eqn:E1; [now rewrite elem_of_cons|].
    destruct (x =? z) eqn:E2.
    + apply Z.eqb_eq in E2. subst z. rewrite elem_of_cons. tauto.
    + rewrite !elem_of_cons, IH. tauto.
Qed.

Lemma insert_boundary_sorted x l :
  StronglySorted Z.lt l → StronglySorted Z.lt (insert_boundary x l).
Proof.
  induction l as [|z l IH]; simpl; intros Hs.
  - repeat constructor.
  - apply StronglySorted_inv in Hs as [Hs Hz].
    destruct (x <? z) eqn:E1.
    + apply Z.ltb_lt in E1. constructor; [now constructor|].
      constructor; [done|].
      eapply Forall_impl; [exact Hz|]. simpl. intros. lia.
    + destruct (x =? z) eqn:E2; [now constructor|].
      apply Z.ltb_ge in E1. apply Z.eqb_neq in E2.
      constructor; [now apply IH|].
      apply Forall_forall. intros y [->|Hy]%elem_of_insert_boundary; [lia|].
      now apply (proj1 (Forall_forall _ _) Hz).
Qed.

Lemma find_exon_boundaries_sorted ts :
  StronglySorted Z.lt (find_exon_boundaries ts).
Proof.
  unfold find_exon_boundaries.
  induction (concat (map exon_coords ts)) as [|x l IH]; simpl.
  - constructor.
  - now apply insert_boundary_sorted.
Qed.

Lemma elem_of_find_exon_boundaries ts x :
  x ∈ find_exon_boundaries ts ↔ ∃ t, t ∈ ts ∧ x ∈ exon_coords t.
Proof.
  unfold find_exon_boundaries.
  assert (Hfold : ∀ l, x ∈ foldr insert_boundary [] l ↔ x ∈ l).
  { induction l as [|y l IH]; simpl; [done|].
    rewrite elem_of_insert_boundary, elem_of_cons, IH. tauto. }
  rewrite Hfold, list_elem_of_In, in_concat. split.
  - intros (l & Hl & Hx). apply in_map_iff in Hl as (t & <- & Ht).
    exists t. now rewrite !list_elem_of_In.
  - intros (t & Ht & Hx). exists (exon_coords t). split.
    + apply in_map. now apply list_elem_of_In.
    + now apply list_elem_of_In.
Qed.

Lemma filter_StronglySorted {A : Type} (R : A → A → Prop) (f : A → bool) l :
  StronglySorted R l → StronglySorted R (List.filter f l).
Proof.
  induction l as [|x l IH]; simpl; intros Hs; [constructor|].
  apply StronglySorted_inv in Hs as [Hs Hx].
  destruct (f x); [|now apply IH].
  constructor; [now apply IH|].
  apply Forall_forall. intros y Hy%list_elem_of_In%filter_In.
  apply (proj1 (Forall_forall _ _) Hx). now apply list_elem_of_In.
Qed.

(** No cut lies strictly inside a node, and the nodes stay within the
    exon. *)
Lemma chain_nodes (cuts : list Z) (s e : Z) (n : Node) :
  StronglySorted Z.lt cuts → (∀ c, c ∈ cuts → s < c < e) →
  n ∈ zip (s :: cuts) (cuts ++ [e]) →
  s ≤ n.1 ∧ n.2 ≤ e ∧ (s < e → n.1 < n.2)
  ∧ ∀ x, x ∈ cuts → ¬ (n.1 < x < n.2).
Proof.
  revert s. induction cuts as [|c cuts IH]; intros s Hs Hin; simpl.
  - intros ->%list_elem_of_singleton. simpl.
    split; [lia|]. split; [lia|]. split; [done|].
    intros x Hx. by apply elem_of_nil in Hx.
  - apply StronglySorted_inv in Hs as [Hs Hc].
    assert (Hc' : ∀ x, x ∈ cuts → c < x)
      by (intros x Hx; now apply (proj1 (Forall_forall _ _) Hc)).
    assert (Hsc : s < c < e) by (apply Hin; left).
    intros [->|Hn]%elem_of_cons; simpl.
    + split; [lia|]. split; [lia|]. split; [lia|].
      intros x [->|Hx]%elem_of_cons; [lia|]. specialize (Hc' x Hx). lia.
    + destruct (IH c Hs) with (2 := Hn) as (H1 & H2 & H3 & H4).
      { intros x Hx. specialize (Hc' x Hx).
        assert (s < x < e) by (apply Hin; now right). lia. }
      split; [lia|]. split; [lia|]. split; [intros _; apply H3; lia|].
      intros x [->|Hx]%elem_of_cons; [lia|]. now apply H4.
Qed.

(** A node of an exon lies within the exon, has no boundary strictly inside
    it, and has positive length when the exon has. *)
Lemma split_exon_nodes (e : Exon) (boundaries : list Z) (n : Node) :
  StronglySorted Z.lt boundaries → n ∈ split_exon e boundaries →
  e.1 ≤ n.1 ∧ n.2 ≤ e.2 ∧ (e.1 < e.2 → n.1 < n.2)
  ∧ ∀ x, x ∈ boundaries → ¬ (n.1 < x < n.2).
Proof.
  intros Hs Hn. unfold split_exon in Hn.
  set (cuts := List.filter (fun x => (e.1 <? x) && (x <? e.2)) boundaries) in *.
  assert (Hcuts : ∀ c, c ∈ cuts ↔ c ∈ boundaries ∧ e.1 < c < e.2).
  { intros c. unfold cuts. rewrite list_elem_of_In, filter_In, <- list_elem_of_In.
    rewrite andb_true_iff, !Z.ltb_lt. tauto. }
  destruct (chain_nodes cuts e.1 e.2 n) as (H1 & H2 & H3 & H4); [| |done|].
  - now apply filter_StronglySorted.
  - intros c Hc. now apply Hcuts.
  - split; [done|]. split; [done|]. split; [done|].
    intros x Hx Hlt. apply (H4 x); [|done]. apply Hcuts. split; [done|]. lia.
Qed.

Lemma split_exons_nodes (t : Transcript) (boundaries : list Z) (n : Node) :
  StronglySorted Z.lt boundaries → n ∈ split_exons t boundaries →
  (∀ x, x ∈ boundaries → ¬ (n.1 < x < n.2))
  ∧ ∃ e, e ∈ exons t ∧ e.1 ≤ n.1 ∧ n.2 ≤ e.2 ∧ (e.1 < e.2 → n.1 < n.2).
Proof.
  intros Hs Hn. unfold split_exons in Hn.
  apply list_elem_of_In, in_concat in Hn as (l & Hl & Hn).
  apply in_map_iff in Hl as (e & <- & He).
  apply list_elem_of_In in Hn.
  destruct (split_exon_nodes e boundaries n Hs Hn) as (H1 & H2 & H3 & H4).
  split; [done|]. exists e. now rewrite list_elem_of_In.
Qed.

(** The exons of a well-formed transcript have positive length. *)
Lemma well_formed_exon_pos t e :
  well_formed t = true → e ∈ exons t → e.1 < e.2.
Proof.
  unfold well_formed. destruct (exons t) as [|e1 rest]; [done|].
  revert e1. induction rest as [|e2 rest IH]; intros e1; simpl.
  - intros [H _]%andb_prop ->%list_elem_of_singleton. now apply Z.ltb_lt.
  - intros [H1 [_ H3]%andb_prop]%andb_prop [->|He]%elem_of_cons.
    + now apply Z.ltb_lt.
    + now apply (IH e2).
Qed.

(** A node of the locus overlaps at most one intron of a well-formed
    transcript of the locus. *)
Lemma node_overlaps_one_intron ts t ref (n : Node) (i j : Z * Z) :
  n ∈ split_exons t (find_exon_boundaries ts) →
  ref ∈ ts → well_formed ref = true →
  i ∈ iterintrons ref → j ∈ iterintrons ref →
  i.1 < n.2 → n.1 < i.2 → j.1 < n.2 → n.1 < j.2 →
  i = j.
Proof.
  intros Hn Href Hwf Hi Hj Hi1 Hi2 Hj1 Hj2.
  destruct (split_exons_nodes _ _ _ (find_exon_boundaries_sorted ts) Hn)
    as [Hno _].
  destruct (well_formed_introns_separated _ _ _ Hwf Hi Hj) as [E|[Hlt|Hlt]];
    [done| |]; exfalso.
  - apply (Hno i.2); [|lia].
    apply elem_of_find_exon_boundaries. exists ref. split; [done|].
    now apply iterintrons_coords.
  - apply (Hno j.2); [|lia].
    apply elem_of_find_exon_boundaries. exists ref. split; [done|].
    now apply iterintrons_coords.
Qed.

(** ** Counting the intronic nodes *)

Lemma nodes_of_none r c evs :
  (∀ e, e ∈ evs → ∀ r' n, e ≠ AddNode r' c n) → nodes_of r c evs = [].
Proof.
  unfold nodes_of. induction evs as [|e evs IH]; simpl; [done|].
  intros Hall. rewrite IH by (intros e' He'; apply Hall; now right).
  destruct e as [r' c' n|r' i|r']; try done.
  case_bool_decide as Er; simpl; [|done].
  case_bool_decide as Ec; simpl; [|done]. subst c'.
  exfalso. now apply (Hall (AddNode r' c n) ltac:(left) r' n).
Qed.

Lemma intronic_count_none r evs :
  (∀ e, e ∈ evs → ∀ r' n, e ≠ AddNode r' INTRONIC_SAME_STRAND n
                          ∧ e ≠ AddNode r' INTRONIC_OPP_STRAND n) →
  intronic_count r evs = 0%nat.
Proof.
  intros Hall. unfold intronic_count.
  rewrite !nodes_of_none; [done| |]; intros e He r' n; now apply Hall.
Qed.

Lemma intronic_count_flat_map {A : Type} r (g : A → list Event) (l : list A) :
  intronic_count r (flat_map g l)
  = sum_list_with (fun x => intronic_count r (g x)) l.
Proof.
  induction l as [|x l IH]; simpl; [done|].
  now rewrite intronic_count_app, IH.
Qed.

Lemma sum_list_with_ext {A : Type} (f g : A → nat) (l : list A) :
  (∀ x, x ∈ l → f x = g x) → sum_list_with f l = sum_list_with g l.
Proof.
  induction l as [|x l IH]; simpl; [done|]. intros Hall.
  rewrite Hall by left. rewrite IH; [done|].
  intros y Hy. apply Hall. now right.
Qed.

(** A sum of terms that are at most one, of which no two distinct ones are
    positive, is at most one. *)
Lemma sum_list_with_le_1 {A : Type} (f : A → nat) (l : list A) :
  NoDup l → (∀ x, x ∈ l → (f x ≤ 1)%nat) →
  (∀ x y, x ∈ l → y ∈ l → (0 < f x)%nat → (0 < f y)%nat → x = y) →
  (sum_list_with f l ≤ 1)%nat.
Proof.
  induction l as [|x l IH]; simpl; [lia|].
  intros [Hx Hnd]%NoDup_cons Hle Huniq.
  assert (Hfx : (f x ≤ 1)%nat) by (apply Hle; left).
  destruct (f x) as [|k] eqn:Ef.
  - simpl. apply IH; [done| |].
    + intros y Hy. apply Hle. now right.
    + intros y z Hy Hz. apply Huniq; now right.
  - assert (Hz : ∀ y, y ∈ l → f y = 0%nat).
    { intros y Hy. destruct (f y) eqn:Efy; [done|]. exfalso. apply Hx.
      rewrite (Huniq x y); [done|left|now right|lia|lia]. }
    assert (Hs : sum_list_with f l = 0%nat); [|lia].
    clear -Hz. induction l as [|y l IH]; simpl; [done|].
    rewrite Hz by left. rewrite IH; [done|].
    intros z Hz'. apply Hz. now right.
Qed.

Section IntronicCount.
Variable cmp_strand : Z → Z → bool.

Lemma intronic_count_hit_events r t n hit :
  intronic_count r (hit_events cmp_strand t n hit)
  = count_id r (Interval.value hit).
Proof.
  unfold intronic_count, hit_events, nodes_of, count_id.
  induction (Interval.value hit) as [|ref refs IH]; simpl; [done|].
  rewrite !length_app.
  destruct (cmp_strand _ _); case_bool_decide as E; simpl; lia.
Qed.

Lemma intronic_count_exact_events r idx t n :
  intronic_count r (exact_events cmp_strand idx t n) = 0%nat.
Proof.
  apply intronic_count_none. intros e He r' n'.
  unfold exact_events in He.
  apply list_elem_of_In, in_map_iff in He as (ref & <- & _).
  destruct (cmp_strand _ _); split; discriminate.
Qed.

Lemma intronic_count_intronic_events r tree t n :
  intronic_count r (intronic_events cmp_strand tree t n)
  = sum_list_with (fun hit => count_id r (Interval.value hit))
      (IntervalTree.find tree n.1 n.2).
Proof.
  unfold intronic_events. rewrite intronic_count_flat_map.
  apply sum_list_with_ext. intros hit _. apply intronic_count_hit_events.
Qed.

(** The intronic nodes recorded for a reference: one for every node of the
    test transcript, every reference intron that overlaps it and every owner
    of this intron that has the reference's id. *)
Lemma intronic_count_events r idx tree t nodes_t :
  intronic_count r (events cmp_strand idx tree t nodes_t)
  = sum_list_with
      (fun n => intronic_count r (intronic_events cmp_strand tree t n)) nodes_t.
Proof.
  unfold events. rewrite !intronic_count_app, intronic_count_flat_map.
  rewrite (intronic_count_none r (intron_events _ _)).
  - rewrite (intronic_count_none r (splicing_events _ _)).
    + rewrite !Nat.add_0_r. apply sum_list_with_ext. intros n _.
      unfold node_events.
      now rewrite intronic_count_app, intronic_count_exact_events.
    + intros e He r' n'. unfold splicing_events in He.
      destruct (0 <? _)%nat; [|by apply elem_of_nil in He].
      apply list_elem_of_In, in_map_iff in He as (ref & <- & _).
      split; discriminate.
  - intros e He r' n'. unfold intron_events in He.
    apply list_elem_of_In, in_flat_map in He as (i & _ & He).
    apply in_map_iff in He as (ref & <- & _). split; discriminate.
Qed.

(** The events of a node carry this node. *)
Lemma intronic_events_node r c tree t n n' :
  AddNode r c n' ∈ intronic_events cmp_strand tree t n → n' = n.
Proof.
  unfold intronic_events, hit_events.
  intros (hit & _ & He)%list_elem_of_In%in_flat_map.
  apply in_map_iff in He as (ref & E & _). congruence.
Qed.

Lemma exact_events_cat r c idx t n n' :
  AddNode r c n' ∈ exact_events cmp_strand idx t n →
  c = SAME_STRAND ∨ c = OPP_STRAND.
Proof.
  unfold exact_events.
  intros (ref & E & _)%list_elem_of_In%in_map_iff.
  destruct (cmp_strand _ _); injection E as _ <- _; tauto.
Qed.

(** A node is in an intronic bucket of [r] exactly when it is a node of the
    test transcript with an intronic event for [r]. *)
Lemma intronic_bucket_iff r idx tree t nodes_t m n :
  accumulate cmp_strand idx tree t nodes_t !! r = Some m →
  n ∈ nodes_t →
  n ∈ nodes m INTRONIC_SAME_STRAND ++ nodes m INTRONIC_OPP_STRAND
  ↔ (0 < intronic_count r (intronic_events cmp_strand tree t n))%nat.
Proof.
  intros (_ & Hn & _)%accumulate_lookup Hin.
  rewrite elem_of_app, !Hn, !elem_of_nodes_of.
  assert (Hev : ∀ c, c = INTRONIC_SAME_STRAND ∨ c = INTRONIC_OPP_STRAND →
            AddNode r c n ∈ events cmp_strand idx tree t nodes_t
            ↔ AddNode r c n ∈ intronic_events cmp_strand tree t n).
  { intros c Hc. unfold events. rewrite !elem_of_app. split.
    - intros [He|[He|He]].
      + apply list_elem_of_In, in_flat_map in He as (n' & Hn' & He).
        unfold node_events in He. apply in_app_or in He as [He|He].
        * apply list_elem_of_In, exact_events_cat in He.
          destruct Hc as [-> | ->], He as [He|He]; discriminate.
        * apply list_elem_of_In in He.
          pose proof (intronic_events_node _ _ _ _ _ _ He) as E. now subst n'.
      + unfold intron_events in He.
        apply list_elem_of_In, in_flat_map in He as (i & _ & He).
        now apply in_map_iff in He as (ref & ? & _).
      + unfold splicing_events in He.
        destruct (0 <? _)%nat; [|by apply elem_of_nil in He].
        now apply list_elem_of_In, in_map_iff in He as (ref & ? & _).
    - intros He. left. apply list_elem_of_In, in_flat_map. exists n.
      split; [now apply list_elem_of_In|].
      unfold node_events. apply in_or_app. right. now apply list_elem_of_In. }
  rewrite !Hev by tauto.
  unfold intronic_count. rewrite <- !elem_of_nodes_of. split.
  - intros [H|H].
    + destruct (nodes_of r INTRONIC_SAME_STRAND _);
        [by apply elem_of_nil in H|simpl; lia].
    + destruct (nodes_of r INTRONIC_OPP_STRAND _);
        [by apply elem_of_nil in H|simpl; lia].
  - intros Hpos.
    destruct (nodes_of r INTRONIC_SAME_STRAND
                (intronic_events cmp_strand tree t n)) as [|n1 l1] eqn:E1.
    + destruct (nodes_of r INTRONIC_OPP_STRAND
                  (intronic_events cmp_strand tree t n)) as [|n2 l2] eqn:E2;
        [simpl in Hpos; lia|].
      right.
      assert (H2 : n2 ∈ nodes_of r INTRONIC_OPP_STRAND
                          (intronic_events cmp_strand tree t n))
        by (rewrite E2; left).
      pose proof H2 as H2'. apply elem_of_nodes_of, intronic_events_node in H2'.
      subst n2. now rewrite <- E2.
    + left.
      assert (H1 : n1 ∈ nodes_of r INTRONIC_SAME_STRAND
                          (intronic_events cmp_strand tree t n))
        by (rewrite E1; left).
      pose proof H1 as H1'. apply elem_of_nodes_of, intronic_events_node in H1'.
      subst n1. now rewrite <- E1.
Qed.
End IntronicCount.

(** ** The category of a pair *)

Lemma decide_category_precedence (m : Match) (num_nodes : nat)
    (same_strand_bp opp_strand_bp : Z) (num_shared_introns : nat) (c : Category.t) :
  decide_category m num_nodes same_strand_bp opp_strand_bp num_shared_introns
  = Ok c →
  c = pairwise_category (splicing m) (Z.of_nat num_shared_introns)
        same_strand_bp opp_strand_bp
        (Datatypes.length (nodes m INTRONIC_SAME_STRAND)
         + Datatypes.length (nodes m INTRONIC_OPP_STRAND) =? num_nodes)%nat
        (any_intronic_same_strand m).
Proof.
  unfold decide_category, pairwise_category, any_intronic_same_strand.
  assert (Hn : (0 <? Z.of_nat num_shared_introns) = (0 <? num_shared_introns)%nat).
  { apply eq_true_iff_eq. rewrite Z.ltb_lt, Nat.ltb_lt. lia. }
  rewrite Hn.
  destruct (splicing m || (0 <? num_shared_introns)%nat || (0 <? same_strand_bp));
    [congruence|].
  destruct (0 <? opp_strand_bp); [congruence|].
  destruct (Datatypes.length (nodes m SAME_STRAND) =? 0)%nat; simpl; [|done].
  destruct (Datatypes.length (nodes m OPP_STRAND) =? 0)%nat; simpl; [|done].
  destruct (0 <? _ + _)%nat; simpl; [|done].
  destruct (_ =? num_nodes)%nat;
    destruct (nodes m INTRONIC_SAME_STRAND); simpl; congruence.
Qed.

(** [choose_best] relabels only a best match that the classifier made
    SAME_STRAND. *)
Lemma choose_best_relabels_same_strand `{PF : PyFloat}
    (h h' : MatchStats.heap) (lst : list addr) (best : option addr) :
  MatchStats.choose_best h lst = Ok (h', best) →
  ∀ a, h' a = h a
       ∨ (best = Some a ∧ MatchStats.category (h a) = SAME_STRAND
          ∧ h' a = MatchStats.set_category (h a) READ_THROUGH).
Proof.
  rewrite choose_best_spec. destruct lst as [|a0 lst0] eqn:El.
  { intros [= <- <-] a. now left. }
  rewrite <- El. destruct (forallb _ lst); [|done].
  destruct (winner h lst) as [w|]; [|done].
  intros [= <- <-] a. unfold relabel.
  destruct (read_through h lst w) eqn:Er; [|now left].
  destruct (decide (w = a)) as [->|Hne].
  - right. split; [done|]. split; [|apply heap_lookup_insert_eq].
    unfold read_through in Er. apply andb_prop in Er as [Ec _].
    unfold cat_eqb in Ec. now apply bool_decide_eq_true in Ec.
  - left. now apply heap_lookup_insert_ne.
Qed.

Section PairCategory.
Variable cmp_strand : Z → Z → bool.
Context `{PF : PyFloat}.
Variable ts : list Transcript.

Local Abbreviation boundaries := (find_exon_boundaries ts).
Local Abbreviation idx := (build_index boundaries ts).
Local Abbreviation tree := (build_intron_tree (ref_intron_dict idx)).

Hypothesis unique_ids : unique_ref_ids ts.
Hypothesis refs_well_formed :
  ∀ ref, ref ∈ ts → is_ref ref = true → well_formed ref = true.

Lemma tree_NoDup : NoDup tree.
Proof.
  rewrite build_intron_tree_map. apply NoDup_fmap_2; [|apply NoDup_map_to_list].
  intros [[[s1 b1] e1] v1] [[[s2 b2] e2] v2]. unfold intron_interval. simpl.
  congruence.
Qed.

Lemma tree_hit_count (ref : Transcript) (hit : Interval.t Z (list Transcript)) :
  ref ∈ ts → is_ref ref = true → hit ∈ tree →
  count_id (attr_transcript_id ref) (Interval.value hit)
  = occ (Interval.strand hit, Interval.start hit, Interval.end_ hit)
        (transcript_introns ref).
Proof.
  intros Hin Hr Hhit. rewrite (tree_hit_value ts hit Hhit).
  now apply count_id_owners.
Qed.

(** A node of the locus is added at most once to the intronic buckets of a
    reference. *)
Lemma intronic_count_node_le_1 (t ref : Transcript) (n : Node) :
  ref ∈ ts → is_ref ref = true → n ∈ split_exons t boundaries →
  (intronic_count (attr_transcript_id ref)
     (intronic_events cmp_strand tree t n) ≤ 1)%nat.
Proof.
  intros Hin Hr Hn. rewrite intronic_count_intronic_events.
  pose proof (refs_well_formed ref Hin Hr) as Hwf.
  assert (Hfind : ∀ hit, hit ∈ IntervalTree.find tree n.1 n.2 →
            hit ∈ tree ∧ Interval.start hit < n.2 ∧ n.1 < Interval.end_ hit).
  { intros hit [Hhit [H1 H2]%andb_prop]%list_elem_of_In%filter_In.
    apply Z.ltb_lt in H1, H2. now rewrite list_elem_of_In. }
  apply sum_list_with_le_1.
  - unfold IntervalTree.find. apply NoDup_ListNoDup, List.NoDup_filter, NoDup_ListNoDup, tree_NoDup.
  - intros hit (Hhit & _)%Hfind. rewrite tree_hit_count by done.
    apply occ_le_1. now apply well_formed_introns_NoDup.
  - intros x y (Hx & Hx1 & Hx2)%Hfind (Hy & Hy1 & Hy2)%Hfind.
    rewrite !tree_hit_count by done. rewrite !occ_pos.
    intros [Hsx Hix]%elem_of_transcript_introns
           [Hsy Hiy]%elem_of_transcript_introns.
    simpl in *.
    pose proof (node_overlaps_one_intron ts t ref n _ _ Hn Hin Hwf Hix Hiy
                  Hx1 Hx2 Hy1 Hy2) as E.
    injection E as E1 E2.
    apply elem_of_build_intron_tree in Hx, Hy.
    rewrite Hsx, E1, E2, <- Hsy, Hy in Hx. injection Hx as Hv.
    destruct x, y. simpl in *. congruence.
Qed.

(** The test of line 247 holds exactly when every node of the test
    transcript is in an intronic bucket of the accumulator. *)
Lemma all_nodes_intronic_count (t ref : Transcript) (m : Match) :
  ref ∈ ts → is_ref ref = true →
  accumulate cmp_strand idx tree t (split_exons t boundaries)
    !! attr_transcript_id ref = Some m →
  (Datatypes.length (nodes m INTRONIC_SAME_STRAND)
   + Datatypes.length (nodes m INTRONIC_OPP_STRAND)
   =? Datatypes.length (split_exons t boundaries))%nat
  = all_nodes_intronic m (split_exons t boundaries).
Proof.
  intros Hin Hr Hm.
  pose proof (accumulate_lookup _ _ _ _ _ _ _ Hm) as (_ & Hn & _).
  cbv zeta in Hn.
  assert (Hcount : (Datatypes.length (nodes m INTRONIC_SAME_STRAND)
                    + Datatypes.length (nodes m INTRONIC_OPP_STRAND))%nat
                   = sum_list_with
                       (fun n => intronic_count (attr_transcript_id ref)
                                   (intronic_events cmp_strand tree t n))
                       (split_exons t boundaries)).
  { rewrite !Hn.
    now rewrite <- (intronic_count_events cmp_strand (attr_transcript_id ref) idx). }
  rewrite Hcount. apply eq_true_iff_eq.
  rewrite Nat.eqb_eq. unfold all_nodes_intronic. rewrite forallb_forall.
  rewrite sum_list_with_eq_length
    by (intros n Hn'; now apply intronic_count_node_le_1).
  split.
  - intros Hall n Hn'%list_elem_of_In. apply bool_decide_eq_true.
    apply (intronic_bucket_iff _ _ _ _ _ _ _ _ Hm Hn').
    rewrite (Hall n Hn'). lia.
  - intros Hall n Hn'.
    pose proof (intronic_count_node_le_1 t ref n Hin Hr Hn') as Hle.
    assert (0 < intronic_count (attr_transcript_id ref)
                  (intronic_events cmp_strand tree t n))%nat; [|lia].
    apply (intronic_bucket_iff _ _ _ _ _ _ _ _ Hm Hn').
    apply (proj1 (bool_decide_eq_true _)), Hall. now apply list_elem_of_In.
Qed.

(** The category that the classifier gives to a pair of such a locus. *)
Lemma classified_category (st st1 : State) (t : Transcript)
    (stats : list addr) (a : addr) :
  classify_transcript cmp_strand boundaries idx tree st t = Ok (st1, stats) →
  a ∈ stats →
  ∃ m,
    accumulate cmp_strand idx tree t (split_exons t boundaries)
      !! MatchStats.ref_transcript_id (st1.1 a) = Some m
    ∧ MatchStats.shared_splicing (st1.1 a) = splicing m
    ∧ MatchStats.shared_introns (st1.1 a)
      = Z.of_nat (Datatypes.length (introns m))
    ∧ MatchStats.shared_same_strand_bp (st1.1 a)
      = sum_bp (nodes m SAME_STRAND)
    ∧ MatchStats.shared_opp_strand_bp (st1.1 a) = sum_bp (nodes m OPP_STRAND)
    ∧ MatchStats.category (st1.1 a)
      = pairwise_category (MatchStats.shared_splicing (st1.1 a))
          (MatchStats.shared_introns (st1.1 a))
          (MatchStats.shared_same_strand_bp (st1.1 a))
          (MatchStats.shared_opp_strand_bp (st1.1 a))
          (all_nodes_intronic m (split_exons t boundaries))
          (any_intronic_same_strand m).
Proof.
  intros Hc Ha. destruct st as [h next].
  destruct (classify_transcript_rows _ _ _ _ _ _ _ _ _ Hc)
    as (_ & _ & _ & Hrow & _).
  destruct (Hrow a Ha) as (r & m & Hm & Hf).
  apply finalize_inv in Hf
    as (ref & c & Hd & Hdec & Hcat & -> & _ & _ & _ & -> & -> & -> & -> & _).
  apply build_index_ref_dict in Hd as (Hin & Hr & <-).
  exists m. repeat (split; [done|]).
  rewrite Hcat. apply decide_category_precedence in Hdec.
  now rewrite (all_nodes_intronic_count t ref m Hin Hr Hm) in Hdec.
Qed.

(** C1: in a locus whose reference ids are pairwise distinct and whose
    reference transcripts are well formed, every row that [compare_locus]
    emits comes from the accumulator [m] of its reference, and the
    classifier decided its category by the fixed precedence: SAME_STRAND
    when the splicing matches, or an intron is shared, or same-strand bp
    are shared; else OPP_STRAND when opposite-strand bp are shared; else,
    when every node of the test transcript is in an intronic bucket of [m],
    INTRONIC_SAME_STRAND if some intronic node is same-strand and
    INTRONIC_OPP_STRAND otherwise; else INTERLEAVING_SAME_STRAND or
    INTERLEAVING_OPP_STRAND by the same rule.  The emitted row carries this
    category, except that the row of the best match carries READ_THROUGH
    when [choose_best] relabelled it, which it does only to a row decided
    SAME_STRAND. *)
Theorem category_follows_precedence (st : State) (y : Yield) (a : addr) :
  y ∈ (compare_locus cmp_strand st ts).1 → a ∈ yield_stats y →
  let t := yield_transcript y in
  let row := yield_heap y a in
  ∃ m,
    accumulate cmp_strand idx tree t (split_exons t boundaries)
      !! MatchStats.ref_transcript_id row = Some m
    ∧ MatchStats.shared_splicing row = splicing m
    ∧ MatchStats.shared_introns row = Z.of_nat (Datatypes.length (introns m))
    ∧ MatchStats.shared_same_strand_bp row = sum_bp (nodes m SAME_STRAND)
    ∧ MatchStats.shared_opp_strand_bp row = sum_bp (nodes m OPP_STRAND)
    ∧ let decided :=
        pairwise_category (MatchStats.shared_splicing row)
          (MatchStats.shared_introns row)
          (MatchStats.shared_same_strand_bp row)
          (MatchStats.shared_opp_strand_bp row)
          (all_nodes_intronic m (split_exons t boundaries))
          (any_intronic_same_strand m) in
      MatchStats.category row = decided
      ∨ (decided = SAME_STRAND ∧ yield_best y = Some a
         ∧ MatchStats.category row = READ_THROUGH).
Proof.
  intros (st0 & st1 & t & stats & h & best & -> & Ht & Hr & Hc & Hb)%compare_locus_yield.
  unfold yield_stats, yield_best, yield_heap, yield_transcript. simpl.
  intros Ha.
  destruct (classified_category st0 st1 t stats a Hc Ha)
    as (m & Hm & Hsp & Hi & Hs & Ho & Hcat).
  exists m.
  destruct (choose_best_relabels_same_strand _ _ _ _ Hb a)
    as [->|(-> & Hsame & ->)].
  - repeat (split; [done|]). now left.
  - simpl. repeat (split; [done|]). right.
    rewrite <- Hcat. done.
Qed.
End PairCategory.

Lemma category_follows_precedence_witness :
  unique_ref_ids Examples.locus_intronic
  ∧ (∀ ref, ref ∈ Examples.locus_intronic → is_ref ref = true →
            well_formed ref = true)
  ∧ Examples.first_yield Examples.locus_intronic
      ∈ (compare_locus Z.eqb (PF := QFloat.Q_PyFloat) Examples.st0
           Examples.locus_intronic).1
  ∧ 0%nat ∈ yield_stats (Examples.first_yield Examples.locus_intronic)
  ∧ MatchStats.category
      (yield_heap (Examples.first_yield Examples.locus_intronic) 0%nat)
    = INTRONIC_OPP_STRAND
  ∧ ∃ m,
      accumulate Z.eqb (Examples.index Examples.locus_intronic)
        (Examples.tree Examples.locus_intronic)
        (yield_transcript (Examples.first_yield Examples.locus_intronic))
        (split_exons
           (yield_transcript (Examples.first_yield Examples.locus_intronic))
           (Examples.boundaries Examples.locus_intronic))
        !! MatchStats.ref_transcript_id
             (yield_heap (Examples.first_yield Examples.locus_intronic) 0%nat)
      = Some m
      ∧ (MatchStats.category
           (yield_heap (Examples.first_yield Examples.locus_intronic) 0%nat)
         = pairwise_category
             (MatchStats.shared_splicing
                (yield_heap (Examples.first_yield Examples.locus_intronic)
                   0%nat))
             (MatchStats.shared_introns
                (yield_heap (Examples.first_yield Examples.locus_intronic)
                   0%nat))
             (MatchStats.shared_same_strand_bp
                (yield_heap (Examples.first_yield Examples.locus_intronic)
                   0%nat))
             (MatchStats.shared_opp_strand_bp
                (yield_heap (Examples.first_yield Examples.locus_intronic)
                   0%nat))
             (all_nodes_intronic m
                (split_exons
                   (yield_transcript
                      (Examples.first_yield Examples.locus_intronic))
                   (Examples.boundaries Examples.locus_intronic)))
             (any_intronic_same_strand m)
         ∨ yield_best (Examples.first_yield Examples.locus_intronic)
           = Some 0%nat
           ∧ MatchStats.category
               (yield_heap (Examples.first_yield Examples.locus_intronic)
                  0%nat)
             = READ_THROUGH).
Proof.
  assert (H1 : unique_ref_ids Examples.locus_intronic).
  { unfold unique_ref_ids. simpl. apply NoDup_singleton. }
  assert (H2 : ∀ ref, ref ∈ Examples.locus_intronic → is_ref ref = true →
                      well_formed ref = true).
  { intros ref [->|[->|Hin]%elem_of_cons]%elem_of_cons Hr;
      [reflexivity|discriminate Hr|by apply elem_of_nil in Hin]. }
  assert (H3 : Examples.first_yield Examples.locus_intronic
                 ∈ (compare_locus Z.eqb (PF := QFloat.Q_PyFloat) Examples.st0
                      Examples.locus_intronic).1).
  { unfold Examples.first_yield.
    destruct (compare_locus Z.eqb Examples.st0 Examples.locus_intronic).1
      eqn:E; [vm_compute in E; discriminate E|left]. }
  assert (H4 : 0%nat ∈ yield_stats (Examples.first_yield Examples.locus_intronic)).
  { apply list_elem_of_In. vm_compute. tauto. }
  split; [exact H1|]. split; [exact H2|]. split; [exact H3|]. split; [exact H4|].
  split; [vm_compute; reflexivity|].
  destruct (category_follows_precedence Z.eqb (PF := QFloat.Q_PyFloat)
              Examples.locus_intronic H1 H2 Examples.st0 _ 0%nat H3 H4)
    as (m & Hm & _ & _ & _ & _ & Hcat).
  exists m. split; [exact Hm|].
  destruct Hcat as [Hcat|(_ & Hb & Hcat)]; [left; exact Hcat|right].
  split; [exact Hb|exact Hcat].
Defined.

(** With two references under one transcript id, a node that lies in an
    intron of both is counted twice: the test of line 247 then takes one
    intronic node out of two for two, and the pair is INTRONIC although a
    node of the test transcript is in no intronic bucket. *)
Lemma duplicate_reference_id_miscounts_nodes :
  ¬ category_by_precedence_everywhere.
Proof.
  intros Hclaim.
  specialize (Hclaim Z.eqb QFloat.Q_PyFloat Examples.locus_twin_intronic
                Examples.st0
                (Examples.first_yield Examples.locus_twin_intronic) 0%nat).
  destruct Hclaim as (m & Hm & Hcat).
  - unfold Examples.first_yield.
    destruct (compare_locus Z.eqb Examples.st0 Examples.locus_twin_intronic).1
      eqn:E; [vm_compute in E; discriminate E|left].
  - apply list_elem_of_In. vm_compute. tauto.
  - vm_compute in Hm. injection Hm as <-.
    vm_compute in Hcat. destruct Hcat as [Hcat|Hcat]; discriminate Hcat.
Qed.

(** ** The classification succeeds on well-formed input *)

Section ClassifyTotal.
Variable cmp_strand : Z → Z → bool.
Variable ts : list Transcript.

Local Abbreviation boundaries := (find_exon_boundaries ts).
Local Abbreviation idx := (build_index boundaries ts).
Local Abbreviation tree := (build_intron_tree (ref_intron_dict idx)).

(** When the exons of the test transcript have positive length and the
    references carry the attributes of the report, the classification of the
    transcript raises no exception. *)
Lemma classify_transcript_total (st : State) (t : Transcript) :
  (∀ e : Exon, e ∈ exons t → e.1 < e.2) →
  (∀ ref, ref ∈ ts → is_ref ref = true → ref_attrs_present ref = true) →
  ∃ st1 stats,
    classify_transcript cmp_strand boundaries idx tree st t = Ok (st1, stats).
Proof.
  intros Hpos Hattrs. unfold classify_transcript.
  apply finalize_all_total. apply Forall_forall.
  intros [r m] Hm%elem_of_map_to_list. simpl.
  assert (Hnodes : Forall (fun n : Node => n.1 < n.2) (split_exons t boundaries)).
  { apply Forall_forall. intros n Hn.
    destruct (split_exons_nodes _ _ _ (find_exon_boundaries_sorted ts) Hn)
      as (_ & e & He & _ & _ & Hlen).
    apply Hlen, Hpos, He. }
  destruct (decide_category_total _ _ _ _ _ _ _ Hm Hnodes) as [c Hc].
  assert (Hsome : is_Some (accumulate cmp_strand idx tree t
                             (split_exons t boundaries) !! r)) by eauto.
  apply accumulate_matched in Hsome as (ref0 & Hin0 & Hr0 & <- & _).
  destruct (build_index_ref_dict_Some boundaries ts ref0 Hin0 Hr0) as [ref Hd].
  pose proof (build_index_ref_dict _ _ _ _ Hd) as (Hin & Hr & _).
  specialize (Hattrs ref Hin Hr). unfold ref_attrs_present in Hattrs.
  apply andb_prop in Hattrs as [[Ha1 Ha2]%andb_prop Ha3].
  apply bool_decide_eq_true in Ha1 as [gn Ha1], Ha2 as [src Ha2], Ha3 as [gt Ha3].
  unfold finalize. rewrite Hd. simpl. rewrite Hc. simpl.
  unfold MatchStats.from_transcript. rewrite Ha1, Ha2, Ha3. simpl. eauto.
Qed.
End ClassifyTotal.

(** ** Further properties of the best-match selector *)

Section ChooseBestMore.
Context `{PF : PyFloat}.

(** The relabelling of line 133 changes no component of any tuple: the
    seven category flags of the key do not tell SAME_STRAND from
    READ_THROUGH. *)
Lemma relabel_hit_val (h : MatchStats.heap) (lst : list addr) (w a : addr) :
  hit_val (relabel h lst w) a = hit_val h a
  ∧ key_defined (relabel h lst w a) = key_defined (h a).
Proof.
  unfold relabel, read_through.
  destruct (cat_eqb _ _) eqn:Ec; simpl; [|done].
  destruct (bool_decide _); [|done].
  apply bool_decide_eq_true in Ec.
  destruct (decide (w = a)) as [->|Hne].
  - unfold hit_val, key_defined, intron_frac, same_strand_frac,
      opp_strand_frac, MatchStats.is_cat, cat_eqb.
    rewrite !heap_lookup_insert_eq. simpl. rewrite Ec.
    split; reflexivity.
  - unfold hit_val, key_defined, intron_frac, same_strand_frac,
      opp_strand_frac, MatchStats.is_cat, cat_eqb.
    now rewrite !heap_lookup_insert_ne by done.
Qed.

Lemma relabel_winner (h : MatchStats.heap) (lst lst' : list addr) (w : addr) :
  winner (relabel h lst w) lst' = winner h lst'.
Proof.
  unfold winner. f_equal. f_equal. f_equal.
  apply map_ext. intros a. apply relabel_hit_val.
Qed.

Lemma relabel_key_defined (h : MatchStats.heap) (lst lst' : list addr)
    (w : addr) :
  forallb (fun a => key_defined (relabel h lst w a)) lst'
  = forallb (fun a => key_defined (h a)) lst'.
Proof.
  induction lst' as [|a lst' IH]; simpl; [done|].
  now rewrite IH, (proj2 (relabel_hit_val h lst w a)).
Qed.

Lemma relabel_relabel (h : MatchStats.heap) (lst : list addr) (w : addr) :
  relabel (relabel h lst w) lst w = relabel h lst w.
Proof.
  destruct (read_through h lst w) eqn:Er.
  - unfold relabel at 1.
    assert (read_through (relabel h lst w) lst w = false) as ->; [|done].
    unfold read_through at 1. unfold relabel. rewrite Er.
    now rewrite heap_lookup_insert_eq.
  - assert (relabel h lst w = h) as -> by (unfold relabel; now rewrite Er).
    unfold relabel. now rewrite Er.
Qed.

(** X1: [choose_best] raises nothing but ZeroDivisionError, and raises it
    exactly when some candidate of the list has a zero divisor in one of
    its three fractions, wherever the candidate stands in the list;
    otherwise it returns, and it returns no best match exactly when the
    list is empty. *)
Theorem choose_best_raises_only_zero_division (h : MatchStats.heap)
    (lst : list addr) :
  (∃ a, a ∈ lst ∧ key_defined (h a) = false
        ∧ MatchStats.choose_best h lst = Raise ZeroDivisionError)
  ∨ (Forall (fun a => key_defined (h a) = true) lst
     ∧ ∃ h' best, MatchStats.choose_best h lst = Ok (h', best)
                  ∧ (best = None ↔ lst = [])).
Proof.
  rewrite choose_best_spec.
  destruct lst as [|a0 lst0] eqn:El.
  { right. split; [constructor|]. exists h, None. done. }
  rewrite <- El.
  destruct (forallb (fun a => key_defined (h a)) lst) eqn:Hall.
  - right. split.
    + apply Forall_forall. intros a Ha.
      rewrite forallb_forall in Hall. apply Hall. now apply list_elem_of_In.
    + destruct (winner_max h lst) as (w & -> & _ & _); [now subst lst|].
      exists (relabel h lst w), (Some w). split; [done|].
      split; [done|]. now subst lst.
  - left.
    assert (Hex : ∃ a, In a lst ∧ key_defined (h a) = false).
    { clear El. induction lst as [|a lst IH]; simpl in *; [done|].
      apply andb_false_iff in Hall as [Ha|Hall].
      - exists a. split; [now left|done].
      - destruct (IH Hall) as (b & Hb & Hk). exists b. split; [now right|done]. }
    destruct Hex as (a & Ha & Hk). exists a.
    split; [now apply list_elem_of_In|]. split; done.
Qed.

(** X2: [choose_best] can be called again on the same list: the second
    call returns the same best match and changes nothing more in the
    store, although the first call may have relabelled the best match
    READ_THROUGH. *)
Theorem choose_best_idempotent (h h' : MatchStats.heap) (lst : list addr)
    (best : option addr) :
  MatchStats.choose_best h lst = Ok (h', best) →
  MatchStats.choose_best h' lst = Ok (h', best).
Proof.
  rewrite !choose_best_spec.
  destruct lst as [|a0 lst0] eqn:El; [now intros [= <- <-]|].
  rewrite <- El.
  destruct (forallb (fun a => key_defined (h a)) lst) eqn:Hall; [|done].
  destruct (winner h lst) as [w|] eqn:Ew; [|done].
  intros [= <- <-].
  rewrite relabel_key_defined, Hall, relabel_winner, Ew.
  now rewrite relabel_relabel.
Qed.

(** X3: when some candidate of the list has [shared_splicing], the best
    match that [choose_best] returns has it too, whatever the fractions,
    categories and distances of the candidates are. *)
Theorem choose_best_prefers_shared_splicing (h h' : MatchStats.heap)
    (lst : list addr) (w a : addr) :
  MatchStats.choose_best h lst = Ok (h', Some w) →
  a ∈ lst → MatchStats.shared_splicing (h a) = true →
  MatchStats.shared_splicing (h' w) = true
  ∧ MatchStats.shared_splicing (h w) = true.
Proof.
  intros Hb Ha Hs.
  assert (Hw : MatchStats.shared_splicing (h w) = true).
  { rewrite choose_best_spec in Hb.
    destruct lst as [|a0 lst0] eqn:El; [done|]. rewrite <- El in *.
    destruct (forallb _ lst); [|done].
    destruct (winner_max h lst) as (w0 & Ew & _ & Hmax); [now subst lst|].
    rewrite Ew in Hb. injection Hb as _ ->.
    specialize (Hmax a Ha). rewrite hit_compare_key in Hmax.
    unfold key_compare, rank_key, lex_cmp in Hmax. simpl in Hmax.
    rewrite Hs in Hmax. simpl in Hmax.
    destruct (MatchStats.shared_splicing (h w)); [done|].
    simpl in Hmax. done. }
  split; [|done].
  destruct (choose_best_frame _ _ _ _ Hb w) as [->|[_ ->]]; done.
Qed.

End ChooseBestMore.

Lemma choose_best_idempotent_witness :
  MatchStats.choose_best (PF := QFloat.Q_PyFloat) Examples.heap_through
    [0%nat; 1%nat]
  = Ok (<[1%nat := MatchStats.set_category (Examples.heap_through 1%nat)
                     READ_THROUGH]> Examples.heap_through, Some 1%nat)
  ∧ MatchStats.choose_best (PF := QFloat.Q_PyFloat)
      (<[1%nat := MatchStats.set_category (Examples.heap_through 1%nat)
                    READ_THROUGH]> Examples.heap_through) [0%nat; 1%nat]
    = Ok (<[1%nat := MatchStats.set_category (Examples.heap_through 1%nat)
                       READ_THROUGH]> Examples.heap_through, Some 1%nat).
Proof.
  assert (H1 : MatchStats.choose_best (PF := QFloat.Q_PyFloat)
                 Examples.heap_through [0%nat; 1%nat]
               = Ok (<[1%nat := MatchStats.set_category
                                  (Examples.heap_through 1%nat) READ_THROUGH]>
                       Examples.heap_through, Some 1%nat))
    by (vm_compute; reflexivity).
  split; [exact H1|].
  exact (choose_best_idempotent (PF := QFloat.Q_PyFloat) _ _ _ _ H1).
Defined.

Lemma choose_best_prefers_shared_splicing_witness :
  MatchStats.choose_best (PF := QFloat.Q_PyFloat)
    (Examples.classified Examples.locus_spliced Examples.T_spliced).1.1
    [0%nat]
  = Ok ((Examples.classified Examples.locus_spliced Examples.T_spliced).1.1,
        Some 0%nat)
  ∧ 0%nat ∈ [0%nat]
  ∧ MatchStats.shared_splicing
      ((Examples.classified Examples.locus_spliced Examples.T_spliced).1.1
         0%nat) = true.
Proof.
  assert (H1 : MatchStats.choose_best (PF := QFloat.Q_PyFloat)
                 (Examples.classified Examples.locus_spliced
                    Examples.T_spliced).1.1 [0%nat]
               = Ok ((Examples.classified Examples.locus_spliced
                        Examples.T_spliced).1.1, Some 0%nat))
    by (vm_compute; reflexivity).
  assert (H2 : 0%nat ∈ [0%nat]) by (apply list_elem_of_In; simpl; tauto).
  assert (H3 : MatchStats.shared_splicing
                 ((Examples.classified Examples.locus_spliced
                     Examples.T_spliced).1.1 0%nat) = true)
    by (vm_compute; reflexivity).
  split; [exact H1|]. split; [exact H2|].
  exact (proj1 (choose_best_prefers_shared_splicing
                  (PF := QFloat.Q_PyFloat) _ _ _ _ _ H1 H2 H3)).
Defined.

(** ** The generator as a whole *)

Section CompareLocusMore.
Variable cmp_strand : Z → Z → bool.
Context `{PF : PyFloat}.

(** The loop yields for the transcripts in order, and stops at the first
    one that raises. *)
Lemma compare_loop_order boundaries idx tree st ts :
  ∃ rest,
    ts = map yield_transcript
           (compare_loop cmp_strand boundaries idx tree st ts).1 ++ rest
    ∧ ((compare_loop cmp_strand boundaries idx tree st ts).2 = None
       ↔ rest = []).
Proof.
  revert st. induction ts as [|t ts IH]; intros st; simpl.
  - exists []. done.
  - unfold compare_transcript.
    destruct (classify_transcript _ _ _ _ st t) as [[st1 stats]|e]; simpl;
      [|exists (t :: ts); done].
    destruct (MatchStats.choose_best st1.1 stats) as [[h2 best]|e]; simpl;
      [|exists (t :: ts); done].
    destruct (IH (h2, st1.2)) as (rest & Hts & Hnone).
    destruct (compare_loop _ _ _ _ _ ts) as [ys e]. simpl in *.
    exists rest. split; [|done].
    unfold yield_transcript at 1. simpl. now f_equal.
Qed.

(** X5: [compare_locus] yields one item for each test transcript, in the
    order of the locus, up to the first transcript at which an exception
    is raised: the transcripts of the yielded items are a prefix of the
    test transcripts of the locus, and the whole of them exactly when no
    exception ends the iteration. *)
Theorem compare_locus_yields_in_order (st : State) (ts : list Transcript) :
  ∃ rest,
    List.filter (fun t => negb (is_ref t)) ts
    = map yield_transcript (compare_locus cmp_strand st ts).1 ++ rest
    ∧ ((compare_locus cmp_strand st ts).2 = None ↔ rest = []).
Proof.
  unfold compare_locus. rewrite <- build_index_test with
    (boundaries := find_exon_boundaries ts).
  apply compare_loop_order.
Qed.

(** A transcript without matches is yielded with no best match, and the
    store is left as it was. *)
Lemma compare_loop_unmatched boundaries idx tree st ts :
  (∀ t, t ∈ ts →
        accumulate cmp_strand idx tree t (split_exons t boundaries) = ∅) →
  compare_loop cmp_strand boundaries idx tree st ts
  = (map (fun t => (st.1, t, None, [])) ts, None).
Proof.
  destruct st as [h next].
  induction ts as [|t ts IH]; intros Hall; simpl; [done|].
  unfold compare_transcript, classify_transcript.
  rewrite (Hall t) by left. rewrite map_to_list_empty. simpl.
  rewrite IH by (intros t' Ht'; apply Hall; now right). done.
Qed.

(** X4: on a locus without reference transcripts, [compare_locus] yields
    every transcript with no best match and an empty list of matches,
    creates no [MatchStats] and raises nothing. *)
Theorem compare_locus_without_references (st : State)
    (ts : list Transcript) :
  (∀ t, t ∈ ts → is_ref t = false) →
  compare_locus cmp_strand st ts
  = (map (fun t => (st.1, t, None, [])) ts, None).
Proof.
  intros Hnone. unfold compare_locus.
  rewrite build_index_test.
  assert (Hf : List.filter (fun t => negb (is_ref t)) ts = ts).
  { clear st. induction ts as [|t ts IH]; simpl; [done|].
    rewrite (Hnone t) by left. simpl. f_equal.
    apply IH. intros t' Ht'. apply Hnone. now right. }
  rewrite Hf. apply compare_loop_unmatched.
  intros t _. apply map_empty. intros r.
  apply eq_None_not_Some.
  intros (ref & Hin & Hr & _)%accumulate_matched.
  rewrite (Hnone ref Hin) in Hr. discriminate Hr.
Qed.

(** X10: the assertion of line 457 never fails on an item that
    [compare_locus] yields: either the item has no match and no best
    match, and nothing is written to the two reports, or its best match is
    one of its matches, and the reports get the row of the best match and
    the rows of all matches, in order, as the store holds them after
    [choose_best]. *)
Theorem overlapping_rows_of_yield (st : State) (ts : list Transcript)
    (y : Yield) :
  y ∈ (compare_locus cmp_strand st ts).1 →
  (yield_stats y = [] ∧ yield_best y = None
   ∧ overlapping_rows y = Ok ([], []))
  ∨ (∃ b, yield_best y = Some b ∧ b ∈ yield_stats y
          ∧ overlapping_rows y
            = Ok ([yield_heap y b], map (yield_heap y) (yield_stats y))).
Proof.
  intros (st0 & st1 & t & stats & h & best & -> & _ & _ & _ & Hb)%compare_locus_yield.
  unfold yield_stats, yield_best, yield_heap, overlapping_rows. simpl.
  rewrite choose_best_spec in Hb.
  destruct stats as [|a0 stats0] eqn:El.
  { injection Hb as <- <-. left. done. }
  rewrite <- El in *.
  destruct (forallb _ stats); [|done].
  destruct (winner_max st1.1 stats) as (w & Ew & Hw & _); [now subst stats|].
  rewrite Ew in Hb. injection Hb as <- <-.
  right. exists w. split; [done|]. split; [done|].
  now subst stats.
Qed.

End CompareLocusMore.

(** ** The rows of a yielded item *)

(** A successful [finalize], field by field. *)
Lemma finalize_fields idx t nodes_t r m ms :
  finalize idx t nodes_t r m = Ok ms →
  ∃ ref c gene_name source gene_type,
    ref_dict idx !! r = Some ref
    ∧ decide_category m (Datatypes.length nodes_t)
        (sum_bp (nodes m SAME_STRAND)) (sum_bp (nodes m OPP_STRAND))
        (Datatypes.length (introns m)) = Ok c
    ∧ attr_gene_name ref = Some gene_name
    ∧ attr_source ref = Some source
    ∧ attr_gene_type ref = Some gene_type
    ∧ ms = MatchStats.mk (attr_transcript_id t) (attr_gene_id t)
             (chrom t, start t, end_ t, strand t) (Transcript_length t)
             (Z.of_nat (Datatypes.length (exons t)) - 1)
             (attr_transcript_id ref) (attr_gene_id ref)
             (default (attr_gene_id ref) (attr_orig_gene_id ref))
             gene_name source gene_type
             (chrom ref, start ref, end_ ref, strand ref)
             (Transcript_length ref)
             (Z.of_nat (Datatypes.length (exons ref)) - 1)
             (sum_bp (nodes m SAME_STRAND)) (sum_bp (nodes m OPP_STRAND))
             (Z.of_nat (Datatypes.length (introns m))) (splicing m) 0 c.
Proof.
  unfold finalize.
  destruct (ref_dict idx !! r) as [ref|] eqn:Hd; simpl; [|done].
  destruct (decide_category _ _ _ _ _) as [c|e] eqn:Hc; simpl; [|done].
  unfold MatchStats.from_transcript.
  destruct (attr_gene_name ref) as [gn|] eqn:Hgn; simpl; [|done].
  destruct (attr_source ref) as [src|] eqn:Hsrc; simpl; [|done].
  destruct (attr_gene_type ref) as [gt|] eqn:Hgt; simpl; [|done].
  intros [= <-]. exists ref, c, gn, src, gt.
  repeat split; try reflexivity; assumption.
Qed.

(** The category of a pair is one of the six that the classifier knows. *)
Lemma decide_category_range m num_nodes same_bp opp_bp shared c :
  decide_category m num_nodes same_bp opp_bp shared = Ok c →
  c ∈ [SAME_STRAND; OPP_STRAND; INTRONIC_SAME_STRAND; INTRONIC_OPP_STRAND;
       INTERLEAVING_SAME_STRAND; INTERLEAVING_OPP_STRAND].
Proof.
  unfold decide_category, py_assert.
  repeat match goal with
         | |- context [if ?b then _ else _] => destruct b; simpl
         end;
    intros [= <-]; set_solver.
Qed.

Section YieldedRows.
Variable cmp_strand : Z → Z → bool.
Context `{PF : PyFloat}.

(** The row at [a] of a yielded item: the finalized accumulator of one
    matched reference, relabelled or not by [choose_best]. *)
Lemma yielded_row (st : State) (ts : list Transcript) (y : Yield) (a : addr) :
  y ∈ (compare_locus cmp_strand st ts).1 → a ∈ yield_stats y →
  let boundaries := find_exon_boundaries ts in
  let idx := build_index boundaries ts in
  let tree := build_intron_tree (ref_intron_dict idx) in
  let t := yield_transcript y in
  t ∈ ts ∧ is_ref t = false
  ∧ ∃ r m ms,
      accumulate cmp_strand idx tree t (split_exons t boundaries) !! r = Some m
      ∧ finalize idx t (split_exons t boundaries) r m = Ok ms
      ∧ (yield_heap y a = ms
         ∨ (yield_best y = Some a
            ∧ yield_heap y a = MatchStats.set_category ms READ_THROUGH)).
Proof.
  intros (st0 & st1 & t & stats & h & best & -> & Ht & Hr & Hc & Hb)%compare_locus_yield.
  unfold yield_stats, yield_best, yield_heap, yield_transcript. simpl.
  intros Ha. split; [done|]. split; [done|].
  destruct st0 as [h0 next0].
  destruct (classify_transcript_rows _ _ _ _ _ _ _ _ _ Hc)
    as (_ & _ & _ & Hrow & _).
  destruct (Hrow a Ha) as (r & m & Hm & Hf).
  exists r, m, (st1.1 a). split; [done|]. split; [done|].
  destruct (choose_best_frame _ _ _ _ Hb a) as [->|[-> ->]]; [by left|by right].
Qed.

(** X6: every row that [compare_locus] yields describes the yielded test
    transcript (id, gene id, locus, length, number of introns) and a
    reference transcript of the same locus (id, gene id, locus, length,
    number of introns, and the attributes gene_name, source and gene_type,
    which that reference has); [ref_orig_gene_id] is the reference's
    attribute orig_gene_id, and its gene id when it has none. *)
Theorem compare_locus_row_describes_pair (st : State) (ts : list Transcript)
    (y : Yield) (a : addr) :
  y ∈ (compare_locus cmp_strand st ts).1 → a ∈ yield_stats y →
  let row := yield_heap y a in
  let t := yield_transcript y in
  (t ∈ ts ∧ is_ref t = false
   ∧ MatchStats.transcript_id row = attr_transcript_id t
   ∧ MatchStats.gene_id row = attr_gene_id t
   ∧ MatchStats.locus row = (chrom t, start t, end_ t, strand t)
   ∧ MatchStats.length row = Transcript_length t
   ∧ MatchStats.num_introns row = Z.of_nat (Datatypes.length (exons t)) - 1)
  ∧ ∃ ref, ref ∈ ts ∧ is_ref ref = true
      ∧ MatchStats.ref_transcript_id row = attr_transcript_id ref
      ∧ MatchStats.ref_gene_id row = attr_gene_id ref
      ∧ MatchStats.ref_orig_gene_id row
        = default (attr_gene_id ref) (attr_orig_gene_id ref)
      ∧ attr_gene_name ref = Some (MatchStats.ref_gene_name row)
      ∧ attr_source ref = Some (MatchStats.ref_source row)
      ∧ attr_gene_type ref = Some (MatchStats.ref_gene_type row)
      ∧ MatchStats.ref_locus row = (chrom ref, start ref, end_ ref, strand ref)
      ∧ MatchStats.ref_length row = Transcript_length ref
      ∧ MatchStats.ref_num_introns row
        = Z.of_nat (Datatypes.length (exons ref)) - 1.
Proof.
  intros Hy Ha.
  destruct (yielded_row st ts y a Hy Ha) as (Ht & Hr & r & m & ms & _ & Hf & Hrow).
  apply finalize_fields in Hf
    as (ref & c & gn & src & gt & Hd & _ & Hgn & Hsrc & Hgt & ->).
  apply build_index_ref_dict in Hd as (Hin & Hrr & _).
  simpl. destruct Hrow as [->|[_ ->]]; simpl;
    (split; [done|]); exists ref; done.
Qed.

(** X7: every row that [compare_locus] yields has distance 0, and its
    category is one of SAME_STRAND, OPP_STRAND, INTRONIC_SAME_STRAND,
    INTRONIC_OPP_STRAND, INTERLEAVING_SAME_STRAND and
    INTERLEAVING_OPP_STRAND, or is READ_THROUGH, which only the best match
    of the item can be; no row of the first pass is ENCOMPASSING or
    INTERGENIC. *)
Theorem compare_locus_row_category (st : State) (ts : list Transcript)
    (y : Yield) (a : addr) :
  y ∈ (compare_locus cmp_strand st ts).1 → a ∈ yield_stats y →
  let row := yield_heap y a in
  MatchStats.distance row = 0
  ∧ (MatchStats.category row
       ∈ [SAME_STRAND; OPP_STRAND; INTRONIC_SAME_STRAND; INTRONIC_OPP_STRAND;
          INTERLEAVING_SAME_STRAND; INTERLEAVING_OPP_STRAND]
     ∨ (MatchStats.category row = READ_THROUGH ∧ yield_best y = Some a)).
Proof.
  intros Hy Ha.
  destruct (yielded_row st ts y a Hy Ha) as (_ & _ & r & m & ms & _ & Hf & Hrow).
  apply finalize_fields in Hf as (ref & c & gn & src & gt & _ & Hc & _ & _ & _ & ->).
  apply decide_category_range in Hc.
  simpl. destruct Hrow as [->|[Hb ->]]; simpl; (split; [done|]).
  - now left.
  - now right.
Qed.

End YieldedRows.


(** ** Objects and their addresses *)

Lemma Forall2_map_eq {A B C : Type} (P : A → B → Prop) (f : A → C)
    (g : B → C) (l : list A) (k : list B) :
  Forall2 P l k → (∀ x y, P x y → f x = g y) → map f l = map g k.
Proof.
  intros Hall Hfg. induction Hall as [|x y l k Hxy _ IH]; simpl; [done|].
  now rewrite (Hfg x y Hxy), IH.
Qed.

(** The best match is one of the candidates. *)
Lemma choose_best_member `{PF : PyFloat} (h h' : MatchStats.heap)
    (lst : list addr) (w : addr) :
  MatchStats.choose_best h lst = Ok (h', Some w) → w ∈ lst.
Proof.
  rewrite choose_best_spec.
  destruct lst as [|a0 lst0] eqn:El; [done|]. rewrite <- El.
  destruct (forallb _ lst); [|done].
  destruct (winner_max h lst) as (w0 & -> & Hw & _); [now subst lst|].
  now intros [= _ <-].
Qed.

Section Addresses.
Variable cmp_strand : Z → Z → bool.

(** The objects created for a transcript take the next free addresses, and
    the object at each of them carries the id under which its accumulator
    was kept. *)
Lemma classify_transcript_addresses (ts : list Transcript) (h : MatchStats.heap)
    (next : addr) (t : Transcript) (st1 : State) (stats : list addr) :
  let boundaries := find_exon_boundaries ts in
  let idx := build_index boundaries ts in
  let tree := build_intron_tree (ref_intron_dict idx) in
  classify_transcript cmp_strand boundaries idx tree (h, next) t
    = Ok (st1, stats) →
  stats = seq next (Datatypes.length stats)
  ∧ st1.2 = (next + Datatypes.length stats)%nat
  ∧ map (fun a => MatchStats.ref_transcript_id (st1.1 a)) stats
    = map fst (map_to_list
                 (accumulate cmp_strand idx tree t (split_exons t boundaries))).
Proof.
  intros boundaries idx tree. unfold classify_transcript.
  destruct st1 as [h' next'].
  intros (-> & -> & _ & Hall)%finalize_all_spec. simpl.
  rewrite length_seq. split; [done|]. split; [done|].
  symmetry. eapply Forall2_map_eq; [exact Hall|].
  intros [r m] a Hf. simpl in *.
  apply finalize_inv in Hf as (ref & c & Hd & _ & _ & -> & _).
  now apply build_index_ref_dict in Hd as (_ & _ & <-).
Qed.

Context `{PF : PyFloat}.

(** X8: the matches of a yielded item are distinct objects and no two of
    them have the same reference transcript id: a test transcript gets at
    most one row for a reference id. *)
Theorem compare_locus_one_row_per_reference (st : State)
    (ts : list Transcript) (y : Yield) :
  y ∈ (compare_locus cmp_strand st ts).1 →
  NoDup (yield_stats y)
  ∧ NoDup (map (fun a => MatchStats.ref_transcript_id (yield_heap y a))
               (yield_stats y)).
Proof.
  intros (st0 & st1 & t & stats & h & best & -> & _ & _ & Hc & Hb)%compare_locus_yield.
  unfold yield_stats, yield_heap. simpl. destruct st0 as [h0 next0].
  apply classify_transcript_addresses in Hc as (Hs & _ & Hids).
  split; [rewrite Hs; apply NoDup_seq|].
  assert (Heq : map (fun a => MatchStats.ref_transcript_id (h a)) stats
                = map (fun a => MatchStats.ref_transcript_id (st1.1 a)) stats).
  { apply map_ext. intros a.
    now destruct (choose_best_frame _ _ _ _ Hb a) as [->|[_ ->]]. }
  rewrite Heq, Hids. apply NoDup_fst_map_to_list.
Qed.

(** What the loop leaves alone: the objects that existed before it
    started.  The objects it creates have addresses that were free. *)
Lemma compare_loop_frame (ts ts' : list Transcript) (st : State) (y : Yield) :
  let boundaries := find_exon_boundaries ts in
  let idx := build_index boundaries ts in
  let tree := build_intron_tree (ref_intron_dict idx) in
  y ∈ (compare_loop cmp_strand boundaries idx tree st ts').1 →
  (∀ a, a ∈ yield_stats y → (st.2 ≤ a)%nat)
  ∧ (∀ a, (a < st.2)%nat → yield_heap y a = st.1 a).
Proof.
  intros boundaries idx tree. revert st.
  induction ts' as [|t ts' IH]; intros [h next]; simpl.
  { intros Hy. by apply elem_of_nil in Hy. }
  unfold compare_transcript.
  destruct (classify_transcript _ _ _ _ (h, next) t) as [[st1 stats]|e] eqn:Ec;
    simpl; [|intros Hy; by apply elem_of_nil in Hy].
  destruct (MatchStats.choose_best st1.1 stats) as [[h2 best]|e] eqn:Eb;
    simpl; [|intros Hy; by apply elem_of_nil in Hy].
  destruct (classify_transcript_rows _ _ _ _ _ _ _ _ _ Ec)
    as (Hold & Hnew & _).
  apply classify_transcript_addresses in Ec as (_ & Hnext & _).
  assert (Hh2 : ∀ a, (a < next)%nat → h2 a = h a).
  { intros a Ha. rewrite <- Hold by done.
    destruct (choose_best_frame _ _ _ _ Eb a) as [->|[-> _]]; [done|].
    apply choose_best_member, Hnew in Eb. lia. }
  specialize (IH (h2, st1.2)).
  destruct (compare_loop _ _ _ _ _ ts') as [ys e]. simpl in *.
  intros [->|Hy]%elem_of_cons.
  - unfold yield_stats, yield_heap. simpl. split; done.
  - destruct (IH Hy) as [H1 H2]. split.
    + intros a Ha. specialize (H1 a Ha). lia.
    + intros a Ha. rewrite H2 by lia. now apply Hh2.
Qed.

Lemma compare_loop_persist (ts ts' : list Transcript) (st : State)
    (i j : nat) (yi yj : Yield) (a : addr) :
  let boundaries := find_exon_boundaries ts in
  let idx := build_index boundaries ts in
  let tree := build_intron_tree (ref_intron_dict idx) in
  (compare_loop cmp_strand boundaries idx tree st ts').1 !! i = Some yi →
  (compare_loop cmp_strand boundaries idx tree st ts').1 !! j = Some yj →
  (i < j)%nat → a ∈ yield_stats yi →
  (a ∉ yield_stats yj) ∧ yield_heap yj a = yield_heap yi a.
Proof.
  intros boundaries idx tree. revert st i j.
  induction ts' as [|t ts' IH]; intros [h next] i j; simpl; [done|].
  unfold compare_transcript.
  destruct (classify_transcript _ _ _ _ (h, next) t) as [[st1 stats]|e] eqn:Ec;
    simpl; [|done].
  destruct (MatchStats.choose_best st1.1 stats) as [[h2 best]|e] eqn:Eb;
    simpl; [|done].
  apply classify_transcript_addresses in Ec as (Hs & Hnext & _).
  pose proof (compare_loop_frame ts ts' (h2, st1.2)) as Hframe.
  specialize (IH (h2, st1.2)).
  cbv zeta in Hframe. fold boundaries in Hframe. fold idx in Hframe.
  fold tree in Hframe.
  destruct (compare_loop _ _ _ _ _ ts') as [ys e]. simpl in *.
  destruct i as [|i]; destruct j as [|j]; simpl;
    [intros _ _ Hlt; lia| |intros _ _ Hlt; lia|].
  - intros [= <-] Hj _. unfold yield_stats at 1, yield_heap at 2. simpl.
    intros Ha. rewrite Hs in Ha. apply elem_of_seq in Ha.
    destruct (Hframe yj) as [H1 H2].
    { apply list_elem_of_lookup. exists j. exact Hj. }
    split.
    + intros Hin. specialize (H1 a Hin). lia.
    + apply H2. lia.
  - intros Hi Hj Hlt. apply (IH i j); [done|done|lia].
Qed.

(** X9: a [MatchStats] of an item yielded earlier is not among the matches
    of an item yielded later, and is the same in the store of the later
    item: continuing the iteration changes no row of a transcript that has
    been yielded. *)
Theorem compare_locus_rows_persist (st : State) (ts : list Transcript)
    (i j : nat) (yi yj : Yield) (a : addr) :
  (compare_locus cmp_strand st ts).1 !! i = Some yi →
  (compare_locus cmp_strand st ts).1 !! j = Some yj →
  (i < j)%nat → a ∈ yield_stats yi →
  (a ∉ yield_stats yj) ∧ yield_heap yj a = yield_heap yi a.
Proof. unfold compare_locus. apply compare_loop_persist. Qed.

End Addresses.

(** ** The nodes of a transcript cover its exons *)

Lemma sum_bp_app (l1 l2 : list Node) :
  sum_bp (l1 ++ l2) = sum_bp l1 + sum_bp l2.
Proof. induction l1 as [|n l1 IH]; simpl; [done|]. rewrite IH. lia. Qed.

(** However an exon is cut, the lengths of the pieces add up to its own. *)
Lemma sum_bp_chain (cuts : list Z) (s e : Z) :
  sum_bp (zip (s :: cuts) (cuts ++ [e])) = e - s.
Proof.
  revert s. induction cuts as [|c cuts IH]; intros s; simpl; [lia|].
  specialize (IH c). simpl in IH. rewrite IH. lia.
Qed.

Lemma sum_bp_split_exons (t : Transcript) (boundaries : list Z) :
  sum_bp (split_exons t boundaries) = Transcript_length t.
Proof.
  unfold split_exons, Transcript_length.
  induction (exons t) as [|e es IH]; simpl; [done|].
  rewrite sum_bp_app, IH. unfold split_exon. now rewrite sum_bp_chain.
Qed.

Lemma sum_bp_nonneg (l : list Node) :
  Forall (fun n : Node => n.1 < n.2) l → 0 ≤ sum_bp l.
Proof.
  induction 1 as [|n l Hn _ IH]; simpl; lia.
Qed.

(** Leaving nodes out does not add base pairs. *)
Lemma sum_bp_sublist (l1 l2 : list Node) :
  sublist l1 l2 → Forall (fun n : Node => n.1 < n.2) l2 →
  sum_bp l1 ≤ sum_bp l2.
Proof.
  induction 1 as [|n l1 l2 _ IH|n l1 l2 _ IH]; simpl.
  - done.
  - intros [_ Hl]%Forall_cons. specialize (IH Hl). lia.
  - intros [Hn Hl]%Forall_cons. specialize (IH Hl). lia.
Qed.

(** The pieces of one exon are pairwise distinct. *)
Lemma chain_NoDup (cuts : list Z) (s e : Z) :
  StronglySorted Z.lt cuts → (∀ c, c ∈ cuts → s < c < e) →
  NoDup (zip (s :: cuts) (cuts ++ [e])).
Proof.
  revert s. induction cuts as [|c cuts IH]; intros s Hs Hin; simpl.
  - apply NoDup_singleton.
  - apply StronglySorted_inv in Hs as [Hs Hc].
    assert (Hc' : ∀ x, x ∈ cuts → c < x < e).
    { intros x Hx. split.
      - now apply (proj1 (Forall_forall _ _) Hc).
      - apply Hin. now right. }
    apply NoDup_cons. split; [|now apply IH].
    intros Hn.
    destruct (chain_nodes cuts c e (s, c) Hs Hc' Hn) as (H1 & _).
    simpl in H1. assert (s < c < e) by (apply Hin; left). lia.
Qed.

Lemma split_exon_NoDup (e : Exon) (boundaries : list Z) :
  StronglySorted Z.lt boundaries → NoDup (split_exon e boundaries).
Proof.
  intros Hs. unfold split_exon. apply chain_NoDup.
  - now apply filter_StronglySorted.
  - intros c Hc%list_elem_of_In%filter_In.
    destruct Hc as [_ [H1 H2]%andb_prop]. apply Z.ltb_lt in H1, H2. lia.
Qed.

Lemma split_exons_from_NoDup (e1 : Exon) (rest : list Exon)
    (boundaries : list Z) :
  StronglySorted Z.lt boundaries → exons_sorted_from e1 rest = true →
  NoDup (concat (map (fun e => split_exon e boundaries) (e1 :: rest)))
  ∧ ∀ n, n ∈ concat (map (fun e => split_exon e boundaries) (e1 :: rest)) →
         e1.1 ≤ n.1.
Proof.
  intros Hs. revert e1. induction rest as [|e2 rest IH]; intros e1; simpl.
  - intros [H1 _]%andb_prop. apply Z.ltb_lt in H1.
    rewrite app_nil_r. split; [now apply split_exon_NoDup|].
    intros n Hn. now destruct (split_exon_nodes e1 boundaries n Hs Hn).
  - intros [H1 [H2 H3]%andb_prop]%andb_prop.
    apply Z.ltb_lt in H1. apply Z.leb_le in H2.
    destruct (IH e2 H3) as [Hnd Hlow]. simpl in Hnd, Hlow. split.
    + apply NoDup_app. split; [now apply split_exon_NoDup|]. split; [|done].
      intros n Hn Hn'.
      destruct (split_exon_nodes e1 boundaries n Hs Hn) as (_ & Hb & Hc & _).
      specialize (Hlow n Hn'). specialize (Hc H1). lia.
    + intros n [Hn|Hn]%elem_of_app.
      * now destruct (split_exon_nodes e1 boundaries n Hs Hn).
      * specialize (Hlow n Hn). lia.
Qed.

(** The nodes of a well-formed transcript are pairwise distinct. *)
Lemma split_exons_NoDup (t : Transcript) (boundaries : list Z) :
  StronglySorted Z.lt boundaries → well_formed t = true →
  NoDup (split_exons t boundaries).
Proof.
  intros Hs. unfold well_formed, split_exons.
  destruct (exons t) as [|e1 rest]; [done|].
  intros Hwf. now apply split_exons_from_NoDup.
Qed.

(** A well-formed transcript has positive length. *)
Lemma well_formed_length_pos (t : Transcript) :
  well_formed t = true → 0 < Transcript_length t.
Proof.
  intros Hwf.
  assert (Hpos : Forall (fun e : Exon => e.1 < e.2) (exons t)).
  { apply Forall_forall. intros e He. now apply (well_formed_exon_pos t). }
  apply well_formed_exons in Hwf.
  unfold Transcript_length.
  destruct (exons t) as [|e es]; [done|].
  apply Forall_cons in Hpos as [He Hes]. simpl.
  assert (0 ≤ foldr (fun (e0 : Exon) acc => e0.2 - e0.1 + acc) 0 es); [|lia].
  clear -Hes. induction Hes as [|x l Hx _ IH]; simpl; lia.
Qed.

(** ** The exonic buckets of an accumulator *)

Lemma nodes_of_flat_map {A : Type} r c (g : A → list Event) (l : list A) :
  nodes_of r c (flat_map g l) = flat_map (fun x => nodes_of r c (g x)) l.
Proof.
  induction l as [|x l IH]; simpl; [done|]. now rewrite nodes_of_app, IH.
Qed.

Lemma flat_map_sublist {A : Type} (g : A → list A) (l : list A) :
  (∀ x, x ∈ l → g x = [] ∨ g x = [x]) → sublist (flat_map g l) l.
Proof.
  induction l as [|x l IH]; simpl; intros Hall; [constructor|].
  assert (Hl : sublist (flat_map g l) l)
    by (apply IH; intros y Hy; apply Hall; now right).
  destruct (Hall x) as [-> | ->]; [left|..]; simpl.
  - now apply sublist_cons.
  - now apply sublist_skip.
Qed.

Lemma short_constant_list {A : Type} (x : A) (l : list A) :
  (Datatypes.length l ≤ 1)%nat → (∀ y, y ∈ l → y = x) → l = [] ∨ l = [x].
Proof.
  destruct l as [|y [|z l]]; simpl; intros Hlen Hall; [by left| |lia].
  right. f_equal. apply Hall. left.
Qed.

(** Distinct ids tell the references of a locus apart. *)
Lemma unique_ref_ids_inj (ts : list Transcript) (ref1 ref2 : Transcript) :
  unique_ref_ids ts → ref1 ∈ ts → is_ref ref1 = true →
  ref2 ∈ ts → is_ref ref2 = true →
  attr_transcript_id ref1 = attr_transcript_id ref2 → ref1 = ref2.
Proof.
  unfold unique_ref_ids. intros Hnd H1 Hr1 H2 Hr2 Hid.
  assert (Hf1 : ref1 ∈ List.filter is_ref ts)
    by (apply list_elem_of_In, filter_In; now rewrite <- list_elem_of_In).
  assert (Hf2 : ref2 ∈ List.filter is_ref ts)
    by (apply list_elem_of_In, filter_In; now rewrite <- list_elem_of_In).
  clear H1 H2. induction (List.filter is_ref ts) as [|x l IH]; simpl in *.
  { by apply elem_of_nil in Hf1. }
  apply NoDup_cons in Hnd as [Hx Hnd].
  apply elem_of_cons in Hf1 as [->|Hf1]; apply elem_of_cons in Hf2 as [->|Hf2].
  - done.
  - exfalso. apply Hx. rewrite Hid.
    apply list_elem_of_In, in_map. now apply list_elem_of_In.
  - exfalso. apply Hx. rewrite <- Hid.
    apply list_elem_of_In, in_map. now apply list_elem_of_In.
  - now apply IH.
Qed.

Section Buckets.
Variable cmp_strand : Z → Z → bool.
Variable ts : list Transcript.

Local Abbreviation boundaries := (find_exon_boundaries ts).
Local Abbreviation idx := (build_index boundaries ts).
Local Abbreviation tree := (build_intron_tree (ref_intron_dict idx)).

Hypothesis unique_ids : unique_ref_ids ts.

Lemma nodes_of_add_node_length r c (g : Transcript → Category.t) (n : Node)
    (refs : list Transcript) :
  (Datatypes.length
     (nodes_of r c (map (fun ref => AddNode (attr_transcript_id ref) (g ref) n)
                        refs))
   ≤ count_id r refs)%nat.
Proof.
  unfold nodes_of, count_id. induction refs as [|ref refs IH]; simpl; [done|].
  rewrite length_app.
  case_bool_decide as E; simpl; [|lia].
  destruct (bool_decide (g ref = c)); simpl; lia.
Qed.

(** The nodes that the events of one node add to an exonic bucket: the node
    itself, once, or nothing. *)
Lemma exonic_bucket_of_node (t ref : Transcript) (c : Category.t) (n : Node) :
  ref ∈ ts → is_ref ref = true → well_formed ref = true →
  c = SAME_STRAND ∨ c = OPP_STRAND →
  let l := nodes_of (attr_transcript_id ref) c
             (node_events cmp_strand idx tree t n) in
  l = [] ∨ l = [n].
Proof.
  intros Hin Hr Hwf Hc l. apply short_constant_list.
  - unfold l, node_events. rewrite nodes_of_app, length_app.
    rewrite (nodes_of_none _ c (intronic_events _ _ _ _)).
    + simpl. rewrite Nat.add_0_r. unfold exact_events.
      etransitivity; [apply nodes_of_add_node_length|].
      rewrite build_index_node_dict, count_id_owners by done.
      apply occ_le_1, split_exons_NoDup; [|done].
      apply find_exon_boundaries_sorted.
    + intros e He r' n' ->.
      unfold intronic_events, hit_events in He.
      apply list_elem_of_In, in_flat_map in He as (hit & _ & He).
      apply in_map_iff in He as (ref' & E & _).
      destruct (cmp_strand _ _); destruct Hc as [-> | ->]; discriminate E.
  - intros n' Hn'. unfold l in Hn'. apply elem_of_nodes_of in Hn'.
    unfold node_events in Hn'. apply elem_of_app in Hn' as [He|He].
    + unfold exact_events in He.
      apply list_elem_of_In, in_map_iff in He as (ref' & E & _). congruence.
    + now apply intronic_events_node in He.
Qed.

(** An exonic bucket lists nodes of the test transcript, in order and each
    at most once. *)
Lemma exonic_bucket_sublist (t : Transcript) (r : string) (m : Match)
    (c : Category.t) :
  (∀ ref, ref ∈ ts → is_ref ref = true → well_formed ref = true) →
  accumulate cmp_strand idx tree t (split_exons t boundaries) !! r = Some m →
  c = SAME_STRAND ∨ c = OPP_STRAND →
  sublist (nodes m c) (split_exons t boundaries).
Proof.
  intros Hwf Hm Hc.
  assert (Hsome : is_Some (accumulate cmp_strand idx tree t
                             (split_exons t boundaries) !! r)) by eauto.
  apply accumulate_matched in Hsome as (ref & Hin & Hr & <- & _).
  apply accumulate_lookup in Hm as (_ & Hn & _). rewrite Hn.
  unfold events. rewrite !nodes_of_app.
  rewrite (nodes_of_none _ c (intron_events _ _)),
    (nodes_of_none _ c (splicing_events _ _)), !app_nil_r.
  - rewrite nodes_of_flat_map. apply flat_map_sublist.
    intros n _. apply exonic_bucket_of_node; auto.
  - intros e He r' n ->. unfold splicing_events in He.
    destruct (0 <? _)%nat; [|by apply elem_of_nil in He].
    now apply list_elem_of_In, in_map_iff in He as (? & ? & _).
  - intros e He r' n ->. unfold intron_events in He.
    apply list_elem_of_In, in_flat_map in He as (i & _ & He).
    now apply in_map_iff in He as (? & ? & _).
Qed.

(** The nodes of an exonic bucket are nodes of the reference as well, and
    all of them lie on the strand side of the bucket. *)
Lemma exonic_bucket_elem (t : Transcript) (r : string) (m : Match)
    (c : Category.t) (n : Node) :
  accumulate cmp_strand idx tree t (split_exons t boundaries) !! r = Some m →
  c = SAME_STRAND ∨ c = OPP_STRAND → n ∈ nodes m c →
  ∃ ref, ref ∈ ts ∧ is_ref ref = true ∧ attr_transcript_id ref = r
         ∧ n ∈ split_exons ref boundaries
         ∧ c = if cmp_strand (strand t) (strand ref)
               then SAME_STRAND else OPP_STRAND.
Proof.
  intros (_ & Hn & _)%accumulate_lookup Hc. rewrite Hn.
  intros He%elem_of_nodes_of.
  apply elem_of_events in He as [(n0 & Hn0 & [He|He])|[He|He]].
  - apply elem_of_exact_events in He as (ref & Hin & Hr & Hnr & E).
    injection E as -> -> ->. now exists ref.
  - apply elem_of_intronic_events in He as (ref & s & e' & _ & _ & _ & _ & _ & E).
    destruct (cmp_strand _ _); destruct Hc as [-> | ->]; discriminate E.
  - now apply elem_of_intron_events in He as (? & ? & _ & _ & _ & _ & ?).
  - now apply elem_of_splicing_events in He as (? & _ & _ & _ & _ & ?).
Qed.

(** The exonic nodes of a pair all fall in the same bucket. *)
Lemma exonic_buckets_exclusive (t : Transcript) (r : string) (m : Match) :
  accumulate cmp_strand idx tree t (split_exons t boundaries) !! r = Some m →
  nodes m SAME_STRAND = [] ∨ nodes m OPP_STRAND = [].
Proof.
  intros Hm.
  destruct (nodes m SAME_STRAND) as [|n1 l1] eqn:E1; [by left|].
  destruct (nodes m OPP_STRAND) as [|n2 l2] eqn:E2; [by right|].
  exfalso.
  destruct (exonic_bucket_elem t r m SAME_STRAND n1 Hm)
    as (ref1 & Hin1 & Hr1 & Hid1 & _ & Hc1); [by left|rewrite E1; left|].
  destruct (exonic_bucket_elem t r m OPP_STRAND n2 Hm)
    as (ref2 & Hin2 & Hr2 & Hid2 & _ & Hc2); [by right|rewrite E2; left|].
  assert (ref1 = ref2) as ->
    by (apply (unique_ref_ids_inj ts); congruence).
  destruct (cmp_strand _ _); discriminate.
Qed.

End Buckets.

(** ** Bounds on what two transcripts can share *)

Lemma sum_bp_Permutation (l1 l2 : list Node) :
  Permutation l1 l2 → sum_bp l1 = sum_bp l2.
Proof. induction 1; simpl; lia. Qed.

(** Distinct nodes taken from a list do not have more base pairs than the
    list. *)
Lemma sum_bp_NoDup_incl (l1 l2 : list Node) :
  NoDup l1 → (∀ n, n ∈ l1 → n ∈ l2) →
  Forall (fun n : Node => n.1 < n.2) l2 → sum_bp l1 ≤ sum_bp l2.
Proof.
  intros Hnd Hincl Hpos.
  destruct (submseteq_Permutation l1 l2) as [k Hk];
    [now apply NoDup_submseteq|].
  rewrite (sum_bp_Permutation _ _ Hk), sum_bp_app.
  assert (0 ≤ sum_bp k); [|lia].
  apply sum_bp_nonneg. apply Forall_forall. intros n Hn.
  apply (proj1 (Forall_forall _ _) Hpos). rewrite Hk. apply elem_of_app. now right.
Qed.

(** Distinct keys do not occur more often in a list than the list is
    long. *)
Lemma sum_occ_le_length `{EqDecision K} (k l : list K) :
  NoDup k → (sum_list_with (fun i => occ i l) k ≤ Datatypes.length l)%nat.
Proof.
  intros Hnd. induction l as [|x l IH]; simpl.
  - unfold occ. simpl. clear Hnd. induction k; simpl; lia.
  - assert (Hsplit : sum_list_with (fun i => occ i (x :: l)) k
                     = (sum_list_with (fun i => if bool_decide (x = i)
                                                then 1 else 0)%nat k
                        + sum_list_with (fun i => occ i l) k)%nat).
    { clear. induction k as [|i k IHk]; simpl; [done|].
      rewrite IHk. unfold occ. simpl.
      destruct (bool_decide (x = i)); simpl; lia. }
    rewrite Hsplit.
    assert (Hone : (sum_list_with (fun i => if bool_decide (x = i)
                                            then 1 else 0)%nat k ≤ 1)%nat);
      [|lia].
    clear -Hnd. induction k as [|i k IHk]; simpl; [lia|].
    apply NoDup_cons in Hnd as [Hi Hnd]. specialize (IHk Hnd).
    case_bool_decide as E; [|lia]. subst i.
    assert (Hz : sum_list_with (fun i => if bool_decide (x = i)
                                         then 1 else 0)%nat k = 0%nat); [|lia].
    clear -Hi. induction k as [|j k IHk]; simpl; [done|].
    rewrite bool_decide_false by (intros ->; apply Hi; left).
    apply IHk. intros Hx. apply Hi. now right.
Qed.

Section SharedBounds.
Variable cmp_strand : Z → Z → bool.
Variable ts : list Transcript.

Local Abbreviation boundaries := (find_exon_boundaries ts).
Local Abbreviation idx := (build_index boundaries ts).
Local Abbreviation tree := (build_intron_tree (ref_intron_dict idx)).

Hypothesis unique_ids : unique_ref_ids ts.
Hypothesis refs_well_formed :
  ∀ ref, ref ∈ ts → is_ref ref = true → well_formed ref = true.

(** The introns shared with a reference: at most one for every intron of
    the test transcript, and none unless the reference has introns. *)
Lemma shared_introns_bound (t ref : Transcript) (m : Match) :
  ref ∈ ts → is_ref ref = true →
  accumulate cmp_strand idx tree t (split_exons t boundaries)
    !! attr_transcript_id ref = Some m →
  exons t ≠ []
  ∧ (Datatypes.length (introns m)
     ≤ Datatypes.length (transcript_introns t))%nat
  ∧ (0 < Datatypes.length (introns m) →
     0 < Datatypes.length (transcript_introns ref))%nat
  ∧ (NoDup (transcript_introns t) →
     Datatypes.length (introns m)
     ≤ Datatypes.length (transcript_introns ref))%nat.
Proof.
  intros Hin Hr Hm.
  pose proof (refs_well_formed ref Hin Hr) as Hwfr.
  pose proof (accumulate_lookup _ _ _ _ _ _ _ Hm) as (Ht & _ & Hi & _).
  cbv zeta in Hi. rewrite Hi, introns_of_events.
  set (f := fun i => count_id (attr_transcript_id ref)
                       (owners_of transcript_introns i ts)).
  assert (Hf1 : ∀ i, f i = occ i (transcript_introns ref)).
  { intros i. unfold f. now apply count_id_owners. }
  split; [|split; [|split]].
  - intros E. apply touched_elem in Ht as (e & He & _).
    unfold events, split_exons, transcript_introns, iterintrons in He.
    rewrite E in He. simpl in He. by apply elem_of_nil in He.
  - apply sum_list_with_le_length. intros i _. rewrite Hf1.
    apply occ_le_1. now apply well_formed_introns_NoDup.
  - intros Hpos. apply sum_list_with_pos in Hpos as (i & _ & Hfi).
    rewrite Hf1 in Hfi. apply occ_pos in Hfi.
    destruct (transcript_introns ref); [by apply elem_of_nil in Hfi|simpl; lia].
  - intros Hnd.
    rewrite (sum_list_with_ext f (fun i => occ i (transcript_introns ref)))
      by (intros i _; apply Hf1).
    now apply sum_occ_le_length.
Qed.

(** The base pairs shared with a reference, on either strand side. *)
Lemma shared_bp_bound (t ref : Transcript) (m : Match) (c : Category.t) :
  ref ∈ ts → is_ref ref = true →
  (∀ e : Exon, e ∈ exons t → e.1 < e.2) →
  accumulate cmp_strand idx tree t (split_exons t boundaries)
    !! attr_transcript_id ref = Some m →
  c = SAME_STRAND ∨ c = OPP_STRAND →
  0 ≤ sum_bp (nodes m c) ≤ Transcript_length t
  ∧ (NoDup (split_exons t boundaries) →
     sum_bp (nodes m c) ≤ Transcript_length ref).
Proof.
  intros Hin Hr Hpos Hm Hc.
  assert (Hnodes : Forall (fun n : Node => n.1 < n.2)
                     (split_exons t boundaries)).
  { apply Forall_forall. intros n Hn.
    destruct (split_exons_nodes _ _ _ (find_exon_boundaries_sorted ts) Hn)
      as (_ & e & He & _ & _ & Hlen).
    apply Hlen, Hpos, He. }
  pose proof (exonic_bucket_sublist cmp_strand ts unique_ids t _ m c
                refs_well_formed Hm Hc) as Hsub.
  split; [split|].
  - apply sum_bp_nonneg. apply Forall_forall. intros n Hn.
    apply (proj1 (Forall_forall _ _) Hnodes).
    now apply (elem_of_sublist _ _ _ Hn Hsub).
  - rewrite <- (sum_bp_split_exons t boundaries).
    now apply sum_bp_sublist.
  - intros Hnd. rewrite <- (sum_bp_split_exons ref boundaries).
    apply sum_bp_NoDup_incl.
    + now apply (sublist_NoDup _ _ Hnd Hsub).
    + intros n Hn.
      destruct (exonic_bucket_elem cmp_strand ts t _ m c n Hm Hc Hn)
        as (ref' & Hin' & Hr' & Hid' & Hn' & _).
      now rewrite <- (unique_ref_ids_inj ts ref' ref unique_ids Hin' Hr' Hin Hr Hid').
    + apply Forall_forall. intros n Hn.
      destruct (split_exons_nodes _ _ _ (find_exon_boundaries_sorted ts) Hn)
        as (_ & e & He & _ & _ & Hlen).
      apply Hlen. apply (well_formed_exon_pos ref); [|done].
      now apply refs_well_formed.
Qed.

End SharedBounds.

(** ** The classifier on well-formed loci *)

Section WellFormedLocus.
Variable cmp_strand : Z → Z → bool.
Context `{PF : PyFloat}.
Variable ts : list Transcript.

Hypothesis unique_ids : unique_ref_ids ts.

(** X11: on a locus whose reference ids are pairwise distinct and whose
    transcripts are well formed (exons of positive length, sorted,
    non-overlapping), every yielded row has
    [0 ≤ shared_same_strand_bp ≤ min(length, ref_length)], the same for
    [shared_opp_strand_bp], one of the two equal to 0, and
    [0 ≤ shared_introns ≤ min(num_introns, ref_num_introns)]. *)
Theorem compare_locus_shared_bounds (st : State) (y : Yield) (a : addr) :
  (∀ t, t ∈ ts → well_formed t = true) →
  y ∈ (compare_locus cmp_strand st ts).1 → a ∈ yield_stats y →
  let row := yield_heap y a in
  0 ≤ MatchStats.shared_same_strand_bp row
    ≤ Z.min (MatchStats.length row) (MatchStats.ref_length row)
  ∧ 0 ≤ MatchStats.shared_opp_strand_bp row
      ≤ Z.min (MatchStats.length row) (MatchStats.ref_length row)
  ∧ (MatchStats.shared_same_strand_bp row = 0
     ∨ MatchStats.shared_opp_strand_bp row = 0)
  ∧ 0 ≤ MatchStats.shared_introns row
      ≤ Z.min (MatchStats.num_introns row) (MatchStats.ref_num_introns row).
Proof.
  intros Hwf Hy Ha.
  destruct (yielded_row cmp_strand st ts y a Hy Ha)
    as (Ht & Hnr & r & m & ms & Hm & Hf & Hrow).
  apply finalize_fields in Hf
    as (ref & c & gn & src & gt & Hd & _ & _ & _ & _ & Hms).
  apply build_index_ref_dict in Hd as (Hin & Hr & <-).
  assert (Hrefs : ∀ ref, ref ∈ ts → is_ref ref = true → well_formed ref = true)
    by (intros ? ? _; now apply Hwf).
  set (t := yield_transcript y) in *.
  assert (Hpos : ∀ e : Exon, e ∈ exons t → e.1 < e.2).
  { intros e He. apply (well_formed_exon_pos t); [|done]. now apply Hwf. }
  assert (Hnd : NoDup (split_exons t (find_exon_boundaries ts))).
  { apply split_exons_NoDup; [apply find_exon_boundaries_sorted|now apply Hwf]. }
  destruct (shared_bp_bound cmp_strand ts unique_ids Hrefs t ref m SAME_STRAND
              Hin Hr Hpos Hm) as [Hs1 Hs2]; [by left|].
  destruct (shared_bp_bound cmp_strand ts unique_ids Hrefs t ref m OPP_STRAND
              Hin Hr Hpos Hm) as [Ho1 Ho2]; [by right|].
  specialize (Hs2 Hnd). specialize (Ho2 Hnd).
  pose proof (exonic_buckets_exclusive cmp_strand ts unique_ids t _ m Hm) as Hex.
  destruct (shared_introns_bound cmp_strand ts unique_ids Hrefs t ref m Hin Hr Hm)
    as (Het & Hi1 & _ & Hi2).
  specialize (Hi2 (well_formed_introns_NoDup t (Hwf t Ht))).
  rewrite !transcript_introns_length in Hi1, Hi2.
  assert (Her : exons ref ≠ []) by (apply well_formed_exons; auto).
  assert (Hlt : (0 < Datatypes.length (exons t))%nat)
    by (destruct (exons t); [done|simpl; lia]).
  assert (Hlr : (0 < Datatypes.length (exons ref))%nat)
    by (destruct (exons ref); [done|simpl; lia]).
  assert (Hrow' : ∀ (f : MatchStats.t → Z),
            (∀ x, f (MatchStats.set_category x READ_THROUGH) = f x) →
            f (yield_heap y a) = f ms).
  { intros f Hfx. destruct Hrow as [->|[_ ->]]; [done|apply Hfx]. }
  simpl.
  rewrite (Hrow' MatchStats.shared_same_strand_bp),
    (Hrow' MatchStats.shared_opp_strand_bp),
    (Hrow' MatchStats.shared_introns), (Hrow' MatchStats.length),
    (Hrow' MatchStats.ref_length), (Hrow' MatchStats.num_introns),
    (Hrow' MatchStats.ref_num_introns) by done.
  rewrite Hms. simpl.
  split; [lia|]. split; [lia|]. split.
  - destruct Hex as [-> | ->]; simpl; tauto.
  - lia.
Qed.

Hypothesis refs_well_formed :
  ∀ ref, ref ∈ ts → is_ref ref = true → well_formed ref = true.

(** The three divisors of the key of a row are not zero. *)
Lemma row_key_defined (t : Transcript) (r : string) (m : Match)
    (ms : MatchStats.t) :
  (∀ e : Exon, e ∈ exons t → e.1 < e.2) →
  let boundaries := find_exon_boundaries ts in
  let idx := build_index boundaries ts in
  let tree := build_intron_tree (ref_intron_dict idx) in
  accumulate cmp_strand idx tree t (split_exons t boundaries) !! r = Some m →
  finalize idx t (split_exons t boundaries) r m = Ok ms →
  key_defined ms = true.
Proof.
  intros Hpos boundaries idx tree Hm Hf.
  apply finalize_fields in Hf
    as (ref & c & gn & src & gt & Hd & _ & _ & _ & _ & ->).
  apply build_index_ref_dict in Hd as (Hin & Hr & <-).
  destruct (shared_bp_bound cmp_strand ts unique_ids refs_well_formed t ref m
              SAME_STRAND Hin Hr Hpos Hm) as [Hs1 _]; [by left|].
  destruct (shared_bp_bound cmp_strand ts unique_ids refs_well_formed t ref m
              OPP_STRAND Hin Hr Hpos Hm) as [Ho1 _]; [by right|].
  destruct (shared_introns_bound cmp_strand ts unique_ids refs_well_formed
              t ref m Hin Hr Hm) as (Het & Hi1 & Hi2 & _).
  rewrite !transcript_introns_length in Hi1, Hi2.
  pose proof (well_formed_length_pos ref (refs_well_formed ref Hin Hr)) as Hlen.
  assert (Her : exons ref ≠ []) by (apply well_formed_exons; auto).
  assert (Hlt : (0 < Datatypes.length (exons t))%nat)
    by (destruct (exons t); [done|simpl; lia]).
  assert (Hlr : (0 < Datatypes.length (exons ref))%nat)
    by (destruct (exons ref); [done|simpl; lia]).
  unfold key_defined. simpl.
  apply andb_true_intro. split; [apply andb_true_intro; split|].
  - apply orb_true_iff.
    destruct (Z.eqb_spec
                (Z.of_nat (Datatypes.length (exons t)) - 1
                 + (Z.of_nat (Datatypes.length (exons ref)) - 1)) 0)
      as [E|E]; [by left|right].
    apply negb_true_iff, Z.eqb_neq. lia.
  - apply negb_true_iff, Z.eqb_neq. lia.
  - apply negb_true_iff, Z.eqb_neq. lia.
Qed.

Hypothesis refs_attrs_present :
  ∀ ref, ref ∈ ts → is_ref ref = true → ref_attrs_present ref = true.

(** One iteration of the loop succeeds. *)
Lemma compare_transcript_total (st : State) (t : Transcript) :
  (∀ e : Exon, e ∈ exons t → e.1 < e.2) →
  let boundaries := find_exon_boundaries ts in
  let idx := build_index boundaries ts in
  let tree := build_intron_tree (ref_intron_dict idx) in
  ∃ st' y, compare_transcript cmp_strand boundaries idx tree st t
           = Ok (st', y).
Proof.
  intros Hpos boundaries idx tree. unfold compare_transcript.
  destruct (classify_transcript_total cmp_strand ts st t Hpos
              refs_attrs_present) as (st1 & stats & Hc).
  fold boundaries idx tree in Hc. rewrite Hc. simpl.
  destruct st as [h next].
  destruct (classify_transcript_rows _ _ _ _ _ _ _ _ _ Hc)
    as (_ & _ & _ & Hrow & _).
  rewrite choose_best_spec.
  destruct stats as [|a0 stats0] eqn:El; [simpl; eauto|]. rewrite <- El in *.
  assert (Hall : forallb (fun a => key_defined (st1.1 a)) stats = true).
  { apply forallb_forall. intros a Ha%list_elem_of_In.
    destruct (Hrow a Ha) as (r & m & Hm & Hf).
    apply (row_key_defined t r m _ Hpos Hm Hf). }
  rewrite Hall.
  destruct (winner_max st1.1 stats) as (w & -> & _); [now subst stats|].
  simpl. eauto.
Qed.

Lemma compare_loop_total (st : State) (ts' : list Transcript) :
  (∀ t, t ∈ ts' → ∀ e : Exon, e ∈ exons t → e.1 < e.2) →
  let boundaries := find_exon_boundaries ts in
  let idx := build_index boundaries ts in
  let tree := build_intron_tree (ref_intron_dict idx) in
  (compare_loop cmp_strand boundaries idx tree st ts').2 = None.
Proof.
  intros Hpos boundaries idx tree. revert st.
  induction ts' as [|t ts' IH]; intros st; simpl; [done|].
  destruct (compare_transcript_total st t) as (st' & y & Hc);
    [apply Hpos; left|].
  fold boundaries idx tree in Hc. rewrite Hc.
  specialize (IH (fun t' Ht' => Hpos t' (list_elem_of_further _ _ _ Ht')) st').
  now destruct (compare_loop _ _ _ _ _ ts') as [ys e].
Qed.

(** X12: on a locus whose reference ids are pairwise distinct, whose
    references are well formed and carry the attributes gene_name, source
    and gene_type, and whose test transcripts have exons of positive
    length, [compare_locus] raises no exception (no failed assertion, no
    division by zero, no missing key) and yields every test transcript of
    the locus, in order. *)
Theorem compare_locus_total (st : State) :
  (∀ t, t ∈ ts → is_ref t = false → ∀ e : Exon, e ∈ exons t → e.1 < e.2) →
  (compare_locus cmp_strand st ts).2 = None
  ∧ map yield_transcript (compare_locus cmp_strand st ts).1
    = List.filter (fun t => negb (is_ref t)) ts.
Proof.
  intros Hpos. unfold compare_locus.
  set (boundaries := find_exon_boundaries ts).
  set (idx := build_index boundaries ts).
  set (tree := build_intron_tree (ref_intron_dict idx)).
  assert (Hnone : (compare_loop cmp_strand boundaries idx tree st
                     (test_transcripts idx)).2 = None).
  { apply compare_loop_total. intros t Ht.
    unfold idx in Ht. rewrite build_index_test in Ht.
    apply list_elem_of_In, filter_In in Ht as [Ht Hr].
    apply Hpos; [now apply list_elem_of_In|now destruct (is_ref t)]. }
  split; [done|].
  destruct (compare_loop_order cmp_strand boundaries idx tree st
              (test_transcripts idx)) as (rest & Hts & Hrest).
  apply Hrest in Hnone. subst rest. rewrite app_nil_r in Hts.
  rewrite <- Hts. unfold idx. apply build_index_test.
Qed.

End WellFormedLocus.

(** ** The second pass *)

(** The loop creates one object per nearest transcript, in order, at the
    next free addresses. *)
Lemma nearest_stats_loop_spec (t : Transcript)
    (xs : list (LocusFeature.t * Category.t * Z)) (h : MatchStats.heap)
    (next : addr) (acc : list addr) :
  ∃ h', nearest_stats_loop t xs (h, next) acc
        = ((h', (next + Datatypes.length xs)%nat),
           acc ++ seq next (Datatypes.length xs))
        ∧ (∀ a, (a < next)%nat → h' a = h a)
        ∧ map h' (seq next (Datatypes.length xs))
          = map (nearest_match_stats t) xs.
Proof.
  revert h next acc. induction xs as [|x xs IH]; intros h next acc; simpl.
  - exists h. rewrite app_nil_r, Nat.add_0_r. done.
  - destruct (IH (<[next := nearest_match_stats t x]> h) (S next)
                (acc ++ [next])) as (h' & -> & Hold & Hmap).
    exists h'. split; [|split].
    + rewrite <- app_assoc. simpl. do 2 f_equal. lia.
    + intros a Ha. rewrite Hold by lia. apply heap_lookup_insert_ne. lia.
    + rewrite Hmap. f_equal. rewrite Hold by lia.
      apply heap_lookup_insert_eq.
Qed.

(** Without a SAME_STRAND candidate, [choose_best] leaves the store as it
    is. *)
Lemma choose_best_without_same_strand `{PF : PyFloat} (h h' : MatchStats.heap)
    (lst : list addr) (best : option addr) :
  (∀ a, a ∈ lst → MatchStats.category (h a) ≠ SAME_STRAND) →
  MatchStats.choose_best h lst = Ok (h', best) → h' = h.
Proof.
  intros Hcat Hb.
  destruct best as [w|].
  - pose proof (choose_best_member _ _ _ _ Hb) as Hw.
    rewrite choose_best_spec in Hb.
    destruct lst as [|a0 lst0] eqn:El; [by apply elem_of_nil in Hw|].
    rewrite <- El in *.
    destruct (forallb _ lst); [|done].
    destruct (winner h lst) as [w0|]; [|done].
    injection Hb as <- ->. unfold relabel, read_through.
    specialize (Hcat w Hw). unfold cat_eqb.
    now rewrite bool_decide_false.
  - rewrite choose_best_spec in Hb.
    destruct lst as [|a0 lst0] eqn:El; [now injection Hb|].
    rewrite <- El in *.
    destruct (forallb _ lst); [|done].
    now destruct (winner h lst).
Qed.

Section SecondPassFacts.
Variable cmp_strand : Z → Z → bool.

(** The categories that [find_nearest_transcripts] gives. *)
Lemma find_nearest_transcripts_category chrom start end_ strand
    (locus_trees : gmap string LocusTree) f c d :
  (f, c, d)
    ∈ find_nearest_transcripts cmp_strand chrom start end_ strand locus_trees →
  (c = ENCOMPASSING_SAME_STRAND ∨ c = ENCOMPASSING_OPP_STRAND) ∧ d = 0
  ∨ c = INTERGENIC ∧ 0 ≤ d.
Proof.
  rewrite find_nearest_transcripts_flat, !elem_of_app.
  intros [He|[He|He]].
  - left. apply list_elem_of_In, in_flat_map in He as (hit & _ & He).
    apply in_map_iff in He as (f' & He & _). unfold encompassing in He.
    injection He as _ <- <-. destruct (cmp_strand _ _); tauto.
  - right. destruct (nearest_locus_hit _ _ _); [|by apply elem_of_nil in He].
    apply list_elem_of_In, in_map_iff in He as (f' & He & _).
    unfold intergenic in He. injection He as _ <- <-. split; [done|lia].
  - right. destruct (nearest_locus_hit _ _ _); [|by apply elem_of_nil in He].
    apply list_elem_of_In, in_map_iff in He as (f' & He & _).
    unfold intergenic in He. injection He as _ <- <-. split; [done|lia].
Qed.

Context `{PF : PyFloat}.

(** The fractions of a nearest transcript have the divisor
    [length + ref_length]. *)
Lemma nearest_key_defined (t : Transcript)
    (x : LocusFeature.t * Category.t * Z) :
  key_defined (nearest_match_stats t x)
  = negb (Transcript_length t + LocusFeature.length x.1.1 =? 0).
Proof.
  destruct x as [[f c] d]. unfold key_defined.
  cbn [nearest_match_stats MatchStats.num_introns MatchStats.ref_num_introns
       MatchStats.shared_introns MatchStats.length MatchStats.ref_length
       MatchStats.shared_same_strand_bp MatchStats.shared_opp_strand_bp
       fst snd].
  rewrite !Z.sub_0_r.
  destruct (_ + LocusFeature.num_introns f =? 0);
    destruct (_ + LocusFeature.length f =? 0); reflexivity.
Qed.

(** What the second pass leaves for a transcript that has neighbours: the
    objects of the nearest transcripts, in order, untouched by the choice of
    the best of them. *)
Lemma resolve_intergenic_neighbours (locus_trees : gmap string LocusTree)
    (st st' : State) (t : Transcript) (y : Yield) :
  resolve_intergenic cmp_strand locus_trees st t = Ok (st', Neighbours y) →
  let nearest_transcripts :=
    find_nearest_transcripts cmp_strand (chrom t) (start t) (end_ t)
      (strand t) locus_trees in
  nearest_transcripts ≠ []
  ∧ yield_transcript y = t
  ∧ map (yield_heap y) (yield_stats y)
    = map (nearest_match_stats t) nearest_transcripts
  ∧ MatchStats.choose_best (yield_heap y) (yield_stats y)
    = Ok (yield_heap y, yield_best y)
  ∧ (∃ b, yield_best y = Some b ∧ b ∈ yield_stats y)
  ∧ ∀ a, a ∈ yield_stats y →
         MatchStats.category (yield_heap y a)
           ∈ [ENCOMPASSING_SAME_STRAND; ENCOMPASSING_OPP_STRAND; INTERGENIC].
Proof.
  intros Hres nearest. unfold resolve_intergenic in Hres.
  fold nearest in Hres.
  destruct (Datatypes.length nearest =? 0)%nat eqn:El; [done|].
  apply Nat.eqb_neq in El.
  destruct st as [h next].
  destruct (nearest_stats_loop_spec t nearest h next [])
    as (h1 & Hloop & Hold & Hmap).
  rewrite Hloop in Hres. simpl in Hres.
  destruct (MatchStats.choose_best h1 _) as [[h2 best]|e] eqn:Eb; [|done].
  simpl in Hres. injection Hres as <- <-.
  unfold yield_transcript, yield_heap, yield_stats, yield_best. simpl.
  assert (Hcat : ∀ a, a ∈ seq next (Datatypes.length nearest) →
            MatchStats.category (h1 a)
              ∈ [ENCOMPASSING_SAME_STRAND; ENCOMPASSING_OPP_STRAND; INTERGENIC]).
  { intros a Ha.
    assert (Hin : h1 a ∈ map h1 (seq next (Datatypes.length nearest))).
    { apply list_elem_of_In, in_map. now apply list_elem_of_In. }
    rewrite Hmap in Hin.
    apply list_elem_of_In, in_map_iff in Hin as ([[f c] d] & <- & Hx).
    apply list_elem_of_In, find_nearest_transcripts_category in Hx.
    simpl. unfold Category.to_str.
    rewrite !elem_of_cons.
    destruct Hx as [[[-> | ->] _]|[-> _]]; tauto. }
  assert (Hh2 : h2 = h1).
  { apply (choose_best_without_same_strand _ _ _ _) with (2 := Eb).
    intros a Ha E. specialize (Hcat a Ha). rewrite E in Hcat.
    repeat (apply elem_of_cons in Hcat as [Hcat|Hcat]; [discriminate|]).
    by apply elem_of_nil in Hcat. }
  subst h2.
  split; [now destruct nearest|]. split; [done|]. split; [done|].
  split; [done|]. split; [|done].
  destruct best as [b|].
  - exists b. split; [done|]. now apply choose_best_member in Eb.
  - exfalso. rewrite choose_best_spec in Eb.
    destruct (seq next (Datatypes.length nearest)) as [|a0 l0] eqn:Es.
    { destruct nearest; [done|discriminate Es]. }
    destruct (forallb _ _); [|done]. now destruct (winner h1 _).
Qed.

End SecondPassFacts.

(** ** The best match of the second pass *)

Section SecondPassBest.
Context `{PF : PyFloat}.
Hypothesis zero_quotients : zero_quotients_equal PF.

Lemma float_cmp_zeros (x y : float) :
  float_cmp x float_zero = Eq → float_cmp y float_zero = Eq →
  float_cmp x y = Eq.
Proof.
  intros Hx Hy. rewrite (float_cmp_eq_compat x float_zero y Hx).
  rewrite (float_cmp_antisym y float_zero), Hy. reflexivity.
Qed.

Lemma shares_nothing_fracs (m : MatchStats.t) :
  shares_nothing m →
  float_cmp (intron_frac m) float_zero = Eq
  ∧ float_cmp (same_strand_frac m) float_zero = Eq
  ∧ float_cmp (opp_strand_frac m) float_zero = Eq.
Proof.
  intros (_ & Hi & Hs & Ho & Hk).
  unfold key_defined in Hk. rewrite Hi, Hs, Ho in Hk.
  apply andb_prop in Hk as [[Hk1 Hk2]%andb_prop Hk3].
  apply negb_true_iff, Z.eqb_neq in Hk2, Hk3.
  unfold intron_frac, same_strand_frac, opp_strand_frac.
  rewrite Hi, Hs, Ho. split; [|split].
  - destruct (_ + _ =? 0) eqn:E.
    + rewrite (float_cmp_antisym float_zero float_zero).
      destruct (float_cmp float_zero float_zero) eqn:Ec; try done.
      * pose proof (float_cmp_antisym float_zero float_zero) as Ha.
        rewrite Ec in Ha. discriminate Ha.
      * pose proof (float_cmp_antisym float_zero float_zero) as Ha.
        rewrite Ec in Ha. discriminate Ha.
    + apply zero_quotients. apply Z.eqb_neq in E. lia.
  - now apply zero_quotients.
  - now apply zero_quotients.
Qed.

(** Between two such rows, the key is decided by the flags of the
    ENCOMPASSING and INTERGENIC categories and by the distance. *)
Lemma shares_nothing_key_compare (m1 m2 : MatchStats.t) :
  shares_nothing m1 → shares_nothing m2 →
  MatchStats.category m1
    ∈ [ENCOMPASSING_SAME_STRAND; ENCOMPASSING_OPP_STRAND; INTERGENIC] →
  MatchStats.category m2
    ∈ [ENCOMPASSING_SAME_STRAND; ENCOMPASSING_OPP_STRAND; INTERGENIC] →
  key_compare (rank_key m1) (rank_key m2)
  = first_decided
      [Z.compare (category_flag m1 ENCOMPASSING_SAME_STRAND)
                 (category_flag m2 ENCOMPASSING_SAME_STRAND);
       Z.compare (category_flag m1 ENCOMPASSING_OPP_STRAND)
                 (category_flag m2 ENCOMPASSING_OPP_STRAND);
       Z.compare (category_flag m1 INTERGENIC) (category_flag m2 INTERGENIC);
       Z.compare (- Z.abs (MatchStats.distance m1))
                 (- Z.abs (MatchStats.distance m2))].
Proof.
  intros H1 H2 Hc1 Hc2.
  destruct (shares_nothing_fracs m1 H1) as (Hi1 & Hs1 & Ho1).
  destruct (shares_nothing_fracs m2 H2) as (Hi2 & Hs2 & Ho2).
  destruct H1 as (Hsp1 & _). destruct H2 as (Hsp2 & _).
  unfold key_compare, rank_key. cbv beta iota zeta.
  rewrite Hsp1, Hsp2.
  rewrite (float_cmp_zeros _ _ Hi1 Hi2), (float_cmp_zeros _ _ Hs1 Hs2),
    (float_cmp_zeros _ _ Ho1 Ho2).
  unfold category_flag.
  rewrite !elem_of_cons in Hc1. rewrite !elem_of_cons in Hc2.
  destruct Hc1 as [E1|[E1|[E1|Hc1]]]; [| | |by apply elem_of_nil in Hc1];
    destruct Hc2 as [E2|[E2|[E2|Hc2]]]; try (by apply elem_of_nil in Hc2);
    rewrite E1, E2; reflexivity.
Qed.

End SecondPassBest.

Lemma forallb_map {A B : Type} (f : B → bool) (g : A → B) (l : list A) :
  forallb f (map g l) = forallb (fun x => f (g x)) l.
Proof. induction l as [|x l IH]; simpl; [done|]. now rewrite IH. Qed.

Section SecondPassTheorems.
Variable cmp_strand : Z → Z → bool.
Context `{PF : PyFloat}.

(** X13: for a transcript that has nearest transcripts, the second pass
    creates one row per entry of [find_nearest_transcripts], in that
    order, each with the reference fields of its feature, nothing shared,
    and the category and distance of the entry; the best match is one of
    these rows, and every row is ENCOMPASSING_SAME_STRAND,
    ENCOMPASSING_OPP_STRAND or INTERGENIC: [choose_best] relabels none of
    them READ_THROUGH. *)
Theorem second_pass_rows (locus_trees : gmap string LocusTree) (st st' : State)
    (t : Transcript) (y : Yield) :
  resolve_intergenic cmp_strand locus_trees st t = Ok (st', Neighbours y) →
  map (yield_heap y) (yield_stats y)
  = map (nearest_match_stats t)
        (find_nearest_transcripts cmp_strand (chrom t) (start t) (end_ t)
           (strand t) locus_trees)
  ∧ (∃ b, yield_best y = Some b ∧ b ∈ yield_stats y)
  ∧ ∀ a, a ∈ yield_stats y →
         MatchStats.category (yield_heap y a)
           ∈ [ENCOMPASSING_SAME_STRAND; ENCOMPASSING_OPP_STRAND; INTERGENIC].
Proof.
  intros Hres.
  destruct (resolve_intergenic_neighbours cmp_strand _ _ _ _ _ Hres)
    as (_ & _ & Hmap & _ & Hbest & Hcat).
  split; [exact Hmap|]. split; [exact Hbest|exact Hcat].
Qed.

(** X14: the second pass raises for a transcript exactly when one of its
    nearest transcripts and the transcript itself both have length 0, and
    the exception is then ZeroDivisionError (from the strand fractions of
    [choose_best]); a transcript without nearest transcripts never
    raises. *)
Theorem second_pass_raises (locus_trees : gmap string LocusTree) (st : State)
    (t : Transcript) (e : exn) :
  resolve_intergenic cmp_strand locus_trees st t = Raise e
  ↔ e = ZeroDivisionError
    ∧ ∃ f c d,
        (f, c, d) ∈ find_nearest_transcripts cmp_strand (chrom t) (start t)
                      (end_ t) (strand t) locus_trees
        ∧ Transcript_length t + LocusFeature.length f = 0.
Proof.
  unfold resolve_intergenic.
  remember (find_nearest_transcripts cmp_strand (chrom t) (start t) (end_ t)
              (strand t) locus_trees) as nearest eqn:Hn.
  clear Hn. destruct st as [h next].
  destruct (nearest_stats_loop_spec t nearest h next [])
    as (h1 & Hloop & _ & Hmap).
  rewrite Hloop. simpl.
  assert (Hall : forallb (fun a => key_defined (h1 a))
                   (seq next (Datatypes.length nearest))
                 = forallb (fun x : LocusFeature.t * Category.t * Z =>
                              negb (Transcript_length t
                                    + LocusFeature.length x.1.1 =? 0))
                           nearest).
  { rewrite <- (forallb_map key_defined h1), Hmap, forallb_map.
    clear. induction nearest as [|x l IH]; simpl; [done|].
    now rewrite nearest_key_defined, IH. }
  destruct (Datatypes.length nearest =? 0)%nat eqn:El.
  { apply Nat.eqb_eq in El. destruct nearest; [|discriminate El].
    split; [done|]. intros (_ & f & c & d & Hin & _).
    by apply elem_of_nil in Hin. }
  apply Nat.eqb_neq in El.
  rewrite choose_best_spec.
  destruct (seq next (Datatypes.length nearest)) as [|a0 l1] eqn:Es.
  { destruct nearest; [done|discriminate Es]. }
  rewrite <- Es in *. rewrite Hall.
  destruct (forallb _ nearest) eqn:Ef.
  - destruct (winner_max h1 (seq next (Datatypes.length nearest)))
      as (w & -> & _); [rewrite Es; done|].
    simpl. split; [done|]. intros (_ & f & c & d & Hin & Hz).
    rewrite forallb_forall in Ef.
    specialize (Ef (f, c, d) (proj1 (list_elem_of_In _ _) Hin)).
    simpl in Ef. apply negb_true_iff, Z.eqb_neq in Ef. done.
  - simpl. split.
    + intros [= <-]. split; [done|].
      assert (Hex : ∃ x, In x nearest
                ∧ negb (Transcript_length t + LocusFeature.length x.1.1 =? 0)
                  = false).
      { clear -Ef. induction nearest as [|x l IH]; simpl in *; [done|].
        apply andb_false_iff in Ef as [Ef|Ef].
        - exists x. split; [now left|done].
        - destruct (IH Ef) as (x' & Hx' & Hk). exists x'.
          split; [now right|done]. }
      destruct Hex as ([[f c] d] & Hin & Hk).
      exists f, c, d. split; [now apply list_elem_of_In|].
      apply negb_false_iff, Z.eqb_eq in Hk. exact Hk.
    + intros (-> & _). reflexivity.
Qed.

Hypothesis zero_quotients : zero_quotients_equal PF.

(** X15: when quotients of numerator 0 compare equal to [0.0], the best
    match of the second pass is chosen by category and then by distance:
    it is ENCOMPASSING_SAME_STRAND; or it is ENCOMPASSING_OPP_STRAND and no
    row is ENCOMPASSING_SAME_STRAND; or every row is INTERGENIC and no row
    is nearer than the best match. *)
Theorem second_pass_best_precedence (locus_trees : gmap string LocusTree)
    (st st' : State) (t : Transcript) (y : Yield) (b a : addr) :
  resolve_intergenic cmp_strand locus_trees st t = Ok (st', Neighbours y) →
  yield_best y = Some b → a ∈ yield_stats y →
  let best := yield_heap y b in
  let other := yield_heap y a in
  MatchStats.category best = ENCOMPASSING_SAME_STRAND
  ∨ (MatchStats.category best = ENCOMPASSING_OPP_STRAND
     ∧ MatchStats.category other ≠ ENCOMPASSING_SAME_STRAND)
  ∨ (MatchStats.category best = INTERGENIC
     ∧ MatchStats.category other = INTERGENIC
     ∧ Z.abs (MatchStats.distance best) ≤ Z.abs (MatchStats.distance other)).
Proof.
  intros Hres Hb Ha.
  destruct (resolve_intergenic_neighbours cmp_strand _ _ _ _ _ Hres)
    as (_ & _ & Hmap & Hcb & (b' & Hb' & Hbin) & Hcat).
  rewrite Hb in Hb'. injection Hb' as <-. rewrite Hb in Hcb.
  destruct y as [[[h t'] best] stats].
  unfold yield_heap, yield_stats, yield_best in *. simpl in *.
  assert (Hrow : ∀ a, a ∈ stats → shares_nothing (h a)).
  { intros a0 Ha0.
    assert (Hin : h a0 ∈ map h stats)
      by (apply list_elem_of_In, in_map; now apply list_elem_of_In).
    rewrite Hmap in Hin.
    apply list_elem_of_In, in_map_iff in Hin as ([[f c] d] & E & _).
    destruct (key_defined (h a0)) eqn:Hk.
    - unfold shares_nothing. rewrite Hk, <- E. simpl. done.
    - rewrite (choose_best_zero_division h stats a0 Ha0 Hk) in Hcb.
      discriminate Hcb. }
  assert (Hmax : key_compare (rank_key (h a)) (rank_key (h b)) ≠ Gt).
  { rewrite choose_best_spec in Hcb.
    destruct stats as [|a0 l0] eqn:El; [by apply elem_of_nil in Ha|].
    rewrite <- El in *.
    destruct (forallb _ stats); [|done].
    destruct (winner_max h stats) as (w & Ew & _ & Hmax); [now subst stats|].
    rewrite Ew in Hcb. injection Hcb as _ ->.
    specialize (Hmax a Ha). rewrite hit_compare_key in Hmax.
    intros E. rewrite E in Hmax. now apply Hmax. }
  pose proof (Hcat a Ha) as H1. pose proof (Hcat b Hbin) as H2.
  rewrite (shares_nothing_key_compare zero_quotients _ _ (Hrow a Ha)
             (Hrow b Hbin) H1 H2) in Hmax.
  unfold category_flag in Hmax.
  rewrite !elem_of_cons in H1. rewrite !elem_of_cons in H2.
  destruct H1 as [E1|[E1|[E1|H1]]]; [| | |by apply elem_of_nil in H1];
    destruct H2 as [E2|[E2|[E2|H2]]]; try (by apply elem_of_nil in H2);
    rewrite E1, E2 in *; simpl in Hmax; try (exfalso; now apply Hmax);
    try (left; reflexivity);
    try (right; left; split; [reflexivity|discriminate]).
  right. right. split; [done|]. split; [done|].
  destruct (Z.compare_spec (- Z.abs (MatchStats.distance (h a)))
                           (- Z.abs (MatchStats.distance (h b))));
    [lia|lia|done].
Qed.

End SecondPassTheorems.
